(** * gist-video backend: timing, alignment, shot normalisation, scheduling

    A shallow embedding of the core algorithms of the gist-video backend
    ([app/audio/edgetts_meta.py], [app/jobs/render_job.py],
    [app/jobs/index_job.py]) together with the properties established
    about them.

    Conventions of the embedding:
    - a Python [str] is the list of its Unicode code points ([pystr]);
    - a Python [float] holding a time in seconds is an exact rational ([Q]);
      numeric equality of floats is [Qeq];
    - a Python [int] is a [Z]; list positions are [nat] once clamped;
    - a raised exception is a value of an error type, returned on the left
      of a sum. *)

From Stdlib Require Import List ZArith QArith Qround Qabs Lia Lqa Bool.
Import ListNotations.

Local Open Scope Z_scope.

(** ** Python strings *)

Module PyStr.

Definition pystr := list Z.

(** Characters for which [str.isspace()] holds; the class matched by the
    regular expression [\s] on [str] patterns and removed by [strip()]. *)
Definition is_space (c : Z) : bool :=
  ((9 <=? c) && (c <=? 13)) || ((28 <=? c) && (c <=? 32))
  || (c =? 133) || (c =? 160) || (c =? 5760)
  || ((8192 <=? c) && (c <=? 8202))
  || (c =? 8232) || (c =? 8233) || (c =? 8239) || (c =? 8287)
  || (c =? 12288).

Fixpoint lstrip (s : pystr) : pystr :=
  match s with
  | c :: s' => if is_space c then lstrip s' else s
  | [] => []
  end.

Definition rstrip (s : pystr) : pystr := rev (lstrip (rev s)).

Definition strip (s : pystr) : pystr := rstrip (lstrip s).

(** [_SPACE_RE.sub("", s)] with [_SPACE_RE = re.compile(r"\s+")]. *)
Definition remove_spaces (s : pystr) : pystr :=
  filter (fun c => negb (is_space c)) s.

Definition mem (c : Z) (cs : list Z) : bool := existsb (Z.eqb c) cs.

Fixpoint str_eqb (a b : pystr) : bool :=
  match a, b with
  | [], [] => true
  | x :: a', y :: b' => (x =? y) && str_eqb a' b'
  | _, _ => false
  end.

Fixpoint starts_with (p s : pystr) : bool :=
  match p, s with
  | [], _ => true
  | x :: p', y :: s' => (x =? y) && starts_with p' s'
  | _ :: _, [] => false
  end.

(** [p in s] for strings: [p] occurs as a contiguous substring of [s]. *)
Fixpoint contains (p s : pystr) : bool :=
  starts_with p s
  || match s with
     | [] => false
     | _ :: s' => contains p s'
     end.

(** Python slicing [s[a:b]] for [0 <= a]. *)
Definition slice (s : pystr) (a b : nat) : pystr := firstn (b - a)%nat (skipn a s).

End PyStr.

(** ** Python numbers *)

Module PyNum.

(** Python's [max(a, b)] and [min(a, b)] on two floats: the first argument
    is kept unless the second is strictly larger (smaller). *)
Definition qmax (a b : Q) : Q := if Qlt_le_dec a b then b else a.
Definition qmin (a b : Q) : Q := if Qlt_le_dec b a then b else a.

(** [round(x)] on a float: to the nearest integer, ties to the even one. *)
Definition round_half_even (q : Q) : Z :=
  let f := Qfloor q in
  match ((q - inject_Z f) ?= (1 # 2))%Q with
  | Lt => f
  | Gt => f + 1
  | Eq => if Z.even f then f else f + 1
  end.

(** [int(x)] on a float: truncation towards zero. *)
Definition py_int (q : Q) : Z :=
  if Qlt_le_dec q 0 then Qceiling q else Qfloor q.

(** [round(x, 3)]: to the nearest thousandth, ties to even. *)
Definition round3 (q : Q) : Q := (round_half_even (q * 1000) # 1000)%Q.

Fixpoint set_nth {A} (i : nat) (x : A) (l : list A) : list A :=
  match l, i with
  | [], _ => []
  | _ :: l', O => x :: l'
  | y :: l', S i' => y :: set_nth i' x l'
  end.

End PyNum.

(** ** [app/audio/edgetts_meta.py] *)

Module EdgeTTSMeta.
Import PyStr PyNum.

(** [_PUNCT = set("，。！？；：、,.!?;:…")] *)
Definition _PUNCT : list Z :=
  [65292; 12290; 65281; 65311; 65307; 65306; 12289;
   44; 46; 33; 63; 59; 58; 8230].

Definition is_punct (c : Z) : bool := mem c _PUNCT.

(** Both branches of the source's inner test add one, so every character
    that is neither whitespace nor in [_PUNCT] counts. *)
Definition _visible_len_zh (s : pystr) : Z :=
  fold_left (fun n ch => if is_punct ch then n else n + 1) (remove_spaces s) 0.

Definition visible_len_zh (s : pystr) : Z := _visible_len_zh s.

(** The mutable locals of [split_one_line] that [flush_at] rebinds. *)
Record split_state := mk_split_state {
  sp_out : list pystr;
  sp_cur : pystr;
  sp_cur_n : Z;
  sp_last_punct_pos : Z;
  sp_last_punct_n : Z
}.

(** The rescan at the end of [flush_at]: [(i, last_punct_pos, last_punct_n,
    tmp_n)] threaded through [enumerate(cur)]. *)
Definition rescan_punct (cur : pystr) : Z * Z :=
  let '(_, pos, n, _) :=
    fold_left
      (fun (acc : Z * Z * Z * Z) ch =>
         let '(i, pos, n, tmp_n) := acc in
         if is_punct ch then (i + 1, i + 1, tmp_n, tmp_n)
         else (i + 1, pos, n, tmp_n + 1))
      cur (0, -1, 0, 0)
  in (pos, n).

Definition flush_at (st : split_state) (pos : Z) : split_state :=
  if pos <=? 0 then st
  else
    let rest := skipn (Z.to_nat pos) (sp_cur st) in
    let '(lp, ln) := rescan_punct rest in
    {| sp_out := sp_out st ++ [firstn (Z.to_nat pos) (sp_cur st)];
       sp_cur := rest;
       sp_cur_n := _visible_len_zh rest;
       sp_last_punct_pos := lp;
       sp_last_punct_n := ln |}.

(** The hard-cut search: the first index at which the running count of
    non-punctuation characters exceeds [max_chars]; [0] when the loop ends
    without [break]. *)
Fixpoint hard_cut_from (cur : pystr) (i tmp_n max_chars : Z) : Z :=
  match cur with
  | [] => 0
  | c2 :: rest =>
      let tmp_n' := if is_punct c2 then tmp_n else tmp_n + 1 in
      if tmp_n' >? max_chars then i
      else hard_cut_from rest (i + 1) tmp_n' max_chars
  end.

Definition split_step (max_chars : Z) (st : split_state) (ch : Z) : split_state :=
  let cur := sp_cur st ++ [ch] in
  let st1 :=
    if is_punct ch then
      {| sp_out := sp_out st; sp_cur := cur; sp_cur_n := sp_cur_n st;
         sp_last_punct_pos := Z.of_nat (length cur);
         sp_last_punct_n := sp_cur_n st |}
    else
      {| sp_out := sp_out st; sp_cur := cur; sp_cur_n := sp_cur_n st + 1;
         sp_last_punct_pos := sp_last_punct_pos st;
         sp_last_punct_n := sp_last_punct_n st |} in
  if sp_cur_n st1 <=? max_chars then st1
  else if (sp_last_punct_pos st1 >? 0)
          && (sp_last_punct_n st1 >=? Z.max 4 (max_chars / 2))
  then flush_at st1 (sp_last_punct_pos st1)
  else
    let cut := hard_cut_from cur 0 0 max_chars in
    let cut := if cut <=? 0 then Z.max 1 (Z.of_nat (length cur) - 1) else cut in
    flush_at st1 cut.

Definition nonblank (x : pystr) : bool :=
  match strip x with [] => false | _ => true end.

Definition split_one_line (text : pystr) (max_chars : Z) : list pystr :=
  let s := remove_spaces (strip text) in
  match s with
  | [] => []
  | _ =>
      let max_chars := Z.max 1 max_chars in
      let st := fold_left (split_step max_chars) s
                  {| sp_out := []; sp_cur := []; sp_cur_n := 0;
                     sp_last_punct_pos := -1; sp_last_punct_n := 0 |} in
      let out := if nonblank (sp_cur st) then sp_out st ++ [sp_cur st]
                 else sp_out st in
      filter nonblank out
  end.

Record WordItem := mk_word {
  w_text : pystr;
  w_start : Q;
  w_end : Q
}.

Record SentenceItem := mk_sentence {
  s_text : pystr;
  s_start : Q;
  s_end : Q
}.

(** The [RuntimeError]s of [align_script_parts_to_words], told apart by
    their message. *)
Inductive align_error :=
| MissingWordBoundary
    (* "EdgeTTS meta missing WordBoundary; cannot align." *)
| EmptyAfterCleaning
    (* "EdgeTTS WordBoundary tokens are empty after cleaning." *)
| PunctOnlyPart
    (* a script part holds only punctuation or blanks *)
| AlignmentMismatch (mismatch_at : nat) (script_snip json_snip : pystr).
    (* the cleaned script and the cleaned WordBoundary text differ *)

Definition is_spoken (ch : Z) : bool :=
  ((19968 <=? ch) && (ch <=? 40959))
  || ((65 <=? ch) && (ch <=? 90))
  || ((97 <=? ch) && (ch <=? 122))
  || ((48 <=? ch) && (ch <=? 57)).

Definition _clean_spoken (s : pystr) : pystr :=
  filter is_spoken (remove_spaces s).

(** [word_tok] and [word_map], built together over [enumerate(words)]. *)
Fixpoint clean_words_from (i : nat) (words : list WordItem) : list (pystr * nat) :=
  match words with
  | [] => []
  | w :: rest =>
      let t := _clean_spoken (w_text w) in
      match t with
      | [] => clean_words_from (S i) rest
      | _ => (t, i) :: clean_words_from (S i) rest
      end
  end.

(** The [while] loop locating the first mismatch. *)
Fixpoint first_mismatch (a b : pystr) : nat :=
  match a, b with
  | x :: a', y :: b' => if x =? y then S (first_mismatch a' b') else O
  | _, _ => O
  end.

(** [cum_end]: running totals of the token lengths. *)
Fixpoint cum_lengths (cur : nat) (toks : list pystr) : list nat :=
  match toks with
  | [] => []
  | t :: rest => (cur + length t)%nat :: cum_lengths (cur + length t) rest
  end.

(** [bisect.bisect_left]: the loop of the standard library, on [lo] and
    [hi]; the interval shrinks at every turn, so [S (length a)] turns are
    enough. *)
Fixpoint bisect_loop (fuel : nat) (a : list nat) (x lo hi : nat) : nat :=
  match fuel with
  | O => lo
  | S fuel' =>
      if (lo <? hi)%nat then
        let mid := ((lo + hi) / 2)%nat in
        if (nth mid a O <? x)%nat then bisect_loop fuel' a x (S mid) hi
        else bisect_loop fuel' a x lo mid
      else lo
  end.

Definition bisect_left (a : list nat) (x : nat) : nat :=
  bisect_loop (S (length a)) a x O (length a).

Definition _pos_to_tok_idx (cum_end : list nat) (n_tok : nat) (char_pos : nat) : nat :=
  match char_pos with
  | O => O
  | _ => Nat.min n_tok (S (bisect_left cum_end char_pos))
  end.

(** The loop over [part_tok[:-1]] appending to [bounds_tok]. *)
Fixpoint inner_bounds (cum_end : list nat) (n_tok acc : nat) (toks : list pystr)
  : list nat :=
  match toks with
  | [] => []
  | t :: rest =>
      _pos_to_tok_idx cum_end n_tok (acc + length t)
      :: inner_bounds cum_end n_tok (acc + length t) rest
  end.

Definition bounds_tok (cum_end : list nat) (n_tok : nat) (part_tok : list pystr)
  : list nat :=
  (O :: inner_bounds cum_end n_tok O (removelast part_tok)) ++ [n_tok].

(** One turn of the loop over [zip(bounds_tok, bounds_tok[1:])]. *)
Definition tok_range (word_map : list nat) (ab : nat * nat) : nat * nat :=
  let '(a_t, b_t) := ab in
  let a_t := Nat.max 0 (Nat.min (length word_map - 1)%nat a_t) in
  let b_t := Nat.max (a_t + 1)%nat (Nat.min (length word_map) b_t) in
  (nth a_t word_map O, (nth (b_t - 1)%nat word_map O + 1)%nat).

Definition dummy_word : WordItem := mk_word [] 0 0.

(** One turn of the midpoint loop, on the pair [(starts, ends)]. *)
Definition midpoint_step (se : list Q * list Q) (i : nat) : list Q * list Q :=
  let '(starts, ends) := se in
  let mid := ((1 # 2) * (nth i ends 0 + nth (S i) starts 0))%Q in
  (set_nth (S i) mid starts, set_nth i mid ends).

Definition split_gaps (starts ends : list Q) : list Q * list Q :=
  fold_left midpoint_step (seq 0 (length starts - 1)%nat) (starts, ends).

(** The closing loop shared by [align_script_parts_to_words] and
    [build_units_from_meta]: starts never go back, every interval lasts
    at least 0.02 s. *)
Fixpoint fix_monotonic (prev : Q) (l : list (Q * Q)) : list (Q * Q) :=
  match l with
  | [] => []
  | (st, en) :: rest =>
      let st := qmax prev st in
      let en := qmax (st + (2 # 100))%Q en in
      (st, en) :: fix_monotonic en rest
  end.

Definition align_script_parts_to_words
  (words : list WordItem) (parts : list pystr) (total_dur : option Q)
  : align_error + list (Q * Q) :=
  let parts := map strip (filter nonblank parts) in
  match parts with
  | [] => inr []
  | _ =>
  match words with
  | [] => inl MissingWordBoundary
  | _ =>
  let cleaned := clean_words_from 0 words in
  let word_tok := map fst cleaned in
  let word_map := map snd cleaned in
  match word_tok with
  | [] => inl EmptyAfterCleaning
  | _ =>
  let part_tok := map _clean_spoken parts in
  if existsb (fun t => match t with [] => true | _ => false end) part_tok
  then inl PunctOnlyPart
  else
  let whole_words := concat word_tok in
  let whole_script := concat part_tok in
  if negb (str_eqb whole_script whole_words) then
    let m := first_mismatch whole_script whole_words in
    inl (AlignmentMismatch m
           (slice whole_script (m - 20)%nat (m + 40)%nat)
           (slice whole_words (m - 20)%nat (m + 40)%nat))
  else
  let cum_end := cum_lengths 0 word_tok in
  let bounds := bounds_tok cum_end (length word_tok) part_tok in
  let ranges := map (tok_range word_map) (combine bounds (tl bounds)) in
  let starts := map (fun ab => w_start (nth (fst ab) words dummy_word)) ranges in
  let ends := map (fun ab => w_end (nth (snd ab - 1)%nat words dummy_word)) ranges in
  let '(starts, ends) := split_gaps starts ends in
  let '(starts, ends) :=
    match total_dur, starts with
    | Some t, _ :: _ => (set_nth 0 0%Q starts, set_nth (length ends - 1)%nat t ends)
    | _, _ => (starts, ends)
    end in
  inr (fix_monotonic 0 (combine starts ends))
  end end end.

(** *** [_partition_words_by_part_weights] *)

Definition neg : Q := - (1000000000000000000 # 1).

(** The innermost loop, over [a in range(i - 1, j)], on [(best, best_a)]. *)
Definition dp_cell (dp st en : list Q) (ed : Q) (i j : nat) : Q * Z :=
  fold_left
    (fun (acc : Q * Z) (a : nat) =>
       let '(best, best_a) := acc in
       if Qlt_le_dec (neg / 2) (nth a dp neg) then
         let dur := (nth (j - 1)%nat en 0 - nth a st 0)%Q in
         if Qlt_le_dec 0 dur then
           let dur_pen := (Qabs (dur - ed) / ed)%Q in
           let score := (- (75 # 100) * dur_pen)%Q in
           let val := (nth a dp neg + score)%Q in
           if Qlt_le_dec best val then (val, Z.of_nat a) else (best, best_a)
         else (best, best_a)
       else (best, best_a))
    (seq (i - 1)%nat (j - (i - 1))%nat) (neg, -1).

(** One turn of the loop over [i]: the new [dp] and the row [bp[i]]. *)
Definition dp_row (dp st en : list Q) (ed : Q) (n i : nat) : list Q * list Z :=
  let cells :=
    map (fun j => if (i <=? j)%nat then dp_cell dp st en ed i j else (neg, -1))
        (seq 0 (S n)) in
  (map (fun c : Q * Z => if 0 <=? snd c then fst c else neg) cells,
   map (fun c : Q * Z => if 0 <=? snd c then snd c else -1) cells).

Fixpoint dp_rows (dp st en exp : list Q) (n i : nat) : list (list Z) :=
  match exp with
  | [] => []
  | e :: exp' =>
      let ed := qmax (25 # 100) e in
      let '(ndp, row) := dp_row dp st en ed n i in
      row :: dp_rows ndp st en exp' n (S i)
  end.

(** The loop [for i in range(k, 0, -1)] filling [bounds] from [bp]. *)
Fixpoint backtrack (bp : list (list Z)) (i : nat) (j : Z) (bounds : list Z) : list Z :=
  match i with
  | O => bounds
  | S i' =>
      let a := nth (Z.to_nat j) (nth i bp []) (-1) in
      if a <? 0 then bounds
      else backtrack bp i' a (set_nth i' a bounds)
  end.

Definition zsum (l : list Z) : Z := fold_left Z.add l 0.

(** The fallback loop [for i in range(k - 1)], on the suffix [ws[i:]]. *)
Fixpoint greedy_parts (n k : Z) (ws : list Z) (i a : Z) : list (Z * Z) :=
  match ws with
  | [] => [(a, n)]
  | [_] => [(a, n)]
  | w :: rest =>
      let target := (inject_Z (n - a) * (inject_Z w / inject_Z (zsum ws)))%Q in
      let take := Z.max 1 (round_half_even target) in
      let b := Z.min (n - (k - i - 1)) (a + take) in
      (a, b) :: greedy_parts n k rest (i + 1) b
  end.

Definition _partition_words_by_part_weights
  (words : list WordItem) (part_weights : list Z) (total_dur : Q) : list (Z * Z) :=
  let n := length words in
  let k := length part_weights in
  match k, n with
  | O, _ => []
  | _, O => []
  | _, _ =>
  if (n <=? k)%nat then map (fun i => (Z.of_nat i, Z.of_nat i + 1)) (seq 0 n)
  else
    let ws := map (Z.max 1) part_weights in
    let sw := if zsum ws =? 0 then 1%Q else inject_Z (zsum ws) in
    let exp := map (fun w => (total_dur * (inject_Z w / sw))%Q) ws in
    let dp := 0%Q :: repeat neg n in
    let st := map w_start words in
    let en := map w_end words in
    let bp := (0 :: repeat (-1) n) :: dp_rows dp st en exp n 1 in
    if nth n (nth k bp []) (-1) <? 0 then
      greedy_parts (Z.of_nat n) (Z.of_nat k) ws 0 0
    else
      let bounds := backtrack bp k (Z.of_nat n)
                      (set_nth k (Z.of_nat n) (repeat 0 (S k))) in
      map (fun i => (nth i bounds 0, nth (S i) bounds 0)) (seq 0 k)
  end.

(** *** [build_units_from_meta] *)

Record unit_rec := mk_unit {
  u_text : pystr;
  u_start : Q;
  u_end : Q
}.

(** [while wi < n_words and words[wi].end <= s.start + 1e-4: wi += 1],
    on the suffix [words[wi:]]. *)
Fixpoint skip_ended (rest : list WordItem) (s_start : Q) : list WordItem :=
  match rest with
  | w :: rest' =>
      if Qlt_le_dec (s_start + (1 # 10000)) (w_end w) then rest
      else skip_ended rest' s_start
  | [] => []
  end.

(** The second [while]: the words collected into [local], and [words[wj:]]. *)
Fixpoint take_local (rest : list WordItem) (s_end : Q)
  : list WordItem * list WordItem :=
  match rest with
  | w :: rest' =>
      if Qlt_le_dec (w_start w) (s_end - (1 # 10000)) then
        let '(local, after) := take_local rest' s_end in (w :: local, after)
      else ([], rest)
  | [] => ([], [])
  end.

(** The units of a sentence without word boundaries: [t] advances by [per]. *)
Fixpoint even_units (parts : list pystr) (t per s_end : Q) : list unit_rec :=
  match parts with
  | [] => []
  | p :: rest =>
      mk_unit p t (qmin s_end (t + per)) :: even_units rest (t + per)%Q per s_end
  end.

Definition set_last_end (units : list unit_rec) (e : Q) : list unit_rec :=
  match units with
  | [] => []
  | _ => removelast units
         ++ [mk_unit (u_text (last units (mk_unit [] 0 0)))
                     (u_start (last units (mk_unit [] 0 0))) e]
  end.

(** The merge loop run when there are more parts than words, on
    [(merged, cur)]. *)
Definition merge_parts (max_sub_chars : Z) (parts : list pystr) : list pystr :=
  let '(merged, cur) :=
    fold_left
      (fun (acc : list pystr * pystr) p =>
         let '(merged, cur) := acc in
         match cur with
         | [] => (merged, p)
         | _ => if _visible_len_zh (cur ++ p) <=? max_sub_chars
                then (merged, cur ++ p)
                else (merged ++ [cur], p)
         end)
      parts ([], []) in
  match cur with
  | [] => merged
  | _ => merged ++ [cur]
  end.

Definition group_unit (local : list WordItem) (p : pystr) (ab : Z * Z) : unit_rec :=
  let a := Z.max 0 (fst ab) in
  let b := Z.max (a + 1) (snd ab) in
  let b := Z.min (Z.of_nat (length local)) b in
  mk_unit p (w_start (nth (Z.to_nat a) local dummy_word))
            (w_end (nth (Z.to_nat (b - 1)) local dummy_word)).

(** One turn of the loop over [sents], on [(units, words[wi:])]. *)
Definition sentence_step (max_sub_chars : Z)
  (acc : list unit_rec * list WordItem) (s : SentenceItem)
  : list unit_rec * list WordItem :=
  let '(units, rest) := acc in
  if Qlt_le_dec (s_start s + (1 # 10000)) (s_end s) then
    let rest := skip_ended rest (s_start s) in
    let '(local, after) := take_local rest (s_end s) in
    let parts := split_one_line (s_text s) max_sub_chars in
    let parts := map strip (filter nonblank parts) in
    match parts with
    | [] => (units, rest)
    | _ =>
      match local with
      | [] =>
          let per := qmax (5 # 100)
                       ((s_end s - s_start s) / inject_Z (Z.of_nat (length parts)))%Q in
          let units := units ++ even_units parts (s_start s) per (s_end s) in
          (set_last_end units (s_end s), rest)
      | _ =>
          let parts :=
            if (length local <? length parts)%nat then
              let merged := merge_parts max_sub_chars parts in
              if (length merged <=? length local)%nat then merged
              else firstn (length local) parts
            else parts in
          let part_weights := map (fun p => Z.max 1 (_visible_len_zh p)) parts in
          let groups := _partition_words_by_part_weights local part_weights
                          (s_end s - s_start s)%Q in
          (units ++ map (fun pg => group_unit local (fst pg) (snd pg))
                        (combine parts groups),
           after)
      end
    end
  else (units, rest).

Definition raw_units (words : list WordItem) (sents : list SentenceItem)
  (max_sub_chars : Z) : list unit_rec :=
  fst (fold_left (sentence_step max_sub_chars) sents ([], words)).

Definition build_units_from_meta
  (words : list WordItem) (sents : list SentenceItem) (max_sub_chars : Z)
  : list unit_rec :=
  let max_sub_chars := Z.max 1 max_sub_chars in
  let sents :=
    match sents, words with
    | [], [] => []
    | [], w0 :: _ =>
        [mk_sentence (concat (map w_text words)) (w_start w0)
                     (w_end (last words dummy_word))]
    | _, _ => sents
    end in
  let units := raw_units words sents max_sub_chars in
  map (fun ut : unit_rec * (Q * Q) => mk_unit (u_text (fst ut)) (fst (snd ut)) (snd (snd ut)))
      (combine units
         (fix_monotonic 0 (map (fun u => (u_start u, u_end u)) units))).

End EdgeTTSMeta.

(** ** [app/jobs/index_job.py] *)

Module IndexJob.
Import PyNum.

(** The merge loop of [_normalize_slices], on [(cur_s, cur_e)]. *)
Fixpoint merge_short (min_sec cur_s cur_e : Q) (rest : list (Q * Q)) : list (Q * Q) :=
  match rest with
  | [] => [(cur_s, cur_e)]
  | (s, e) :: rest' =>
      if Qlt_le_dec (cur_e - cur_s) min_sec then merge_short min_sec cur_s e rest'
      else (cur_s, cur_e) :: merge_short min_sec s e rest'
  end.

(** "If the last slice is still too short, merge it back." *)
Definition merge_back (min_sec : Q) (merged : list (Q * Q)) : list (Q * Q) :=
  match rev merged with
  | (b0, b1) :: (a0, a1) :: front =>
      if Qlt_le_dec (b1 - b0) min_sec then rev front ++ [(a0, b1)] else merged
  | _ => merged
  end.

(** The [while] loop of [_split_one].  Every turn moves [s] forward by at
    least half a second, so the number of turns is bounded by the length
    of the slice; [None] stands for a loop that has not finished within
    [fuel] turns. *)
Fixpoint split_one_loop (fuel : nat) (min_sec target_sec max_sec s e : Q)
  : option (list (Q * Q)) :=
  match fuel with
  | O => None
  | S fuel' =>
      if Qlt_le_dec (max_sec + (1 # 1000000)) (e - s) then
        let nxt := (s + target_sec)%Q in
        let nxt := if Qlt_le_dec (e - nxt) min_sec then (e - min_sec)%Q else nxt in
        let nxt := qmax (s + (1 # 2))%Q (qmin nxt (e - (1 # 2))%Q) in
        match split_one_loop fuel' min_sec target_sec max_sec nxt e with
        | Some out => Some ((s, nxt) :: out)
        | None => None
        end
      else Some [(s, e)]
  end.

Definition split_fuel (s e : Q) : nat := S (Z.to_nat (Qceiling (2 * (e - s)))).

Definition _split_one (min_sec target_sec max_sec s e : Q) : option (list (Q * Q)) :=
  split_one_loop (split_fuel s e) min_sec target_sec max_sec s e.

Fixpoint split_all (min_sec target_sec max_sec : Q) (merged : list (Q * Q))
  : option (list (Q * Q)) :=
  match merged with
  | [] => Some []
  | (s, e) :: rest =>
      match _split_one min_sec target_sec max_sec s e,
            split_all min_sec target_sec max_sec rest with
      | Some a, Some b => Some (a ++ b)
      | _, _ => None
      end
  end.

(** One turn of the final clean-up loop, on [cleaned]. *)
Definition cleanup_step (min_sec target_sec max_sec : Q)
  (acc : option (list (Q * Q))) (se : Q * Q) : option (list (Q * Q)) :=
  match acc with
  | None => None
  | Some cleaned =>
      let '(s, e) := se in
      match rev cleaned with
      | (ps, pe) :: front =>
          if Qlt_le_dec (e - s) min_sec then
            if Qlt_le_dec (max_sec + (1 # 1000000)) (e - ps) then
              match _split_one min_sec target_sec max_sec ps e with
              | Some pieces => Some (rev front ++ pieces)
              | None => None
              end
            else Some (rev front ++ [(ps, e)])
          else Some (cleaned ++ [(s, e)])
      | [] => Some (cleaned ++ [(s, e)])
      end
  end.

Definition keep_slice (se : Q * Q) : bool :=
  if Qlt_le_dec (snd se - fst se) (1 # 2) then false else true.

(** The list [cleaned] at the end of [_normalize_slices], before the
    closing filter and rounding. *)
Definition normalize_cleaned (slices : list (Q * Q)) (min_sec target_sec max_sec : Q)
  : option (list (Q * Q)) :=
  let min_sec := qmax (1 # 2) min_sec in
  let max_sec := qmax min_sec max_sec in
  let target_sec := qmax min_sec (qmin target_sec max_sec) in
  match slices with
  | [] => Some []
  | (s0, e0) :: rest =>
      let merged := merge_back min_sec (merge_short min_sec s0 e0 rest) in
      match split_all min_sec target_sec max_sec merged with
      | None => None
      | Some split =>
          fold_left (cleanup_step min_sec target_sec max_sec) split (Some [])
      end
  end.

Definition _normalize_slices (slices : list (Q * Q)) (min_sec target_sec max_sec : Q)
  : option (list (Q * Q)) :=
  match normalize_cleaned slices min_sec target_sec max_sec with
  | None => None
  | Some cleaned =>
      Some (map (fun se : Q * Q => (round3 (fst se), round3 (snd se)))
                (filter keep_slice cleaned))
  end.

(** *** [_fixed_slices] *)

(** The [while] loop of [_fixed_slices], on [(t, out)]; [None] stands for
    a loop that has not finished within [fuel] turns. *)
Fixpoint fixed_loop (fuel : nat) (duration clip_sec t : Q) (out : list (Q * Q))
  : option (list (Q * Q)) :=
  match fuel with
  | O => if Qlt_le_dec t duration then None else Some out
  | S fuel' =>
      if Qlt_le_dec t duration then
        let e := qmin duration (t + clip_sec)%Q in
        let out := if Qlt_le_dec (e - t) (1 # 2) then out else out ++ [(t, e)] in
        fixed_loop fuel' duration clip_sec e out
      else Some out
  end.

(** With a positive [clip_sec] every turn but the last moves [t] forward
    by [clip_sec]. *)
Definition fixed_fuel (duration clip_sec : Q) : nat :=
  S (Z.to_nat (Qceiling (duration / clip_sec))).

Definition _fixed_slices (duration clip_sec : Q) : option (list (Q * Q)) :=
  fixed_loop (fixed_fuel duration clip_sec) duration clip_sec 0 [].

(** *** [_scene_raw_slices], from the cut times on *)

(** [sorted(set(...))] on floats: ascending, one copy of each value. *)
Fixpoint insert_uniq (x : Q) (l : list Q) : list Q :=
  match l with
  | [] => [x]
  | y :: l' =>
      if Qlt_le_dec x y then x :: l
      else if Qeq_bool x y then l
      else y :: insert_uniq x l'
  end.

Definition sorted_set (l : list Q) : list Q := fold_right insert_uniq [] l.

(** [zip(pts, pts[1:])] *)
Definition adjacent (pts : list Q) : list (Q * Q) := combine pts (tl pts).

(** The body of [_scene_raw_slices] after the call of
    [_scene_cut_times], which returns [cuts]. *)
Definition scene_slices_of_cuts (cuts : list Q) (duration : Q) : list (Q * Q) :=
  let inner :=
    filter (fun x => if Qlt_le_dec (5 # 100) x
                     then if Qlt_le_dec x (duration - (5 # 100)) then true else false
                     else false) cuts in
  let pts := sorted_set (map round3 (0%Q :: inner ++ [duration])) in
  filter (fun ab : Q * Q => if Qlt_le_dec (snd ab - fst ab) (1 # 2) then false else true)
         (adjacent pts).

(** *** [_window_clips_from_shots] *)

Record window_clip := mk_window {
  wc_start : Q;
  wc_end : Q;
  wc_shot_id : nat;
  wc_shot_start : Q;
  wc_shot_end : Q
}.

(** The [while] loop that cuts a long shot into windows, on [t]; the
    windows are returned in the order they are appended. *)
Fixpoint window_loop (fuel : nat) (min_sec target_sec : Q) (shot_id : nat) (ss se t : Q)
  : option (list window_clip) :=
  if Qlt_le_dec (se + (1 # 1000000)) (t + min_sec) then Some []
  else
    match fuel with
    | O => None
    | S fuel' =>
        let e := qmin se (t + target_sec)%Q in
        let e := if Qlt_le_dec (se - e) min_sec then se else e in
        let w := mk_window t e shot_id ss se in
        if Qlt_le_dec (se - e) (1 # 1000) then Some [w]
        else
          match window_loop fuel' min_sec target_sec shot_id ss se e with
          | Some ws => Some (w :: ws)
          | None => None
          end
    end.

Definition window_fuel (ss se : Q) : nat := S (Z.to_nat (Qceiling (2 * (se - ss)))).

(** The body of the loop over [shots], on [(out, shot_id)]. *)
Definition window_step (min_sec target_sec max_sec : Q)
  (acc : option (list window_clip * nat)) (shot : Q * Q)
  : option (list window_clip * nat) :=
  match acc with
  | None => None
  | Some (out, shot_id) =>
      let '(ss, se) := shot in
      if Qlt_le_dec (ss + (2 # 10)) se then
        if Qlt_le_dec (max_sec + (1 # 1000000)) (se - ss) then
          match window_loop (window_fuel ss se) min_sec target_sec shot_id ss se ss with
          | Some ws => Some (out ++ ws, S shot_id)
          | None => None
          end
        else Some (out ++ [mk_window ss se shot_id ss se], S shot_id)
      else Some (out, shot_id)
  end.

Definition _window_clips_from_shots (shots : list (Q * Q)) (min_sec target_sec max_sec : Q)
  : option (list window_clip) :=
  let min_sec := qmax (1 # 2) min_sec in
  let max_sec := qmax min_sec max_sec in
  let target_sec := qmax min_sec (qmin target_sec max_sec) in
  match fold_left (window_step min_sec target_sec max_sec) shots (Some ([], O)) with
  | Some (out, _) => Some out
  | None => None
  end.

(** *** [_clamp_slices] *)

Definition _clamp_slices (slices : list (Q * Q)) (start end_ min_keep_sec : Q)
  : list (Q * Q) :=
  let start := qmax 0 start in
  let end_ := qmax start end_ in
  flat_map
    (fun se : Q * Q =>
       let s2 := qmax (fst se) start in
       let e2 := qmin (snd se) end_ in
       if Qlt_le_dec (e2 - s2) min_keep_sec then []
       else [(round3 s2, round3 e2)])
    slices.

(** *** [_pick_frame_times] *)

Definition _pick_frame_times (start end_ : Q) (n : Z) : list Q :=
  if n <=? 1 then [(start + end_) / 2]%Q
  else
    let span := qmax (1 # 1000000) (end_ - start) in
    map (fun k : nat => (start + span * (inject_Z (Z.of_nat k) / inject_Z (n + 1)))%Q)
        (seq 1 (Z.to_nat n)).

End IndexJob.

(** ** [app/jobs/render_job.py] *)

Module RenderJob.
Import PyStr PyNum.

(** *** [_split_script] *)

Definition split_chars : list Z :=
  [65292; 12290; 65311; 65281; 44; 46; 63; 33; 65307; 59; 8212; 8211; 65293; 45].
Definition dash_chars : list Z := [8212; 8211; 65293; 45].

Definition quote_open : Z := 8220.   (* the Chinese opening double quote *)
Definition quote_close : Z := 8221.  (* the Chinese closing double quote *)
Definition quote_ascii : Z := 34.    (* the ASCII double quote *)

(** [flush()]: the stripped buffer joins [out] unless it is empty. *)
Definition flush (out : list pystr) (buf : pystr) : list pystr :=
  match strip buf with
  | [] => out
  | s => out ++ [s]
  end.

Definition quote_update (in_quote : bool) (ch : Z) : bool :=
  if ch =? quote_open then true
  else if ch =? quote_close then false
  else if ch =? quote_ascii then negb in_quote
  else in_quote.

(** The main loop, on the rest of [raw] and [(out, buf, in_quote)];
    the closing [flush()] is its last step. *)
Fixpoint split_loop (raw : pystr) (out : list pystr) (buf : pystr) (in_quote : bool)
  : list pystr :=
  match raw with
  | [] => flush out buf
  | ch :: rest =>
      if ch =? 13 then split_loop rest out buf in_quote
      else if ch =? 10 then split_loop rest (flush out buf) [] in_quote
      else
        let in_quote := quote_update in_quote ch in
        let buf := buf ++ [ch] in
        if in_quote then split_loop rest out buf in_quote
        else if mem ch split_chars then
          if mem ch dash_chars
             && match rest with nxt :: _ => mem nxt dash_chars | [] => false end
          then split_loop rest out buf in_quote
          else split_loop rest (flush out buf) [] in_quote
        else split_loop rest out buf in_quote
  end.

(** [re.sub(r"[，,。\.？?!！；;—–－\-]+$", "", t)]: the final run of
    split punctuation is dropped. *)
Fixpoint drop_while (f : Z -> bool) (s : pystr) : pystr :=
  match s with
  | c :: s' => if f c then drop_while f s' else s
  | [] => []
  end.

Definition drop_trailing_punct (t : pystr) : pystr :=
  rev (drop_while (fun c => mem c split_chars) (rev t)).

Definition count_char (c : Z) (s : pystr) : nat :=
  length (filter (Z.eqb c) s).

Definition ends_with_char (c : Z) (s : pystr) : bool :=
  match rev s with
  | x :: _ => x =? c
  | [] => false
  end.

Definition starts_with_char (c : Z) (s : pystr) : bool :=
  match s with
  | x :: _ => x =? c
  | [] => false
  end.

Definition _is_quoted_only (s : pystr) : bool :=
  match strip s with
  | [] => false
  | t =>
      match strip (drop_trailing_punct t) with
      | [] => false
      | t2 =>
          if starts_with_char quote_open t2 && mem quote_close t2
          then ends_with_char quote_close t2
          else starts_with_char quote_ascii t2
               && (2 <=? count_char quote_ascii t2)%nat
               && ends_with_char quote_ascii t2
      end
  end.

(** One turn of the post-processing loop, on [merged]. *)
Definition merge_step (merged : list pystr) (s : pystr) : list pystr :=
  match merged with
  | [] => [s]
  | _ =>
      if _is_quoted_only s
      then removelast merged ++ [rstrip (last merged []) ++ s]
      else merged ++ [s]
  end.

Definition merge_quoted (out : list pystr) : list pystr :=
  fold_left merge_step out [].

Definition _split_script (text : pystr) : list pystr :=
  match strip text with
  | [] => []
  | _ => merge_quoted (split_loop text [] [] false)
  end.

(** *** [_snap_line_times_to_fps] *)

Definition clamp_fps (fps : Z) : Z :=
  let fps := if fps >? 0 then fps else 25 in
  Z.max 10 (Z.min 60 fps).

Definition total_frames_of (fps : Z) (total_dur : Q) : Z :=
  Z.max 1 (py_int (total_dur * inject_Z fps + (999999 # 1000000))%Q).

(** "Reserve at least 1 frame per remaining unit": the loop over
    [range(n)], [min_f] carried along. *)
Fixpoint reserve_forward (total_frames min_f : Z) (l : list Z) : list Z :=
  match l with
  | [] => []
  | f :: rest =>
      let max_f := total_frames - Z.of_nat (length rest) in
      let f' := Z.max min_f (Z.min f max_f) in
      f' :: reserve_forward total_frames (f' + 1) rest
  end.

(** The loop over [range(n - 2, -1, -1)]. *)
Fixpoint cap_backward (l : list Z) : list Z :=
  match l with
  | [] => []
  | f :: rest =>
      match cap_backward rest with
      | [] => [f]
      | g :: rest' => Z.min f (g - 1) :: g :: rest'
      end
  end.

(** The list [end_frames] once all passes have run; [fps] and [total_dur]
    are the already clamped values. *)
Definition end_frames_of (line_times : list (Q * Q)) (fps : Z) (total_dur : Q)
  : list Z :=
  let total_frames := total_frames_of fps total_dur in
  let n := length line_times in
  let ends := map (fun se : Q * Q => qmax 0 (qmin total_dur (snd se))) line_times in
  let ends := set_nth (n - 1)%nat total_dur ends in
  let end_frames := map (fun t => round_half_even (t * inject_Z fps)) ends in
  let end_frames := reserve_forward total_frames 1 end_frames in
  let end_frames := set_nth (n - 1)%nat total_frames end_frames in
  let end_frames := cap_backward end_frames in
  set_nth 0 (Z.max 1 (Z.min (nth 0 end_frames 0)
                            (total_frames - (Z.of_nat n - 1)))) end_frames.

Definition _snap_line_times_to_fps (line_times : list (Q * Q)) (fps : Z) (total_dur : Q)
  : list (Q * Q) * list Z :=
  match line_times with
  | [] => ([], [])
  | _ =>
      let fps := clamp_fps fps in
      let total_dur := qmax 0 total_dur in
      let end_frames := end_frames_of line_times fps total_dur in
      let start_frames := 0 :: removelast end_frames in
      let frames := combine start_frames end_frames in
      (map (fun se : Z * Z => (inject_Z (fst se) / inject_Z fps,
                               inject_Z (snd se) / inject_Z fps)%Q) frames,
       map (fun se : Z * Z => Z.max 1 (snd se - fst se)) frames)
  end.

(** *** [_build_shot_index] *)

(** A clip record of the index ([clips.json]).  The four time fields are
    optional keys of the dictionary; [c.get("source_path") or ""] and
    [int(c.get("shot_id", -1))] are read into [c_source_path] and
    [c_shot_id]. *)
Record Clip := mk_clip {
  c_source_path : pystr;
  c_shot_id : Z;
  c_shot_start : option Q;
  c_shot_end : option Q;
  c_start : option Q;
  c_end : option Q;
  c_text : pystr;
  c_flags : list pystr;
  c_clip_id : pystr
}.

Record shot_meta := mk_shot {
  m_source : pystr;
  m_shot_id : Z;
  m_start : Q;
  m_end : Q;
  m_clip_idxs : list nat
}.

Definition shot_ident := (pystr * Z)%type.

Definition ident_eqb (a b : shot_ident) : bool :=
  str_eqb (fst a) (fst b) && (snd a =? snd b).

(** Dictionaries keep their keys in insertion order; assigning to a key
    already present keeps its place. *)
Fixpoint dict_get {V} (d : list (shot_ident * V)) (k : shot_ident) : option V :=
  match d with
  | [] => None
  | (k', v) :: d' => if ident_eqb k' k then Some v else dict_get d' k
  end.

Fixpoint dict_set {V} (d : list (shot_ident * V)) (k : shot_ident) (v : V)
  : list (shot_ident * V) :=
  match d with
  | [] => [(k, v)]
  | (k', v') :: d' =>
      if ident_eqb k' k then (k', v) :: d' else (k', v') :: dict_set d' k v
  end.

Definition get_or (o : option Q) (d : Q) : Q :=
  match o with Some v => v | None => d end.

Definition shot_index_step (acc : list (shot_ident * shot_meta) * nat) (c : Clip)
  : list (shot_ident * shot_meta) * nat :=
  let '(shot_map, idx) := acc in
  let src := c_source_path c in
  let sid := c_shot_id c in
  if (sid <? 0) || match src with [] => true | _ => false end
  then (shot_map, S idx)
  else
    let ss := get_or (c_shot_start c) (get_or (c_start c) 0) in
    let se := get_or (c_shot_end c) (get_or (c_end c) 0) in
    let '(ss, se) :=
      if Qlt_le_dec (ss + (1 # 1000000)) se then (ss, se)
      else (get_or (c_start c) 0, get_or (c_end c) 0) in
    let key := (src, sid) in
    match dict_get shot_map key with
    | None => (dict_set shot_map key (mk_shot src sid ss se [idx]), S idx)
    | Some m =>
        (dict_set shot_map key
           (mk_shot (m_source m) (m_shot_id m)
                    (qmin (m_start m) ss) (qmax (m_end m) se)
                    (m_clip_idxs m ++ [idx])),
         S idx)
    end.

(** The first component of the result, [shot_map]; the second one,
    [shot_ids_by_source], is not read by the scheduler. *)
Definition _build_shot_index (clips : list Clip) : list (shot_ident * shot_meta) :=
  fst (fold_left shot_index_step clips ([], O)).

(** *** [_pick_visual_segments_edgetts] *)

Inductive sched_error :=
| UnitTimesMismatch      (* "unit_times length mismatch." *)
| MissingShotIds         (* "Index clips missing shot_id/shot_start/shot_end ..." *)
| NoUsableShots          (* "No usable shots available in index." *)
| UnpackError            (* ValueError: too many values to unpack (expected 2) *)
| EmptyCandidates        (* IndexError on [cand[0]] *)
| MissingShot.           (* KeyError on [shot_map[(src, sid)]] *)

Record Segment := mk_segment {
  seg_unit_i : nat;
  seg_text : pystr;
  seg_source : pystr;
  seg_in : Q;
  seg_out : Q;
  seg_shot_id : Z;
  seg_shot_start : Q;
  seg_shot_end : Q;
  seg_hit : Z;
  seg_score : Q;
  seg_anchor_clip_id : pystr;
  seg_start : Q;
  seg_end : Q
}.

Fixpoint uint_codes (d : Decimal.uint) : pystr :=
  match d with
  | Decimal.Nil => []
  | Decimal.D0 d => 48 :: uint_codes d
  | Decimal.D1 d => 49 :: uint_codes d
  | Decimal.D2 d => 50 :: uint_codes d
  | Decimal.D3 d => 51 :: uint_codes d
  | Decimal.D4 d => 52 :: uint_codes d
  | Decimal.D5 d => 53 :: uint_codes d
  | Decimal.D6 d => 54 :: uint_codes d
  | Decimal.D7 d => 55 :: uint_codes d
  | Decimal.D8 d => 56 :: uint_codes d
  | Decimal.D9 d => 57 :: uint_codes d
  end.

(** [str(int(z))] *)
Definition int_str (z : Z) : pystr :=
  match Z.to_int z with
  | Decimal.Pos d => uint_codes d
  | Decimal.Neg d => 45 :: uint_codes d
  end.

(** [f"{src}#shot{int(sid)}"] *)
Definition _shot_key (src : pystr) (sid : Z) : pystr :=
  src ++ [35; 115; 104; 111; 116] ++ int_str sid.

(** The dictionary [used], from shot key to last output time. *)
Fixpoint used_get (used : list (pystr * Q)) (k : pystr) : option Q :=
  match used with
  | [] => None
  | (k', v) :: used' => if str_eqb k' k then Some v else used_get used' k
  end.

Fixpoint used_set (used : list (pystr * Q)) (k : pystr) (v : Q) : list (pystr * Q) :=
  match used with
  | [] => [(k, v)]
  | (k', v') :: used' =>
      if str_eqb k' k then (k', v) :: used' else (k', v') :: used_set used' k v
  end.

Definition _overlap_bonus (hints : list pystr) (clip_text : pystr) : Z :=
  match hints, clip_text with
  | [], _ => 0
  | _, [] => 0
  | _, _ =>
      fold_left
        (fun n h => match h with
                    | [] => n
                    | _ => if contains h clip_text then n + 1 else n
                    end)
        hints 0
  end.

(** [str.lower()] on the letters A to Z; no other character of a flag can
    be mapped onto a letter of the word the result is compared with. *)
Definition lower (s : pystr) : pystr :=
  map (fun c => if (65 <=? c) && (c <=? 90) then c + 32 else c) s.

Definition subtitle_heavy : pystr :=
  [115; 117; 98; 116; 105; 116; 108; 101; 95; 104; 101; 97; 118; 121].

Definition _clip_adj_score (keyword_boost subtitle_heavy_penalty : Q)
  (score : Q) (c : Clip) (hints : list pystr) : Q :=
  let adj := (score + keyword_boost * inject_Z (_overlap_bonus hints (c_text c)))%Q in
  if Qlt_le_dec (1 # 1000000000) subtitle_heavy_penalty then
    if existsb (fun x => str_eqb (lower (strip x)) subtitle_heavy) (c_flags c)
    then (adj - subtitle_heavy_penalty)%Q
    else adj
  else adj.

(** One turn of the loop building [shot_best], on [(shot_best, ci)]. *)
Definition shot_best_step (keyword_boost subtitle_heavy_penalty : Q)
  (hints : list pystr) (scores : nat -> Q)
  (acc : list (shot_ident * (Q * nat * Z)) * nat) (c : Clip)
  : list (shot_ident * (Q * nat * Z)) * nat :=
  let '(shot_best, ci) := acc in
  let src := c_source_path c in
  let sid := c_shot_id c in
  if match src with [] => true | _ => false end || (sid <? 0)
  then (shot_best, S ci)
  else
    let key := (src, sid) in
    let hit := match hints with [] => 0 | _ => _overlap_bonus hints (c_text c) end in
    let adj := _clip_adj_score keyword_boost subtitle_heavy_penalty (scores ci) c hints in
    match dict_get shot_best key with
    | None => (dict_set shot_best key (adj, ci, hit), S ci)
    | Some prev =>
        if Qlt_le_dec (fst (fst prev)) adj
        then (dict_set shot_best key (adj, ci, hit), S ci)
        else (shot_best, S ci)
    end.

(** A candidate [(hit, score, shot_len, src, sid, ci)]. *)
Record Cand := mk_cand {
  k_hit : Z;
  k_score : Q;
  k_shot_len : Q;
  k_src : pystr;
  k_sid : Z;
  k_ci : nat
}.

Record sched_state := mk_state {
  st_used : list (pystr * Q);
  st_out_t : Q;
  st_prev_src : option pystr;
  st_prev_out_src_t : option Q
}.

(** The two candidate loops: [dedup = true] is the first one, which also
    leaves out the shots used within the window; [dedup = false] is
    fallback A. *)
Definition candidates (dedup : bool) (shot_map : list (shot_ident * shot_meta))
  (shot_best : list (shot_ident * (Q * nat * Z)))
  (used : list (pystr * Q)) (out_t : Q) (dedup_window_sec : Z) (target : Q)
  : list Cand :=
  flat_map
    (fun kv : shot_ident * (Q * nat * Z) =>
       let '((src, sid), (sc, ci, hit)) := kv in
       match dict_get shot_map (src, sid) with
       | None => []
       | Some m =>
           let shot_len := qmax 0 (m_end m - m_start m)%Q in
           if Qlt_le_dec (shot_len + (1 # 1000000)) target then []
           else if dedup then
             match used_get used (_shot_key src sid) with
             | Some last_t =>
                 if Qlt_le_dec (out_t - last_t) (inject_Z dedup_window_sec)
                 then []
                 else [mk_cand hit sc shot_len src sid ci]
             | None => [mk_cand hit sc shot_len src sid ci]
             end
           else [mk_cand hit sc shot_len src sid ci]
       end)
    shot_best.

(** Tuple comparison [(hit, score, shot_len)] of [x] above that of [y]. *)
Definition key_gt (x y : Cand) : bool :=
  if k_hit x =? k_hit y then
    if Qeq_bool (k_score x) (k_score y) then
      if Qlt_le_dec (k_shot_len y) (k_shot_len x) then true else false
    else if Qlt_le_dec (k_score y) (k_score x) then true else false
  else k_hit y <? k_hit x.

(** [cand.sort(key=..., reverse=True)]: descending, and stable. *)
Fixpoint insert_desc (x : Cand) (l : list Cand) : list Cand :=
  match l with
  | [] => [x]
  | y :: l' => if key_gt y x then y :: insert_desc x l' else x :: y :: l'
  end.

Fixpoint sort_desc (l : list Cand) : list Cand :=
  match l with
  | [] => []
  | x :: l' => insert_desc x (sort_desc l')
  end.

Definition is_nonempty_some (o : option pystr) : bool :=
  match o with
  | Some (_ :: _) => true
  | _ => false
  end.

Definition make_segment (ui : nat) (text : pystr) (k : Cand) (c : Clip)
  (in_t out_t_src ss se stt ent : Q) : Segment :=
  mk_segment ui text (k_src k) in_t out_t_src (k_sid k) ss se
             (k_hit k) (k_score k) (c_clip_id c) stt ent.

Definition dummy_clip : Clip :=
  mk_clip [] (-1) None None None None [] [] [].

(** The placement loop over [cand[:240]]: the first candidate that can be
    placed gives [chosen]; [None] when the loop ends without [break]. *)
Fixpoint place_first (cands : list Cand) (shot_map : list (shot_ident * shot_meta))
  (clips : list Clip) (st : sched_state) (min_same_source_gap_sec : Q)
  (ui : nat) (text : pystr) (target stt ent : Q) : option Segment :=
  match cands with
  | [] => None
  | k :: rest =>
      let next := place_first rest shot_map clips st min_same_source_gap_sec
                    ui text target stt ent in
      match dict_get shot_map (k_src k, k_sid k) with
      | None => next
      | Some m =>
          let ss := m_start m in
          let se := m_end m in
          if Qlt_le_dec ((se - ss) + (1 # 1000000)) target then next
          else
            let c := nth (k_ci k) clips dummy_clip in
            let mid := ((get_or (c_start c) ss + get_or (c_end c) se) / 2)%Q in
            let in_t := qmax ss (qmin (mid - target / 2) (se - target))%Q in
            let out_t_src := (in_t + target)%Q in
            match st_prev_out_src_t st with
            | Some prev_out =>
                if is_nonempty_some (st_prev_src st)
                   && str_eqb (k_src k) (match st_prev_src st with
                                         | Some p => p | None => [] end)
                then
                  let min_gap := qmax 0 min_same_source_gap_sec in
                  if Qlt_le_dec in_t (prev_out + min_gap) then
                    let shifted := qmax in_t (prev_out + min_gap)%Q in
                    let shifted := qmin shifted (se - target)%Q in
                    if Qlt_le_dec (in_t + (1 # 1000)) shifted then
                      Some (make_segment ui text k c shifted (shifted + target)%Q
                                         ss se stt ent)
                    else next
                  else Some (make_segment ui text k c in_t out_t_src ss se stt ent)
                else Some (make_segment ui text k c in_t out_t_src ss se stt ent)
            | None => Some (make_segment ui text k c in_t out_t_src ss se stt ent)
            end
      end
  end.

(** The candidate loop that supplied [cand]: the first one, or fallback A.
    (The absolute fallback never yields a pick.) *)
Inductive tier := Tier1 | Tier2.

(** What one turn of the unit loop decides: the segment, the target
    duration it was given, the tier that supplied the candidates and the
    output time at which the shot is recorded as used. *)
Record Pick := mk_pick {
  p_segment : Segment;
  p_target : Q;
  p_tier : tier;
  p_out_t : Q
}.

(** "Prefer candidates with lexical hits when available; then similarity;
    then longer shots." *)
Definition rank_candidates (cand : list Cand) : list Cand :=
  let cand :=
    if existsb (fun k => 0 <? k_hit k) cand then
      match filter (fun k => 0 <? k_hit k) cand with
      | [] => cand
      | hits => hits
      end
    else cand in
  sort_desc cand.

(** [chosen]: the result of the placement loop or, when it ends without
    one, the first candidate placed without the same-source shift. *)
Definition choose_segment (cand : list Cand) (shot_map : list (shot_ident * shot_meta))
  (clips : list Clip) (st : sched_state) (min_same_source_gap_sec : Q)
  (ui : nat) (text : pystr) (target stt ent : Q) : sched_error + Segment :=
  match place_first (firstn 240 cand) shot_map clips st
          min_same_source_gap_sec ui text target stt ent with
  | Some chosen => inr chosen
  | None =>
      match cand with
      | [] => inl EmptyCandidates
      | k :: _ =>
          match dict_get shot_map (k_src k, k_sid k) with
          | None => inl MissingShot
          | Some m =>
              let ss := m_start m in
              let se := m_end m in
              let c := nth (k_ci k) clips dummy_clip in
              let mid := ((get_or (c_start c) ss + get_or (c_end c) se) / 2)%Q in
              let in_t := qmax ss (qmin (mid - target / 2) (se - target))%Q in
              inr (make_segment ui text k c in_t (in_t + target)%Q ss se stt ent)
          end
      end
  end.

(** The candidates of a unit and the loop that supplied them; the
    absolute fallback raises before it can supply any. *)
Definition tier_candidates (shot_map : list (shot_ident * shot_meta))
  (shot_best : list (shot_ident * (Q * nat * Z)))
  (used : list (pystr * Q)) (out_t : Q) (dedup_window_sec : Z) (target : Q)
  : sched_error + (list Cand * tier) :=
  let cand1 := candidates true shot_map shot_best used out_t
                 dedup_window_sec target in
  match cand1 with
  | _ :: _ => inr (cand1, Tier1)
  | [] =>
      let cand2 := candidates false shot_map shot_best used out_t
                     dedup_window_sec target in
      match cand2 with
      | _ :: _ => inr (cand2, Tier2)
      | [] =>
          (* Absolute fallback: the loop header unpacks each three-field
             value of [shot_best] into two names. *)
          match shot_best with
          | [] => inl NoUsableShots
          | _ :: _ => inl UnpackError
          end
      end
  end.

(** The body of the unit loop up to [chosen]. *)
Definition pick_unit (clips : list Clip) (shot_map : list (shot_ident * shot_meta))
  (sims : nat -> nat -> Q) (dedup_window_sec : Z)
  (keyword_boost subtitle_heavy_penalty min_same_source_gap_sec : Q)
  (st : sched_state) (ui : nat) (text : pystr) (hints : list pystr)
  (times : Q * Q) : sched_error + Pick :=
  let '(stt, ent) := times in
  let target := qmax (5 # 100) (ent - stt)%Q in
  let shot_best :=
    fst (fold_left
           (shot_best_step keyword_boost subtitle_heavy_penalty hints (sims ui))
           clips ([], O)) in
  match tier_candidates shot_map shot_best (st_used st) (st_out_t st)
          dedup_window_sec target with
  | inl err => inl err
  | inr (cand, t) =>
      match choose_segment (rank_candidates cand) shot_map clips st
              min_same_source_gap_sec ui text target stt ent with
      | inl err => inl err
      | inr chosen => inr (mk_pick chosen target t (st_out_t st))
      end
  end.

(** The bookkeeping that closes a turn of the unit loop. *)
Definition commit (st : sched_state) (p : Pick) : sched_state :=
  let chosen := p_segment p in
  mk_state
    (used_set (st_used st) (_shot_key (seg_source chosen) (seg_shot_id chosen))
              (st_out_t st))
    (st_out_t st + p_target p)%Q
    (Some (seg_source chosen))
    (Some (seg_out chosen)).

(** The unit loop, over [enumerate(unit_texts)]. *)
Fixpoint unit_loop (clips : list Clip) (shot_map : list (shot_ident * shot_meta))
  (sims : nat -> nat -> Q) (dedup_window_sec : Z)
  (keyword_boost subtitle_heavy_penalty min_same_source_gap_sec : Q)
  (unit_hints : list (list pystr)) (unit_times : list (Q * Q))
  (st : sched_state) (ui : nat) (unit_texts : list pystr)
  : sched_error + list Pick :=
  match unit_texts with
  | [] => inr []
  | text :: rest =>
      match pick_unit clips shot_map sims dedup_window_sec keyword_boost
              subtitle_heavy_penalty min_same_source_gap_sec st ui text
              (nth ui unit_hints []) (nth ui unit_times (0, 0)%Q) with
      | inl err => inl err
      | inr p =>
          match unit_loop clips shot_map sims dedup_window_sec keyword_boost
                  subtitle_heavy_penalty min_same_source_gap_sec
                  unit_hints unit_times (commit st p) (S ui) rest with
          | inl err => inl err
          | inr ps => inr (p :: ps)
          end
      end
  end.

(** The scheduling run with its bookkeeping.  The similarity matrix
    [sims] (unit by clip), which the source obtains from the embedding
    provider and [cosine_sim_matrix], is taken as an input. *)
Definition schedule_trace (unit_texts : list pystr) (unit_hints : list (list pystr))
  (unit_times : list (Q * Q)) (clips : list Clip) (sims : nat -> nat -> Q)
  (dedup_window_sec : Z)
  (keyword_boost subtitle_heavy_penalty min_same_source_gap_sec : Q)
  : sched_error + list Pick :=
  match unit_texts with
  | [] => inr []
  | _ =>
      let unit_hints :=
        match unit_hints with
        | [] => map (fun _ => []) unit_texts
        | _ => if (length unit_hints =? length unit_texts)%nat then unit_hints
               else map (fun _ => []) unit_texts
        end in
      match unit_times with
      | [] => inl UnitTimesMismatch
      | _ =>
          if negb (length unit_times =? length unit_texts)%nat
          then inl UnitTimesMismatch
          else
            match _build_shot_index clips with
            | [] => inl MissingShotIds
            | shot_map =>
                unit_loop clips shot_map sims dedup_window_sec keyword_boost
                  subtitle_heavy_penalty min_same_source_gap_sec
                  unit_hints unit_times (mk_state [] 0 None None) O unit_texts
            end
      end
  end.

Definition _pick_visual_segments_edgetts (unit_texts : list pystr)
  (unit_hints : list (list pystr)) (unit_times : list (Q * Q))
  (clips : list Clip) (sims : nat -> nat -> Q) (dedup_window_sec : Z)
  (keyword_boost subtitle_heavy_penalty min_same_source_gap_sec : Q)
  : sched_error + list Segment :=
  match schedule_trace unit_texts unit_hints unit_times clips sims
          dedup_window_sec keyword_boost subtitle_heavy_penalty
          min_same_source_gap_sec with
  | inl err => inl err
  | inr picks => inr (map p_segment picks)
  end.

(** *** The timing and matching steps of [run_render_job] *)

Inductive plan_error :=
| AlignFailed (e : EdgeTTSMeta.align_error)
| LineCountMismatch      (* "EdgeTTS ...: lines=... times=..." *)
| SnapMismatch           (* "Line time snapping failed (size mismatch)." *)
| ScheduleFailed (e : sched_error).

(** From the aligned script lines to the edit decisions: alignment on the
    probed voice duration, snapping to the frame grid, then scheduling
    with the snapped times; the result holds the snapped line times, the
    frames per line and the segments. *)
Definition render_plan (words : list EdgeTTSMeta.WordItem) (script_lines : list pystr)
  (voice_dur : Q) (out_fps : Z) (unit_hints : list (list pystr))
  (clips : list Clip) (sims : nat -> nat -> Q) (dedup_window_sec : Z)
  (keyword_boost subtitle_heavy_penalty : Q)
  : plan_error + (list (Q * Q) * list Z * list Segment) :=
  match EdgeTTSMeta.align_script_parts_to_words words script_lines (Some voice_dur) with
  | inl e => inl (AlignFailed e)
  | inr line_times =>
      if negb (length line_times =? length script_lines)%nat
      then inl LineCountMismatch
      else
        let '(line_times, frames_per_line) :=
          _snap_line_times_to_fps line_times out_fps voice_dur in
        if negb (length line_times =? length script_lines)%nat
           || negb (length frames_per_line =? length script_lines)%nat
        then inl SnapMismatch
        else
          match _pick_visual_segments_edgetts script_lines unit_hints line_times
                  clips sims dedup_window_sec keyword_boost
                  subtitle_heavy_penalty (8 # 10) with
          | inl e => inl (ScheduleFailed e)
          | inr segments => inr (line_times, frames_per_line, segments)
          end
  end.

(** *** [_subtitle_display_text] *)

(** The characters of [_SUB_DISPLAY_DROP_RE] and of [_SUB_END_KEEP_RE]. *)
Definition sub_drop_chars : list Z :=
  [65292; 44; 12290; 46; 12289; 65307; 59; 65306; 58; 8230; 8212; 45;
   12298; 12299; 8220; 8221; 8216; 8217; 34; 39; 65288; 65289; 40; 41;
   12304; 12305; 91; 93; 123; 125].
Definition sub_end_chars : list Z := [65311; 65281; 63; 33].

Fixpoint take_while (f : Z -> bool) (s : pystr) : pystr :=
  match s with
  | c :: s' => if f c then c :: take_while f s' else []
  | [] => []
  end.

(** [_SUB_END_KEEP_RE.search(t)] on a stripped [t]: the match is the run
    of question and exclamation marks that ends [t], [m.start()] the
    place where it begins. *)
Definition end_marks (t : pystr) : pystr :=
  rev (take_while (fun c => mem c sub_end_chars) (rev t)).
Definition before_end_marks (t : pystr) : pystr :=
  rev (drop_while (fun c => mem c sub_end_chars) (rev t)).

Definition _subtitle_display_text (s : pystr) : pystr :=
  match strip s with
  | [] => []
  | t =>
      let end_ := end_marks t in
      let '(t, end_) :=
        match end_ with
        | [] => (t, [])
        | _ => (strip (before_end_marks t), skipn (length end_ - 2) end_)
        end in
      let t := filter (fun c => negb (mem c sub_drop_chars)) t in
      let t := filter (fun c => negb (mem c sub_end_chars)) t in
      let t := strip t in
      match t with
      | [] => end_
      | _ => t ++ end_
      end
  end.

(** *** [_allocate_durations] *)

(** [max(min_d, min(max_d, d))] with [min_d, max_d = 0.8, 30.0]. *)
Definition clamp_dur (d : Q) : Q := qmax (8 # 10) (qmin 30 d).

Definition qsum (l : list Q) : Q := fold_left Qplus l 0%Q.

(** Whether [_redistribute] may change a duration, given the sign of
    [diff]. *)
Definition adjustable (diff d : Q) : bool :=
  if Qlt_le_dec 0 diff then
    if Qlt_le_dec d (30 - (1 # 1000000)) then true else false
  else
    if Qlt_le_dec ((8 # 10) + (1 # 1000000)) d then true else false.

(** One turn of the loop of [_redistribute]; [None] stands for [break]. *)
Definition redistribute_step (target : Q) (durs : list Q) : option (list Q) :=
  let diff := (target - qsum durs)%Q in
  if Qlt_le_dec (Qabs diff) (1 # 1000) then None
  else
    match length (filter (adjustable diff) durs) with
    | O => None
    | k =>
        let share := (diff / inject_Z (Z.of_nat k))%Q in
        Some (map (fun d => if adjustable diff d then clamp_dur (d + share) else d) durs)
    end.

(** [for _ in range(10)] *)
Fixpoint redistribute_loop (n : nat) (target : Q) (durs : list Q) : list Q :=
  match n with
  | O => durs
  | S n' =>
      match redistribute_step target durs with
      | None => durs
      | Some durs' => redistribute_loop n' target durs'
      end
  end.

Definition _redistribute (target : Q) (durs : list Q) : list Q :=
  let durs := redistribute_loop 10 target durs in
  let drift := (target - qsum durs)%Q in
  match durs with
  | [] => durs
  | _ => set_nth (length durs - 1) (clamp_dur (last durs 0%Q + drift)) durs
  end.

(** The weight of a line: its number of characters that are not
    whitespace, at least 1. *)
Definition line_weight (s : pystr) : Z := Z.max 1 (Z.of_nat (length (remove_spaces s))).

Definition _allocate_durations (lines : list pystr) (total_sec : Q) : list Q :=
  match lines with
  | [] => []
  | _ =>
      let total_sec := qmax (1 # 1000) total_sec in
      let weights := map line_weight lines in
      let sw := inject_Z (fold_left Z.add weights 0) in
      let sw := if Qeq_bool sw 0 then 1%Q else sw in
      let durs := map (fun w => (total_sec * (inject_Z w / sw))%Q) weights in
      let durs := map clamp_dur durs in
      _redistribute total_sec durs
  end.

(** *** The render inputs of [run_render_job] *)

(** One entry of [render_items]: the source file, the time at which
    [_render_segment] starts reading it and the number of frames it
    reads. *)
Record RenderItem := mk_render_item {
  ri_source : pystr;
  ri_in : Q;
  ri_clip_len : Q;
  ri_nframes : Z
}.

(** The loop over [enumerate(segments)] that fills [render_items]. *)
Definition render_items (segments : list Segment) (frames_per_line : list Z)
  (out_fps : Z) : list RenderItem :=
  map (fun iseg : nat * Segment =>
         let '(i, item) := iseg in
         let clip_len := qmax (1 # 1000) (seg_out item - seg_in item)%Q in
         let nframes :=
           if (i <? length frames_per_line)%nat then nth i frames_per_line 0
           else round_half_even (clip_len * inject_Z out_fps)%Q in
         mk_render_item (seg_source item) (seg_in item) clip_len (Z.max 1 nframes))
      (combine (seq 0 (length segments)) segments).

(** *** [_compute_line_times], estimated timing *)

(** The loop over [durs], on [t]. *)
Fixpoint line_times_from (t : Q) (durs : list Q) : list (Q * Q) :=
  match durs with
  | [] => []
  | d :: rest => (t, (t + d)%Q) :: line_times_from (t + d)%Q rest
  end.

(** The branch taken unless [subtitle_timing] is ["whisper"], and the one
    every failure of the other branch falls back to. *)
Definition _compute_line_times (script_lines : list pystr) (voice_dur : Q)
  : list (Q * Q) :=
  let durs := _allocate_durations script_lines voice_dur in
  let out := line_times_from 0 durs in
  match out with
  | [] => out
  | _ => set_nth (length out - 1) (fst (last out (0, 0)%Q), voice_dur) out
  end.

End RenderJob.

Import PyStr PyNum EdgeTTSMeta IndexJob RenderJob.

(** ** [run_index_job]: the clip records of a video *)

Module IndexStore.
Import PyStr IndexJob RenderJob.

(** The record [run_index_job] appends to [clips_meta] for the window
    [cinfo] of the video [video_path]; its identifier is built from the
    position of the video and of the window, its text and flags are
    filled in when the captions arrive. *)
Definition index_clip (video_path clip_id text : pystr) (flags : list pystr)
  (cinfo : window_clip) : Clip :=
  mk_clip video_path (Z.of_nat (wc_shot_id cinfo))
          (Some (wc_shot_start cinfo)) (Some (wc_shot_end cinfo))
          (Some (wc_start cinfo)) (Some (wc_end cinfo))
          text flags clip_id.

(** The loop over [enumerate(clips)] of one video; [info si] gives the
    identifier, the text and the flags of the window at position [si]. *)
Definition index_clips (video_path : pystr)
  (info : nat -> pystr * pystr * list pystr) (clips : list window_clip) : list Clip :=
  map (fun sw : nat * window_clip =>
         let '(si, cinfo) := sw in
         let '(clip_id, text, flags) := info si in
         index_clip video_path clip_id text flags cinfo)
      (combine (seq 0 (length clips)) clips).

End IndexStore.

Import IndexStore.

(** * Properties *)

(** ** Vocabulary of the statements *)

Local Open Scope Q_scope.

(** Start and end of the [i]-th interval of a list. *)
Definition start_at (l : list (Q * Q)) (i : nat) : Q := fst (nth i l (0, 0)).
Definition end_at (l : list (Q * Q)) (i : nat) : Q := snd (nth i l (0, 0)).

(** Every interval lasts at least [d]. *)
Definition lasts_at_least (d : Q) (l : list (Q * Q)) : Prop :=
  forall i, (i < length l)%nat -> start_at l i + d <= end_at l i.


(** Every interval starts exactly where the previous one ends. *)
Definition contiguous (l : list (Q * Q)) : Prop :=
  forall i, (S i < length l)%nat -> end_at l i == start_at l (S i).

(** The cleaned text of a script and of a word stream. *)
Definition script_text (parts : list pystr) : pystr :=
  concat (map _clean_spoken parts).
Definition words_text (words : list WordItem) : pystr :=
  concat (map (fun w => _clean_spoken (w_text w)) words).

(** [m] is the first offset at which [a] and [b] differ: they agree before
    it, and at [m] one of them has ended or they hold different
    characters. *)
Definition first_difference (a b : pystr) (m : nat) : Prop :=
  firstn m a = firstn m b
  /\ (m <= length a)%nat /\ (m <= length b)%nat
  /\ (m = length a \/ m = length b \/ nth m a 0%Z <> nth m b 0%Z).


(** The text of the split scenario, its three chunks as the code cuts
    them, and the chunks a cut at each punctuation mark would give. *)
Definition scenario_text : pystr :=
  [19968; 20108; 19977; 65292; 22235; 20116; 20845; 12290; 19971; 20843; 20061]%Z.
Definition scenario_chunks : list pystr :=
  [[19968; 20108; 19977; 65292; 22235]; [20116; 20845; 12290; 19971; 20843];
   [20061]]%Z.
Definition scenario_punct_chunks : list pystr :=
  [[19968; 20108; 19977; 65292]; [22235; 20116; 20845; 12290];
   [19971; 20843; 20061]]%Z.

(** Two words and the total durations used in the alignment examples. *)
Definition nihao : pystr := [20320; 22909]%Z.
Definition shijie : pystr := [19990; 30028]%Z.
Definition two_words : list WordItem :=
  [mk_word nihao 0 (1 # 2); mk_word shijie (1 # 2) (12 # 10)].

(** Frame boundaries: each one at least [lo] and above the one before. *)
Fixpoint increasing_from (lo : Z) (l : list Z) : Prop :=
  match l with
  | [] => True
  | x :: rest => (lo <= x)%Z /\ increasing_from (x + 1) rest
  end.

Definition strictly_increasing (l : list Z) : Prop :=
  forall i, (S i < length l)%nat -> (nth i l 0 < nth (S i) l 0)%Z.

(** Duration of a slice. *)
Definition dur (se : Q * Q) : Q := snd se - fst se.

(** Slices in order: none starts before [lo], each has start <= end and
    none starts before the previous one has ended. *)
Fixpoint ordered_from (lo : Q) (l : list (Q * Q)) : Prop :=
  match l with
  | [] => True
  | (s, e) :: rest => lo <= s /\ s <= e /\ ordered_from e rest
  end.

Definition sorted_slices (l : list (Q * Q)) : Prop :=
  ordered_from (fst (hd (0, 0) l)) l.

(** From the start of the first slice to the end of the last one. *)
Definition span (l : list (Q * Q)) : Q :=
  snd (last l (0, 0)) - fst (hd (0, 0) l).


(** The target duration of the unit a segment was cut for. *)
Definition unit_target (seg : Segment) : Q :=
  qmax (5 # 100) (seg_end seg - seg_start seg).

(** The shot a candidate stands for is in the index and long enough for
    [target], up to the tolerance of one microsecond. *)
Definition fits (shot_map : list (shot_ident * shot_meta)) (target : Q) (k : Cand)
  : Prop :=
  exists m, dict_get shot_map (k_src k, k_sid k) = Some m
            /\ target <= (m_end m - m_start m) + (1 # 1000000).

(** The shot has not been used, or was last used at least [w] seconds of
    output ago. *)
Definition cooled (used : list (pystr * Q)) (out_t : Q) (w : Z) (src : pystr) (sid : Z)
  : Prop :=
  forall t, used_get used (_shot_key src sid) = Some t -> inject_Z w <= out_t - t.

(** Seconds of output emitted from the selection for unit [i] up to the
    selection for unit [j]: the targets of the units [i .. j - 1]. *)
Definition emitted_between (picks : list Pick) (i j : nat) : Q :=
  fold_right (fun p acc => p_target p + acc) 0 (firstn (j - i) (skipn i picks)).

Definition same_shot (a b : Segment) : Prop :=
  seg_source a = seg_source b /\ seg_shot_id a = seg_shot_id b.

Definition dummy_segment : Segment :=
  mk_segment O [] [] 0 0 0 0 0 0 0 [] 0 0.
Definition dummy_pick : Pick := mk_pick dummy_segment 0 Tier1 0.

(** The window of a segment has the length [target] and lies inside the
    shot, up to the tolerance of one microsecond at the end of the shot;
    it ends inside the shot whenever the shot is at least [target] long. *)
Definition well_placed (target : Q) (seg : Segment) : Prop :=
  seg_out seg - seg_in seg == target
  /\ seg_shot_start seg <= seg_in seg
  /\ seg_in seg < seg_out seg
  /\ seg_out seg <= seg_shot_end seg + (1 # 1000000)
  /\ (target <= seg_shot_end seg - seg_shot_start seg ->
      seg_out seg <= seg_shot_end seg).

(** What the placement loop and the fallback after it both produce: a
    well-placed window in the shot of one of the candidates. *)
Definition placed_from (cands : list Cand) (ui : nat) (text : pystr)
  (target stt ent : Q) (seg : Segment) : Prop :=
  exists k, In k cands
            /\ seg_source seg = k_src k /\ seg_shot_id seg = k_sid k
            /\ seg_unit_i seg = ui /\ seg_text seg = text
            /\ seg_start seg = stt /\ seg_end seg = ent
            /\ well_placed target seg.

(** No shot is recorded as used later than the current output time. *)
Definition used_bounded (st : sched_state) : Prop :=
  forall k t, used_get (st_used st) k = Some t -> t <= st_out_t st.

(** Two clips of one source file used in the scheduling examples: shot 0
    over [0, 1] and shot 1 over [1, 5]. *)
Definition clip_a : Clip :=
  mk_clip [97%Z] 0 (Some 0) (Some 1) (Some 0) (Some 1) [] [] [99%Z].
Definition clip_b : Clip :=
  mk_clip [97%Z] 1 (Some 1) (Some 5) (Some 1) (Some 5) [] [] [100%Z].









(** The number of characters of [s] outside [_PUNCT]; for a text without
    whitespace, its visible length. *)
Definition nvis (s : pystr) : Z :=
  Z.of_nat (length (filter (fun c => negb (is_punct c)) s)).

(** No character of [s] is whitespace. *)
Definition spaceless (s : pystr) : Prop := Forall (fun c => is_space c = false) s.

(** What the loop of [split_one_line] keeps true once it has read [done]:
    nothing is lost, the counters describe the buffer, the buffer and
    every chunk cut so far fit in [m] visible characters. *)
Definition split_inv (m : Z) (done : pystr) (st : split_state) : Prop :=
  concat (sp_out st) ++ sp_cur st = done
  /\ sp_cur_n st = nvis (sp_cur st)
  /\ (sp_cur_n st <= m)%Z
  /\ (sp_last_punct_pos st <= Z.of_nat (length (sp_cur st)))%Z
  /\ ((0 < sp_last_punct_pos st)%Z ->
      sp_last_punct_n st = nvis (firstn (Z.to_nat (sp_last_punct_pos st)) (sp_cur st)))
  /\ Forall (fun c => c <> [] /\ (nvis c <= m)%Z) (sp_out st).

(** Slices laid end to end from [lo]: the first starts at [lo] and each
    of the others where the one before it ends. *)
Fixpoint chain_from (lo : Q) (l : list (Q * Q)) : Prop :=
  match l with
  | [] => True
  | (s, e) :: rest => s = lo /\ chain_from e rest
  end.

(** The end of the last slice, [lo] when there is none. *)
Definition end_from (lo : Q) (l : list (Q * Q)) : Q :=
  match rev l with
  | (_, e) :: _ => e
  | [] => lo
  end.

(** Values above [lo], each above the one before. *)
Fixpoint rising (lo : Q) (l : list Q) : Prop :=
  match l with
  | [] => True
  | x :: rest => lo < x /\ rising x rest
  end.

Definition strictly_ascending (l : list Q) : Prop :=
  match l with
  | [] => True
  | x :: rest => rising x rest
  end.

Definition window_times (ws : list window_clip) : list (Q * Q) :=
  map (fun w => (wc_start w, wc_end w)) ws.

(** The windows [ws] cut the shot [(ss, se)] numbered [sid] from end to
    end: there is at least one, each carries the shot's number and
    bounds and lasts for a while, the first starts where the shot
    starts, each of the others where the one before ends, and the last
    ends where the shot ends. *)
Definition tiles_shot (ss se : Q) (sid : nat) (ws : list window_clip) : Prop :=
  ws <> []
  /\ Forall (fun w => wc_shot_id w = sid /\ wc_shot_start w = ss /\ wc_shot_end w = se
                      /\ wc_start w < wc_end w) ws
  /\ chain_from ss (window_times ws)
  /\ end_from ss (window_times ws) = se.

(** The groups of windows cut the shots one by one, numbered from [sid]. *)
Fixpoint tiled_from (sid : nat) (shots : list (Q * Q)) (groups : list (list window_clip))
  : Prop :=
  match shots, groups with
  | [], [] => True
  | (ss, se) :: shots', g :: groups' =>
      tiles_shot ss se sid g /\ tiled_from (S sid) shots' groups'
  | _, _ => False
  end.

(** The shots [_window_clips_from_shots] does not skip: those longer
    than a fifth of a second. *)
Definition kept_shots (shots : list (Q * Q)) : list (Q * Q) :=
  filter (fun s : Q * Q => if Qlt_le_dec (fst s + (2 # 10)) (snd s) then true else false)
         shots.

(** A clip that is a whole shot of at most [M] seconds (up to a
    microsecond), or a window lasting at least [m] (up to a microsecond)
    and less than [t + m]. *)
Definition whole_or_window (m t M : Q) (w : window_clip) : Prop :=
  (wc_start w = wc_shot_start w /\ wc_end w = wc_shot_end w
   /\ wc_end w - wc_start w <= M + (1 # 1000000))
  \/ (m - (1 # 1000000) <= wc_end w - wc_start w
      /\ wc_end w - wc_start w < t + m).

(** A unit of the script as [_split_script] returns it: not empty, no
    whitespace at either end, no line feed and no carriage return. *)
Definition trimmed_unit (u : pystr) : Prop :=
  u <> []
  /\ is_space (hd 0%Z u) = false
  /\ is_space (last u 0%Z) = false
  /\ Forall (fun c => c <> 10%Z /\ c <> 13%Z) u.

(** A clip [_build_shot_index] and the scheduler take into account: it
    has a source path and a shot number that is not negative. *)
Definition usable_clip (c : Clip) : bool :=
  negb ((c_shot_id c <? 0)%Z || match c_source_path c with [] => true | _ => false end).

Definition clip_key (c : Clip) : shot_ident := (c_source_path c, c_shot_id c).

(** The bounds [_build_shot_index] reads off a clip: those of its shot,
    or its own when the shot's are missing or empty. *)
Definition clip_shot_bounds (c : Clip) : Q * Q :=
  let ss := get_or (c_shot_start c) (get_or (c_start c) 0) in
  let se := get_or (c_shot_end c) (get_or (c_end c) 0) in
  if Qlt_le_dec (ss + (1 # 1000000)) se then (ss, se)
  else (get_or (c_start c) 0, get_or (c_end c) 0).

(** The entry [m] stands for the clips of [clips] with the key [key]: it
    carries the key, lists positions of usable clips with that key, at
    least one, and its bounds are bounds of two of them. *)
Definition shot_entry_of (clips : list Clip) (key : shot_ident) (m : shot_meta) : Prop :=
  m_source m = fst key /\ m_shot_id m = snd key
  /\ (forall i, In i (m_clip_idxs m) ->
        exists c, nth_error clips i = Some c /\ usable_clip c = true /\ clip_key c = key)
  /\ (exists i c, In i (m_clip_idxs m) /\ nth_error clips i = Some c
                  /\ m_start m = fst (clip_shot_bounds c))
  /\ (exists i c, In i (m_clip_idxs m) /\ nth_error clips i = Some c
                  /\ m_end m = snd (clip_shot_bounds c)).

(** The entry [m] covers the [i]-th clip [c]. *)
Definition shot_entry_covers (i : nat) (c : Clip) (m : shot_meta) : Prop :=
  In i (m_clip_idxs m)
  /\ m_start m <= fst (clip_shot_bounds c)
  /\ snd (clip_shot_bounds c) <= m_end m.

(** What the loop of [_build_shot_index] keeps true once it has read the
    clips [pre]. *)
Definition shot_index_inv (pre : list Clip) (d : list (shot_ident * shot_meta)) : Prop :=
  (forall i c, nth_error pre i = Some c -> usable_clip c = true ->
     exists m, dict_get d (clip_key c) = Some m /\ shot_entry_covers i c m)
  /\ (forall key m, dict_get d key = Some m -> shot_entry_of pre key m).

(** Some shot of the index is long enough for the unit spoken over
    [times], up to the tolerance of one microsecond. *)
Definition long_enough (shot_map : list (shot_ident * shot_meta)) (times : Q * Q) : Prop :=
  exists key m,
    dict_get shot_map key = Some m
    /\ qmax (5 # 100) (snd times - fst times) <= (m_end m - m_start m) + (1 # 1000000).

(** A subtitle as it is displayed: a body without any of the dropped
    punctuation marks and without question or exclamation marks, not
    starting or ending with whitespace, followed by at most two question
    or exclamation marks. *)
Definition display_shape (body marks : pystr) : Prop :=
  Forall (fun c => mem c sub_drop_chars = false /\ mem c sub_end_chars = false) body
  /\ (body = [] \/ (is_space (hd 0%Z body) = false /\ is_space (last body 0%Z) = false))
  /\ Forall (fun c => mem c sub_end_chars = true) marks
  /\ (length marks <= 2)%nat.


(** A row of the back-pointer table of [_partition_words_by_part_weights]:
    each cell holds -1 or a word boundary before its own. *)
Definition back_row (row : list Z) : Prop :=
  forall j, nth j row (-1)%Z = (-1)%Z
            \/ (0 <= nth j row (-1)%Z < Z.of_nat j)%Z.

(** A subtitle chunk that fits in [m] visible characters: not empty,
    without whitespace, at most [m] characters outside [_PUNCT]. *)
Definition fits_line (m : Z) (c : pystr) : Prop :=
  c <> [] /\ spaceless c /\ (nvis c <= m)%Z.

(** ** Lemmas *)

Section Strings.

Lemma str_eqb_eq a : forall b, str_eqb a b = true <-> a = b.
Proof.
  induction a as [|x a IH]; intros [|y b]; simpl; split; intro H;
    try reflexivity; try discriminate.
  - apply andb_true_iff in H as [H1 H2]. apply Z.eqb_eq in H1.
    apply IH in H2. congruence.
  - injection H as -> ->. rewrite Z.eqb_refl. simpl. now apply IH.
Qed.

Lemma str_eqb_refl a : str_eqb a a = true.
Proof. now apply str_eqb_eq. Qed.

Lemma remove_spaces_lstrip s : remove_spaces (lstrip s) = remove_spaces s.
Proof.
  induction s as [|c s IH]; simpl; [reflexivity|].
  destruct (is_space c) eqn:E; simpl; [exact IH|].
  now rewrite E.
Qed.

Lemma remove_spaces_rev s : remove_spaces (rev s) = rev (remove_spaces s).
Proof.
  unfold remove_spaces. induction s as [|c s IH]; simpl; [reflexivity|].
  rewrite filter_app, IH. simpl.
  destruct (is_space c); simpl; [now rewrite app_nil_r | reflexivity].
Qed.

Lemma remove_spaces_strip s : remove_spaces (strip s) = remove_spaces s.
Proof.
  unfold strip, rstrip.
  rewrite remove_spaces_rev, remove_spaces_lstrip, remove_spaces_rev,
    rev_involutive.
  apply remove_spaces_lstrip.
Qed.

Lemma clean_spoken_strip s : _clean_spoken (strip s) = _clean_spoken s.
Proof. unfold _clean_spoken. now rewrite remove_spaces_strip. Qed.

Lemma blank_clean s : nonblank s = false -> _clean_spoken s = [].
Proof.
  unfold nonblank. intro H. rewrite <- clean_spoken_strip.
  destruct (strip s); [reflexivity | discriminate].
Qed.

Lemma clean_nonblank s : _clean_spoken s <> [] -> nonblank s = true.
Proof.
  intro H. destruct (nonblank s) eqn:E; [reflexivity|].
  elim H. now apply blank_clean.
Qed.

End Strings.

Section SetNth.
Context {A : Type}.

Lemma length_set_nth (i : nat) (x : A) l : length (set_nth i x l) = length l.
Proof.
  revert i. induction l as [|y l IH]; intros [|i]; simpl; auto.
Qed.

Lemma nth_set_nth_eq (i : nat) (x d : A) l :
  (i < length l)%nat -> nth i (set_nth i x l) d = x.
Proof.
  revert i. induction l as [|y l IH]; intros [|i] H; simpl in *; try lia; auto.
  apply IH. lia.
Qed.

Lemma nth_set_nth_neq (i j : nat) (x d : A) l :
  i <> j -> nth j (set_nth i x l) d = nth j l d.
Proof.
  revert i j. induction l as [|y l IH]; intros [|i] [|j] H; simpl; auto;
    try congruence.
Qed.

End SetNth.

Section FixMonotonic.

Lemma qmax_l a b : a <= qmax a b.
Proof. unfold qmax; destruct (Qlt_le_dec a b); lra. Qed.

Lemma qmax_r a b : b <= qmax a b.
Proof. unfold qmax; destruct (Qlt_le_dec a b); lra. Qed.

Lemma qmax_absorb a b : b <= a -> qmax a b = a.
Proof. unfold qmax; intro H; destruct (Qlt_le_dec a b); [lra | reflexivity]. Qed.

Lemma qmin_l a b : qmin a b <= a.
Proof. unfold qmin; destruct (Qlt_le_dec b a); lra. Qed.

Lemma qmin_r a b : qmin a b <= b.
Proof. unfold qmin; destruct (Qlt_le_dec b a); lra. Qed.

Lemma length_fix_monotonic l : forall prev,
  length (fix_monotonic prev l) = length l.
Proof.
  induction l as [|[st en] l IH]; intro prev; simpl; [reflexivity|].
  now rewrite IH.
Qed.

Lemma fix_monotonic_lasts l : forall prev,
  lasts_at_least (2 # 100) (fix_monotonic prev l).
Proof.
  induction l as [|[st en] l IH]; intros prev i Hi; simpl in *; [lia|].
  destruct i as [|i].
  - unfold start_at, end_at; simpl. apply qmax_l.
  - apply (IH _ i). lia.
Qed.



Lemma contiguous_tail p l : contiguous (p :: l) -> contiguous l.
Proof. intros H i Hi. apply (H (S i)). simpl. lia. Qed.

Lemma fix_monotonic_contiguous l : forall prev,
  contiguous l -> contiguous (fix_monotonic prev l).
Proof.
  induction l as [|[st en] l IH]; intros prev Hc i Hi; simpl in *; [lia|].
  destruct i as [|i].
  - destruct l as [|[st2 en2] l]; simpl in *; [lia|].
    unfold end_at, start_at; simpl.
    assert (E : en == st2) by (apply (Hc 0%nat); simpl; lia).
    set (e' := qmax (qmax prev st + (2 # 100)) en).
    rewrite (qmax_absorb e' st2); [reflexivity|].
    rewrite <- E. apply qmax_r.
  - apply (IH _ (contiguous_tail _ _ Hc) i). lia.
Qed.

Lemma fix_monotonic_last l : forall prev,
  (0 < length l)%nat ->
  end_at (fix_monotonic prev l) (length l - 1)
  = qmax (start_at (fix_monotonic prev l) (length l - 1) + (2 # 100))
         (end_at l (length l - 1)).
Proof.
  induction l as [|[st en] l IH]; intros prev H; simpl in *; [lia|].
  destruct l as [|p l]; [reflexivity|].
  replace (length (p :: l) - 0)%nat with (S (length (p :: l) - 1)) by (simpl; lia).
  apply (IH (qmax (qmax prev st + (2 # 100)) en)). simpl. lia.
Qed.

Lemma fix_monotonic_first l : forall prev,
  start_at (fix_monotonic prev l) 0 = match l with
                                      | [] => 0
                                      | (st, _) :: _ => qmax prev st
                                      end.
Proof. destruct l as [|[st en] l]; reflexivity. Qed.

End FixMonotonic.





Section AlignShape.

Lemma clean_words_concat words : forall i,
  concat (map fst (clean_words_from i words)) = words_text words.
Proof.
  unfold words_text.
  induction words as [|w ws IH]; intro i; simpl; [reflexivity|].
  destruct (_clean_spoken (w_text w)) eqn:E; simpl; now rewrite IH.
Qed.

Lemma length_inner_bounds cum n toks : forall acc,
  length (inner_bounds cum n acc toks) = length toks.
Proof.
  induction toks as [|t toks IH]; intro acc; simpl; [reflexivity|].
  now rewrite IH.
Qed.

Lemma length_bounds_pairs cum n (part_tok : list pystr) :
  part_tok <> [] ->
  length (combine (bounds_tok cum n part_tok) (tl (bounds_tok cum n part_tok)))
  = length part_tok.
Proof.
  intro H. unfold bounds_tok.
  rewrite length_combine. cbn [app tl length].
  rewrite !length_app, length_inner_bounds, removelast_firstn_len, length_firstn.
  destruct part_tok; [congruence | cbn [length Nat.pred]; lia].
Qed.

Lemma midpoint_fold (k : nat) : forall starts ends : list Q,
  length ends = length starts -> (k <= length starts - 1)%nat ->
  let r := fold_left midpoint_step (seq 0 k) (starts, ends) in
  length (fst r) = length starts /\ length (snd r) = length starts
  /\ forall i, (i < k)%nat -> nth i (snd r) 0 = nth (S i) (fst r) 0.
Proof.
  induction k as [|k IH]; intros starts ends Hl Hk; cbv zeta.
  - simpl. repeat split; auto. intros; lia.
  - rewrite seq_S, fold_left_app. cbn [fold_left Nat.add].
    destruct (IH starts ends Hl ltac:(lia)) as (L1 & L2 & Hc).
    destruct (fold_left midpoint_step (seq 0 k) (starts, ends)) as [s e].
    unfold midpoint_step. cbn [fst snd] in *. rewrite !length_set_nth.
    repeat split; auto.
    intros i Hi.
    destruct (Nat.eq_dec i k) as [->|Hne].
    + rewrite !nth_set_nth_eq by lia. reflexivity.
    + rewrite !nth_set_nth_neq by lia. apply Hc. lia.
Qed.

Lemma split_gaps_spec (starts ends : list Q) :
  length ends = length starts ->
  length (fst (split_gaps starts ends)) = length starts
  /\ length (snd (split_gaps starts ends)) = length starts
  /\ forall i, (S i < length starts)%nat ->
       nth i (snd (split_gaps starts ends)) 0
       = nth (S i) (fst (split_gaps starts ends)) 0.
Proof.
  intro Hl. unfold split_gaps.
  destruct (midpoint_fold (length starts - 1) starts ends Hl (Nat.le_refl _))
    as (L1 & L2 & Hc).
  repeat split; auto. intros i Hi. apply Hc. lia.
Qed.

Lemma combine_start_at (ss es : list Q) i :
  (i < length ss)%nat -> length es = length ss ->
  start_at (combine ss es) i = nth i ss 0.
Proof.
  intros Hi Hl. unfold start_at.
  rewrite (combine_nth ss es i 0 0) by auto. reflexivity.
Qed.

Lemma combine_end_at (ss es : list Q) i :
  (i < length ss)%nat -> length es = length ss ->
  end_at (combine ss es) i = nth i es 0.
Proof.
  intros Hi Hl. unfold end_at.
  rewrite (combine_nth ss es i 0 0) by auto. reflexivity.
Qed.

Lemma forallb_nonblank parts :
  Forall (fun p => _clean_spoken p <> []) parts -> filter nonblank parts = parts.
Proof.
  induction 1 as [|p ps Hp _ IH]; simpl; [reflexivity|].
  rewrite (clean_nonblank _ Hp). now rewrite IH.
Qed.

Lemma concat_nonempty (l : list pystr) :
  l <> [] -> Forall (fun t => t <> []) l -> concat l <> [].
Proof.
  destruct l as [|t l]; [congruence|]. intros _ H. inversion H; subst.
  simpl. destruct t; [congruence | discriminate].
Qed.

Lemma existsb_empty_false (l : list pystr) :
  Forall (fun t => t <> []) l ->
  existsb (fun t => match t with [] => true | _ => false end) l = false.
Proof.
  induction 1 as [|t l Ht _ IH]; simpl; [reflexivity|].
  rewrite IH. destruct t; [congruence | reflexivity].
Qed.

(** The successful run: the lists handed to the closing loop. *)
Lemma align_success words parts total :
  Forall (fun p => _clean_spoken p <> []) parts -> parts <> [] ->
  script_text parts = words_text words ->
  exists starts ends : list Q,
    length starts = length parts /\ length ends = length parts
    /\ (forall i, (S i < length parts)%nat -> nth i ends 0 = nth (S i) starts 0)
    /\ (forall T, total = Some T ->
          nth 0 starts 0 = 0 /\ nth (length parts - 1) ends 0 = T)
    /\ align_script_parts_to_words words parts total
       = inr (fix_monotonic 0 (combine starts ends)).
Proof.
  intros Hall Hne Htext.
  unfold align_script_parts_to_words. cbv zeta.
  rewrite (forallb_nonblank _ Hall).
  assert (Htok : Forall (fun t : pystr => t <> []) (map _clean_spoken parts)).
  { apply Forall_map. exact Hall. }
  assert (Hscript : script_text parts <> []).
  { apply concat_nonempty; [|exact Htok]. destruct parts; [congruence|discriminate]. }
  destruct (map strip parts) as [|p0 ps0] eqn:Eparts.
  { destruct parts; [congruence | discriminate]. }
  rewrite <- Eparts. clear p0 ps0 Eparts.
  destruct words as [|w ws].
  { elim Hscript. rewrite Htext. reflexivity. }
  pose proof (clean_words_concat (w :: ws) 0) as Hcw.
  set (cleaned := clean_words_from 0 (w :: ws)) in *.
  destruct (map fst cleaned) as [|t0 ts0] eqn:Etok.
  { elim Hscript. rewrite Htext, <- Hcw. reflexivity. }
  rewrite <- Etok in *. clear t0 ts0 Etok.
  assert (Hclean : map _clean_spoken (map strip parts) = map _clean_spoken parts).
  { rewrite map_map. apply map_ext. intro. apply clean_spoken_strip. }
  rewrite Hclean.
  rewrite (existsb_empty_false _ Htok).
  replace (str_eqb (concat (map _clean_spoken parts)) (concat (map fst cleaned)))
    with true
    by (symmetry; apply str_eqb_eq; rewrite Hcw; exact Htext).
  simpl negb. cbv iota.
  set (bounds := bounds_tok _ _ _).
  set (ranges := map (tok_range (map snd cleaned)) (combine bounds (tl bounds))).
  assert (Lr : length ranges = length parts).
  { unfold ranges, bounds. rewrite length_map, length_bounds_pairs.
    - apply length_map.
    - destruct parts; [congruence | discriminate]. }
  set (starts0 := map (fun ab => w_start (nth (fst ab) (w :: ws) dummy_word)) ranges).
  set (ends0 := map (fun ab => w_end (nth (snd ab - 1) (w :: ws) dummy_word)) ranges).
  assert (Ls : length starts0 = length parts) by (unfold starts0; now rewrite length_map).
  assert (Le : length ends0 = length starts0)
    by (unfold starts0, ends0; now rewrite !length_map).
  destruct (split_gaps_spec starts0 ends0 Le) as (L1 & L2 & Hc).
  destruct (split_gaps starts0 ends0) as [starts ends]. simpl in L1, L2, Hc.
  assert (Hpos : (0 < length parts)%nat)
    by (destruct parts; [congruence | simpl; lia]).
  destruct total as [T|].
  - destruct starts as [|s0 starts'] eqn:Es; [simpl in L1; lia|].
    rewrite <- Es in *. clear s0 starts' Es.
    exists (set_nth 0 0 starts), (set_nth (length ends - 1) T ends).
    rewrite !length_set_nth.
    split; [lia|]. split; [lia|]. split; [|split].
    + intros i Hi. rewrite !nth_set_nth_neq by lia. apply Hc. lia.
    + intros T' HT. injection HT as <-.
      split.
      * apply nth_set_nth_eq. lia.
      * replace (length parts - 1)%nat with (length ends - 1)%nat by lia.
        apply nth_set_nth_eq. lia.
    + reflexivity.
  - exists starts, ends.
    split; [lia|]. split; [lia|]. split; [|split].
    + intros i Hi. apply Hc. lia.
    + intros T' HT. discriminate.
    + destruct starts; reflexivity.
Qed.

End AlignShape.

(** The search of [bisect_left] has ended before its turns run out: more
    turns do not change its result. *)
Lemma bisect_loop_fuel a x fuel : forall fuel' lo hi,
  (hi - lo < fuel)%nat -> (hi - lo < fuel')%nat ->
  bisect_loop fuel a x lo hi = bisect_loop fuel' a x lo hi.
Proof.
  induction fuel as [|fuel IH]; intros fuel' lo hi H H'; [lia|].
  destruct fuel' as [|fuel']; [lia|].
  cbn [bisect_loop].
  destruct (Nat.ltb_spec lo hi) as [Hlt|Hge]; [|reflexivity].
  assert (Hmid : (lo <= (lo + hi) / 2 < hi)%nat).
  { split.
    - apply Nat.div_le_lower_bound; lia.
    - apply Nat.Div0.div_lt_upper_bound; lia. }
  destruct (nth ((lo + hi) / 2) a 0%nat <? x)%nat; apply IH; lia.
Qed.

Lemma bisect_left_fuel a x fuel :
  (length a < fuel)%nat -> bisect_left a x = bisect_loop fuel a x 0 (length a).
Proof. intro H. unfold bisect_left. apply bisect_loop_fuel; lia. Qed.

(** The two-word scenario: the units cut the words cleanly and the
    intervals are the word boundaries. *)
Example align_two_words :
  align_script_parts_to_words two_words
    [nihao ++ [65292%Z]; shijie ++ [12290%Z]] (Some (12 # 10))
  = inr [(0, 4 # 8); (4 # 8, 12 # 10)].
Proof. vm_compute. reflexivity. Qed.

(** C1 (as amended): when every unit holds a spoken character and the
    cleaned script equals the cleaned word stream, the alignment returns
    one interval per unit, each with start <= end, every interval starting
    where the previous one ends; with a total duration [T] the first
    interval starts at 0 and the last one ends at [T], unless [T] comes
    less than 0.02 s after the last start, in which case it ends 0.02 s
    after its start. *)
Theorem align_totality words parts total :
  Forall (fun p => _clean_spoken p <> []) parts ->
  script_text parts = words_text words ->
  exists out,
    align_script_parts_to_words words parts total = inr out
    /\ length out = length parts
    /\ (forall i, (i < length out)%nat -> start_at out i <= end_at out i)
    /\ contiguous out
    /\ (forall T, total = Some T -> parts <> [] ->
          start_at out 0 == 0
          /\ (start_at out (length out - 1) + (2 # 100) <= T ->
              end_at out (length out - 1) == T)
          /\ (T <= start_at out (length out - 1) + (2 # 100) ->
              end_at out (length out - 1)
              == start_at out (length out - 1) + (2 # 100))).
Proof.
  intros Hall Htext.
  destruct parts as [|p ps] eqn:Ep.
  { exists []. split; [reflexivity|]. split; [reflexivity|].
    split; [intros; simpl in *; lia|].
    split; [intros i Hi; simpl in *; lia | intros; congruence]. }
  rewrite <- Ep in *.
  assert (Hne : parts <> []) by (rewrite Ep; discriminate).
  destruct (align_success words parts total Hall Hne Htext)
    as (starts & ends & Ls & Le & Hchain & Htot & Heq).
  exists (fix_monotonic 0 (combine starts ends)).
  assert (Lc : length (combine starts ends) = length parts)
    by (rewrite length_combine; lia).
  split; [exact Heq|]. split; [|split; [|split]].
  - now rewrite length_fix_monotonic.
  - intros i Hi.
    pose proof (fix_monotonic_lasts (combine starts ends) 0 i Hi). lra.
  - apply fix_monotonic_contiguous. intros i Hi.
    rewrite combine_end_at, combine_start_at by lia.
    rewrite Hchain by lia. reflexivity.
  - intros T HT _. destruct (Htot T HT) as [H0 Hlast].
    rewrite length_fix_monotonic, Lc.
    assert (Hpos : (0 < length parts)%nat) by (destruct parts; [congruence|simpl; lia]).
    pose proof (fix_monotonic_last (combine starts ends) 0 ltac:(lia)) as HL.
    rewrite Lc in HL. rewrite combine_end_at in HL by lia.
    rewrite Hlast in HL. rewrite HL.
    split; [|split].
    + rewrite fix_monotonic_first.
      destruct starts as [|s0 starts']; [simpl in Ls; lia|].
      destruct ends as [|e0 ends']; [simpl in Le; lia|].
      simpl in H0. subst s0. simpl. reflexivity.
    + intro H. unfold qmax.
      destruct (Qlt_le_dec _ T); [reflexivity | lra].
    + intro H. unfold qmax.
      destruct (Qlt_le_dec _ T); [lra | reflexivity].
Qed.

Lemma align_totality_witness :
  exists out,
    align_script_parts_to_words two_words [nihao; shijie] (Some (12 # 10)) = inr out
    /\ length out = 2%nat.
Proof.
  destruct (align_totality two_words [nihao; shijie] (Some (12 # 10)))
    as (out & H & L & _).
  - repeat constructor; vm_compute; discriminate.
  - vm_compute; reflexivity.
  - exists out. split; [exact H | exact L].
Defined.

Lemma align_totality_counterexample :
  (script_text [nihao; [65292%Z]; shijie] = words_text two_words
   /\ align_script_parts_to_words two_words [nihao; [65292%Z]; shijie]
        (Some (12 # 10)) = inl PunctOnlyPart)
  /\ (script_text [nihao ++ shijie] = words_text two_words
      /\ align_script_parts_to_words two_words [nihao ++ shijie] (Some (1 # 100))
         = inr [(0, 2 # 100)]
      /\ ~ (2 # 100 == 1 # 100)).
Proof.
  repeat split; try (vm_compute; reflexivity).
  intro H. vm_compute in H. discriminate.
Qed.

Lemma first_mismatch_spec a : forall b,
  a <> b -> first_difference a b (first_mismatch a b).
Proof.
  unfold first_difference.
  induction a as [|x a IH]; intros [|y b] H; simpl.
  - congruence.
  - repeat split; auto; lia.
  - repeat split; auto; lia.
  - destruct (Z.eqb_spec x y) as [->|Hxy].
    + assert (Hab : a <> b) by congruence.
      destruct (IH b Hab) as (F & La & Lb & D).
      simpl. rewrite F. repeat split; auto; try lia.
    + simpl. repeat split; auto; try lia.
Qed.

Lemma script_text_nonblank parts :
  script_text (map strip (filter nonblank parts)) = script_text parts.
Proof.
  unfold script_text.
  induction parts as [|p ps IH]; simpl; [reflexivity|].
  destruct (nonblank p) eqn:E; simpl.
  - now rewrite clean_spoken_strip, IH.
  - now rewrite (blank_clean _ E), IH.
Qed.

Lemma filter_nonblank_nonempty parts :
  Exists (fun p => nonblank p = true) parts ->
  map strip (filter nonblank parts) <> [].
Proof.
  induction 1 as [p ps Hp | p ps _ IH]; simpl.
  - rewrite Hp. discriminate.
  - destruct (nonblank p); [discriminate | exact IH].
Qed.

Lemma existsb_empty_clean parts :
  Forall (fun p => nonblank p = true -> _clean_spoken p <> []) parts ->
  existsb (fun t : pystr => match t with [] => true | _ => false end)
    (map _clean_spoken (map strip (filter nonblank parts))) = false.
Proof.
  induction 1 as [|p ps Hp _ IH]; simpl; [reflexivity|].
  destruct (nonblank p) eqn:E; simpl; [|exact IH].
  rewrite clean_spoken_strip, IH.
  destruct (_clean_spoken p); [now elim Hp | reflexivity].
Qed.

(** C2 (as amended): when some unit is not blank and the cleaned script
    differs from the cleaned word stream, the alignment returns no
    intervals: it fails.  When moreover the word stream holds a spoken
    character and so does every unit that is not blank, the failure is the
    mismatch error, which carries the first offset at which the two texts
    differ and the snippet [m - 20, m + 40) of each. *)
Theorem align_strictness words parts total :
  script_text parts <> words_text words ->
  Exists (fun p => nonblank p = true) parts ->
  (exists e, align_script_parts_to_words words parts total = inl e)
  /\ (words_text words <> [] ->
      Forall (fun p => nonblank p = true -> _clean_spoken p <> []) parts ->
      exists m,
        first_difference (script_text parts) (words_text words) m
        /\ align_script_parts_to_words words parts total
           = inl (AlignmentMismatch m
                    (slice (script_text parts) (m - 20) (m + 40))
                    (slice (words_text words) (m - 20) (m + 40)))).
Proof.
  intros Hdiff Hex.
  pose proof (filter_nonblank_nonempty _ Hex) as Hne.
  pose proof (script_text_nonblank parts) as Hst. unfold script_text in Hst.
  unfold align_script_parts_to_words. cbv zeta.
  destruct (map strip (filter nonblank parts)) as [|p0 ps0] eqn:Eparts;
    [congruence|].
  rewrite <- Eparts in *. clear p0 ps0 Eparts.
  destruct words as [|w ws].
  { split; [eexists; reflexivity|]. intro H. now elim H. }
  pose proof (clean_words_concat (w :: ws) 0) as Hcw.
  set (cleaned := clean_words_from 0 (w :: ws)) in *.
  destruct (map fst cleaned) as [|t0 ts0] eqn:Etok.
  { split; [eexists; reflexivity|]. intro H. elim H. rewrite <- Hcw. reflexivity. }
  rewrite <- Etok in *. clear t0 ts0 Etok.
  rewrite Hst, Hcw.
  replace (str_eqb (concat (map _clean_spoken parts)) (words_text (w :: ws)))
    with false.
  2:{ symmetry. apply not_true_is_false. intro H. apply str_eqb_eq in H.
      now apply Hdiff. }
  simpl negb. cbv iota.
  split.
  - destruct (existsb _ _); eexists; reflexivity.
  - intros _ Hall.
    exists (first_mismatch (script_text parts) (words_text (w :: ws))).
    split; [now apply first_mismatch_spec|].
    replace (existsb _ _) with false
      by (symmetry; exact (existsb_empty_clean _ Hall)).
    reflexivity.
Qed.

Lemma align_strictness_witness :
  exists m,
    first_difference (script_text [nihao; [65%Z]]) (words_text two_words) m
    /\ align_script_parts_to_words two_words [nihao; [65%Z]] None
       = inl (AlignmentMismatch m
                (slice (script_text [nihao; [65%Z]]) (m - 20) (m + 40))
                (slice (words_text two_words) (m - 20) (m + 40))).
Proof.
  apply (align_strictness two_words [nihao; [65%Z]] None).
  - vm_compute. discriminate.
  - constructor. vm_compute. reflexivity.
  - vm_compute. discriminate.
  - repeat constructor; intro; vm_compute; discriminate.
Defined.

Lemma align_strictness_counterexample :
  (script_text [[32%Z]] <> words_text two_words
   /\ align_script_parts_to_words two_words [[32%Z]] (Some (12 # 10)) = inr [])
  /\ (script_text [nihao; [65292%Z]] <> words_text two_words
      /\ align_script_parts_to_words two_words [nihao; [65292%Z]] (Some (12 # 10))
         = inl PunctOnlyPart).
Proof.
  repeat split; try (vm_compute; reflexivity); vm_compute; discriminate.
Qed.

(** C6 (as amended): on the scenario text with [max_chars = 4] the
    splitter returns three chunks of visible length at most 4, cut after
    the fifth character of the buffer each time: the chunk up to a
    punctuation mark has only three visible characters, fewer than the
    [max(4, max_chars // 2) = 4] needed to cut there. *)
Theorem split_one_line_scenario :
  split_one_line scenario_text 4 = scenario_chunks
  /\ Forall (fun c => (_visible_len_zh c <= 4)%Z) (split_one_line scenario_text 4).
Proof.
  assert (E : split_one_line scenario_text 4 = scenario_chunks)
    by (vm_compute; reflexivity).
  split; [exact E|].
  rewrite E. repeat constructor; vm_compute; discriminate.
Qed.

Lemma split_one_line_scenario_counterexample :
  split_one_line scenario_text 4 <> scenario_punct_chunks.
Proof. vm_compute. discriminate. Qed.

Section Snap.

Lemma increasing_from_strict l : forall lo,
  increasing_from lo l -> strictly_increasing l.
Proof.
  induction l as [|x l IH]; intros lo H i Hi; simpl in *; [lia|].
  destruct H as [_ H]. destruct i as [|i].
  - destruct l as [|y l]; simpl in *; [lia|]. lia.
  - apply (IH _ H). lia.
Qed.

Lemma increasing_from_last l : forall lo,
  increasing_from lo l -> l <> [] ->
  (lo + Z.of_nat (length l) - 1 <= nth (length l - 1) l 0)%Z.
Proof.
  induction l as [|x l IH]; intros lo H Hne; [congruence|].
  destruct H as [Hx H].
  destruct l as [|y l]; [simpl; lia|].
  specialize (IH _ H ltac:(discriminate)).
  replace (length (x :: y :: l) - 1)%nat with (S (length (y :: l) - 1))
    by (simpl; lia).
  change (nth (S (length (y :: l) - 1)) (x :: y :: l) 0%Z)
    with (nth (length (y :: l) - 1) (y :: l) 0%Z).
  cbn [length] in *. lia.
Qed.

Lemma reserve_forward_spec total l : forall min_f,
  (min_f + Z.of_nat (length l) - 1 <= total)%Z ->
  increasing_from min_f (reserve_forward total min_f l)
  /\ Forall (fun x => (x <= total)%Z) (reserve_forward total min_f l).
Proof.
  induction l as [|f l IH]; intros min_f H; simpl; [split; [exact I | constructor]|].
  cbn [length] in H.
  destruct (IH (Z.max min_f (Z.min f (total - Z.of_nat (length l))) + 1)%Z
              ltac:(lia)) as [H1 H2].
  split; [split; [lia | exact H1] | constructor; [lia | exact H2]].
Qed.

Lemma length_reserve_forward total l : forall min_f,
  length (reserve_forward total min_f l) = length l.
Proof.
  induction l as [|f l IH]; intro min_f; simpl; [reflexivity|].
  now rewrite IH.
Qed.

Lemma set_last_increasing total l : forall lo,
  increasing_from lo l -> Forall (fun x => (x <= total)%Z) l -> (lo <= total)%Z ->
  increasing_from lo (set_nth (length l - 1) total l).
Proof.
  induction l as [|x l IH]; intros lo H Hall Hlo; [exact I|].
  destruct H as [Hx H]. inversion Hall as [|? ? Hxt Hall']; subst.
  destruct l as [|y l]; [simpl; lia|].
  replace (length (x :: y :: l) - 1)%nat with (S (length (y :: l) - 1))
    by (simpl; lia).
  cbn [set_nth]. split; [exact Hx|].
  apply IH; auto.
  destruct H as [Hy _]. inversion Hall'; subst. lia.
Qed.

Lemma cap_backward_increasing l : forall lo,
  increasing_from lo l -> cap_backward l = l.
Proof.
  induction l as [|x l IH]; intros lo H; [reflexivity|].
  destruct H as [_ H]. cbn [cap_backward]. rewrite (IH _ H).
  destruct l as [|g l]; [reflexivity|].
  destruct H as [Hg _]. f_equal. lia.
Qed.

Lemma set_head_same (x : Z) l : nth 0 l 0%Z = x -> l <> [] -> set_nth 0 x l = l.
Proof. destruct l; simpl; congruence. Qed.

Lemma Qfloor_above (z : Z) (q : Q) : inject_Z z <= q -> (z <= Qfloor q)%Z.
Proof. intro H. rewrite <- (Qfloor_Z z). now apply Qfloor_resp_le. Qed.

Lemma Qfloor_below (z : Z) (q : Q) : q < inject_Z z -> (Qfloor q < z)%Z.
Proof.
  intro H. rewrite Zlt_Qlt. pose proof (Qfloor_le q). lra.
Qed.

(** Truncation and ceiling: [int(x + 0.999999)] lies between the ceiling
    of [x - 0.000001] and the ceiling of [x]. *)
Lemma floor_ceiling_bounds (x : Q) :
  (Qceiling (x - (1 # 1000000)) <= Qfloor (x + (999999 # 1000000)) <= Qceiling x)%Z.
Proof.
  split.
  - apply Qfloor_above.
    pose proof (Qceiling_lt (x - (1 # 1000000))) as H.
    unfold Z.sub in H. rewrite inject_Z_plus in H.
    rewrite inject_Z_opp in H. change (inject_Z 1) with 1 in H. lra.
  - apply Z.lt_succ_r. apply Qfloor_below.
    pose proof (Qle_ceiling x) as H2.
    unfold Z.succ. rewrite inject_Z_plus. change (inject_Z 1) with 1. lra.
Qed.

Lemma py_int_nonneg q : 0 <= q -> py_int q = Qfloor q.
Proof.
  intro H. unfold py_int. destruct (Qlt_le_dec q 0); [lra | reflexivity].
Qed.

End Snap.

Lemma increasing_pairs l : forall s,
  increasing_from (s + 1) l ->
  Forall (fun se : Z * Z => (fst se + 1 <= snd se)%Z) (combine (s :: removelast l) l).
Proof.
  induction l as [|x r IH]; intros s H; [constructor|].
  destruct H as [Hx H]. cbn [combine]. constructor; [simpl; lia|].
  destruct r as [|y r]; [constructor|].
  apply (IH x H).
Qed.

Lemma end_frames_spec line_times fps total_dur :
  line_times <> [] ->
  (Z.of_nat (length line_times) <= total_frames_of fps total_dur)%Z ->
  let ef := end_frames_of line_times fps total_dur in
  length ef = length line_times
  /\ increasing_from 1 ef
  /\ nth (length ef - 1) ef 0%Z = total_frames_of fps total_dur.
Proof.
  intros Hne Hn. unfold end_frames_of.
  set (total := total_frames_of fps total_dur) in *.
  set (n := length line_times) in *.
  set (l0 := map _ (set_nth (n - 1) total_dur _)).
  assert (L0 : length l0 = n)
    by (unfold l0; rewrite length_map, length_set_nth, length_map; reflexivity).
  assert (Hpos : (0 < n)%nat)
    by (unfold n; destruct line_times; [congruence | simpl; lia]).
  assert (Ht : (1 <= total)%Z) by (unfold total, total_frames_of; lia).
  destruct (reserve_forward_spec total l0 1%Z ltac:(lia)) as [H1 H2].
  set (l1 := reserve_forward total 1 l0) in *.
  assert (L1 : length l1 = n) by (unfold l1; now rewrite length_reserve_forward).
  pose proof (set_last_increasing total l1 1%Z H1 H2 Ht) as H3.
  rewrite L1 in H3.
  set (l2 := set_nth (n - 1) total l1) in *.
  assert (L2 : length l2 = n) by (unfold l2; now rewrite length_set_nth).
  rewrite (cap_backward_increasing l2 1%Z H3).
  assert (Hlast : nth (n - 1) l2 0%Z = total)
    by (unfold l2; apply nth_set_nth_eq; lia).
  assert (Hhead : (1 <= nth 0 l2 0 /\ nth 0 l2 0 + Z.of_nat n - 1 <= total)%Z).
  { destruct l2 as [|h l2'] eqn:E2; [simpl in L2; lia|].
    destruct H3 as [Hh H3]. cbn [nth]. split; [exact Hh|].
    assert (Hi : increasing_from h (h :: l2')) by (split; [lia | exact H3]).
    pose proof (increasing_from_last _ _ Hi ltac:(discriminate)) as HL.
    rewrite L2, Hlast in HL. lia. }
  rewrite set_head_same.
  - cbv zeta. rewrite L2. auto.
  - lia.
  - destruct l2; [simpl in L2; lia | discriminate].
Qed.

(** C7 (as amended): for a non-empty list of unit times whose length does
    not exceed the total frame count, the end-frame boundaries start at 1
    or later, increase strictly (every unit gets at least one frame: the
    per-unit frame counts are the plain differences of the boundaries) and
    end at the total frame count.  The total frame count is
    [max(1, int(total * fps + 0.999999))] for the clamped rate and the
    total clamped at 0: the ceiling of [total * fps], except that it is
    one less when [total * fps] exceeds an integer by at most 0.000001,
    and never below 1. *)
Theorem snap_frame_boundaries line_times fps total_dur :
  line_times <> [] ->
  (Z.of_nat (length line_times)
   <= total_frames_of (clamp_fps fps) (qmax 0 total_dur))%Z ->
  let fps' := clamp_fps fps in
  let total := qmax 0 total_dur in
  let total_frames := total_frames_of fps' total in
  let ef := end_frames_of line_times fps' total in
  length ef = length line_times
  /\ (1 <= nth 0 ef 0)%Z
  /\ strictly_increasing ef
  /\ nth (length ef - 1) ef 0%Z = total_frames
  /\ snd (_snap_line_times_to_fps line_times fps total_dur)
     = map (fun se : Z * Z => (snd se - fst se)%Z) (combine (0%Z :: removelast ef) ef)
  /\ Forall (fun f => (1 <= f)%Z)
       (snd (_snap_line_times_to_fps line_times fps total_dur))
  /\ (Z.max 1 (Qceiling (total * inject_Z fps' - (1 # 1000000)))
      <= total_frames
      <= Z.max 1 (Qceiling (total * inject_Z fps')))%Z.
Proof.
  intros Hne Hn. cbv zeta.
  destruct (end_frames_spec line_times _ _ Hne Hn) as (L & Hinc & Hlast).
  set (ef := end_frames_of _ _ _) in *.
  assert (Hsnd : snd (_snap_line_times_to_fps line_times fps total_dur)
                 = map (fun se : Z * Z => Z.max 1 (snd se - fst se))
                       (combine (0%Z :: removelast ef) ef)).
  { unfold _snap_line_times_to_fps. destruct line_times; [congruence|reflexivity]. }
  pose proof (increasing_pairs ef 0%Z Hinc) as Hp.
  split; [exact L|]. split; [|split; [|split; [|split; [|split]]]].
  - destruct ef; [simpl in L; destruct line_times; [congruence|discriminate]|].
    simpl. apply Hinc.
  - exact (increasing_from_strict _ _ Hinc).
  - exact Hlast.
  - rewrite Hsnd. apply map_ext_in. intros se Hin.
    rewrite Forall_forall in Hp. specialize (Hp se Hin). lia.
  - rewrite Hsnd. apply Forall_map. apply Forall_forall. intros; lia.
  - unfold total_frames_of.
    assert (H0 : 0 <= qmax 0 total_dur) by apply qmax_l.
    assert (Hf : (10 <= clamp_fps fps)%Z) by (unfold clamp_fps; lia).
    assert (Hnn : 0 <= qmax 0 total_dur * inject_Z (clamp_fps fps) + (999999 # 1000000)).
    { assert (0 <= qmax 0 total_dur * inject_Z (clamp_fps fps)).
      { apply Qmult_le_0_compat; [exact H0|].
        change 0 with (inject_Z 0). rewrite <- Zle_Qle. lia. }
      lra. }
    rewrite (py_int_nonneg _ Hnn).
    pose proof (floor_ceiling_bounds (qmax 0 total_dur * inject_Z (clamp_fps fps))).
    lia.
Qed.

Lemma snap_frame_boundaries_witness :
  strictly_increasing
    (end_frames_of [(0, 1 # 2); (1 # 2, 12 # 10)] (clamp_fps 30) (qmax 0 (12 # 10))).
Proof.
  apply (snap_frame_boundaries [(0, 1 # 2); (1 # 2, 12 # 10)] 30 (12 # 10)).
  - discriminate.
  - vm_compute. discriminate.
Defined.

Lemma snap_frame_boundaries_counterexample :
  end_frames_of [(0, 1 # 10); (1 # 10, 2 # 10); (2 # 10, 3 # 10)]
    (clamp_fps 10) (qmax 0 (1 # 10)) = [1; 0; 1]%Z
  /\ ~ strictly_increasing [1; 0; 1]%Z
  /\ total_frames_of (clamp_fps 10) (qmax 0 0) = 1%Z
  /\ Qceiling (0 * inject_Z 10) = 0%Z.
Proof.
  split; [vm_compute; reflexivity|]. split; [|split; vm_compute; reflexivity].
  intro H. specialize (H 0%nat ltac:(simpl; lia)). simpl in H. lia.
Qed.

Section Normalize.

Variables m t M : Q.
Hypothesis Hm : 1 # 2 <= m.
Hypothesis Hmt : m <= t.
Hypothesis HtM : t <= M.
Hypothesis HM : 2 * m <= M.

Lemma ordered_from_weaken l : forall lo lo' : Q,
  lo' <= lo -> ordered_from lo l -> ordered_from lo' l.
Proof.
  destruct l as [|[s e] l]; intros lo lo' H Ho; [exact I|].
  destruct Ho as (H1 & H2 & H3). simpl. repeat split; auto. lra.
Qed.










Lemma split_fuel_enough s e : 2 * (e - s) < inject_Z (Z.of_nat (split_fuel s e)).
Proof.
  unfold split_fuel. rewrite Nat2Z.inj_succ. unfold Z.succ.
  rewrite inject_Z_plus. change (inject_Z 1) with 1.
  pose proof (Qle_ceiling (2 * (e - s))) as H.
  assert (H2 : inject_Z (Qceiling (2 * (e - s)))
               <= inject_Z (Z.of_nat (Z.to_nat (Qceiling (2 * (e - s)))))).
  { rewrite <- Zle_Qle. lia. }
  lra.
Qed.






End Normalize.

Section Rounding.

Lemma round_half_even_close q :
  q - (1 # 2) <= inject_Z (round_half_even q)
  /\ inject_Z (round_half_even q) <= q + (1 # 2).
Proof.
  unfold round_half_even.
  pose proof (Qfloor_le q) as H1. pose proof (Qlt_floor q) as H2.
  rewrite inject_Z_plus in H2. change (inject_Z 1) with 1 in H2.
  destruct (Qcompare_spec (q - inject_Z (Qfloor q)) (1 # 2)) as [E|E|E].
  - destruct (Z.even (Qfloor q)).
    + split; lra.
    + rewrite inject_Z_plus. change (inject_Z 1) with 1. split; lra.
  - split; lra.
  - rewrite inject_Z_plus. change (inject_Z 1) with 1. split; lra.
Qed.

Lemma round3_close q :
  q - (1 # 2000) <= round3 q /\ round3 q <= q + (1 # 2000).
Proof.
  unfold round3.
  destruct (round_half_even_close (q * 1000)) as [H1 H2].
  rewrite (Qmake_Qdiv (round_half_even (q * 1000)) 1000).
  set (z := inject_Z (round_half_even (q * 1000))) in *.
  change (inject_Z (Z.pos 1000)) with 1000.
  split.
  - apply Qle_shift_div_l; [reflexivity | lra].
  - apply Qle_shift_div_r; [reflexivity | lra].
Qed.

Lemma rounded_dur (se : Q * Q) :
  dur se - (1 # 1000) <= dur (round3 (fst se), round3 (snd se))
  /\ dur (round3 (fst se), round3 (snd se)) <= dur se + (1 # 1000).
Proof.
  unfold dur; simpl.
  destruct (round3_close (fst se)), (round3_close (snd se)). split; lra.
Qed.

End Rounding.

Section NormalizeTotal.

Variables m t M : Q.
Hypothesis HM : 1 # 2 <= M.

Lemma split_one_loop_total fuel : forall s e,
  2 * (e - s) < inject_Z (Z.of_nat (S fuel)) ->
  exists out, split_one_loop (S fuel) m t M s e = Some out.
Proof.
  induction fuel as [|fuel IH]; intros s e Hf.
  - change (inject_Z (Z.of_nat 1)) with 1 in Hf. cbn [split_one_loop].
    destruct (Qlt_le_dec (M + (1 # 1000000)) (e - s)); [lra | eexists; reflexivity].
  - remember (S fuel) as f eqn:Ef. cbn [split_one_loop].
    destruct (Qlt_le_dec (M + (1 # 1000000)) (e - s)); [|eexists; reflexivity].
    set (nxt := qmax (s + (1 # 2)) _).
    assert (Hn : s + (1 # 2) <= nxt) by apply qmax_l.
    destruct (IH nxt e) as (out & Ho).
    + rewrite Nat2Z.inj_succ in Hf. unfold Z.succ in Hf.
      rewrite inject_Z_plus in Hf. change (inject_Z 1) with 1 in Hf.
      subst f. lra.
    + subst f. rewrite Ho. eexists; reflexivity.
Qed.

Lemma split_one_total s e : exists out, _split_one m t M s e = Some out.
Proof. apply split_one_loop_total. apply split_fuel_enough. Qed.

Lemma split_all_total l : exists out, split_all m t M l = Some out.
Proof.
  induction l as [|[s e] l (out & Ho)]; simpl; [eexists; reflexivity|].
  destruct (split_one_total s e) as (a & ->). rewrite Ho. eexists; reflexivity.
Qed.

Lemma cleanup_total l : forall acc,
  exists out, fold_left (cleanup_step m t M) l (Some acc) = Some out.
Proof.
  induction l as [|[s e] l IH]; intro acc; cbn [fold_left];
    [eexists; reflexivity|].
  assert (H : exists acc', cleanup_step m t M (Some acc) (s, e) = Some acc').
  { unfold cleanup_step. destruct (rev acc) as [|[ps pe] front];
      [eexists; reflexivity|].
    destruct (Qlt_le_dec (e - s) m); [|eexists; reflexivity].
    destruct (Qlt_le_dec (M + (1 # 1000000)) (e - ps)); [|eexists; reflexivity].
    destruct (split_one_total ps e) as (a & ->). eexists; reflexivity. }
  destruct H as (acc' & ->). apply IH.
Qed.

End NormalizeTotal.

(** The normalization pass returns on every input: its split loop always
    comes to an end. *)
Lemma normalize_slices_total slices min_sec target_sec max_sec :
  exists out, _normalize_slices slices min_sec target_sec max_sec = Some out.
Proof.
  unfold _normalize_slices, normalize_cleaned.
  destruct slices as [|[s0 e0] rest]; [eexists; reflexivity|]. cbv zeta.
  set (m := qmax (1 # 2) min_sec). set (M := qmax m max_sec).
  set (t := qmax m (qmin target_sec M)).
  assert (HM : 1 # 2 <= M).
  { pose proof (qmax_l (1 # 2) min_sec). pose proof (qmax_l m max_sec).
    fold m in H. fold M in H0. lra. }
  destruct (split_all_total m t M HM (merge_back m (merge_short m s0 e0 rest)))
    as (split & ->).
  destruct (cleanup_total m t M HM split []) as (cleaned & ->).
  eexists; reflexivity.
Qed.


Lemma qmin_eq_l a b : a <= b -> qmin a b == a.
Proof. unfold qmin; intro; destruct (Qlt_le_dec b a); lra. Qed.




Section Scheduler.

Variable clips : list Clip.
Variable shot_map : list (shot_ident * shot_meta).
Variable sims : nat -> nat -> Q.
Variable dedup_window_sec : Z.
Variables keyword_boost subtitle_heavy_penalty min_same_source_gap_sec : Q.

Lemma candidates_spec dedup shot_best used out_t target k :
  5 # 100 <= target ->
  In k (candidates dedup shot_map shot_best used out_t dedup_window_sec target) ->
  fits shot_map target k
  /\ (dedup = true -> cooled used out_t dedup_window_sec (k_src k) (k_sid k)).
Proof.
  intro Htarget. unfold candidates. rewrite in_flat_map.
  intros ([[src sid] [[sc ci] hit]] & _ & Hin).
  destruct (dict_get shot_map (src, sid)) as [m|] eqn:Em; [|contradiction].
  destruct (Qlt_le_dec _ target) as [Hshort|Hfit]; [contradiction|].
  assert (Hk : k = mk_cand hit sc (qmax 0 (m_end m - m_start m)) src sid ci ->
               fits shot_map target k).
  { intros ->. exists m. simpl. split; [exact Em|].
    unfold qmax in Hfit. destruct (Qlt_le_dec 0 (m_end m - m_start m)); lra. }
  destruct dedup.
  - destruct (used_get used (_shot_key src sid)) as [last_t|] eqn:Eu.
    + destruct (Qlt_le_dec (out_t - last_t) (inject_Z dedup_window_sec));
        [contradiction|].
      destruct Hin as [<-|[]]. split; [now apply Hk|].
      intros _ t Ht. simpl in Ht. rewrite Eu in Ht. injection Ht as <-. exact q.
    + destruct Hin as [<-|[]]. split; [now apply Hk|].
      intros _ t Ht. simpl in Ht. rewrite Eu in Ht. discriminate.
  - destruct Hin as [<-|[]]. split; [now apply Hk | discriminate].
Qed.

Lemma In_insert_desc x l : forall k, In k (insert_desc x l) <-> k = x \/ In k l.
Proof.
  induction l as [|y l IH]; intro k; simpl.
  - intuition.
  - destruct (key_gt y x); simpl; [rewrite IH|]; intuition.
Qed.

Lemma In_sort_desc l : forall k, In k (sort_desc l) <-> In k l.
Proof.
  induction l as [|x l IH]; intro k; simpl; [tauto|].
  rewrite In_insert_desc, IH. intuition.
Qed.

Lemma In_firstn {A} (n : nat) : forall (l : list A) x, In x (firstn n l) -> In x l.
Proof.
  induction n as [|n IH]; intros [|y l] x H; simpl in *; try contradiction.
  destruct H as [->|H]; auto.
Qed.


Lemma placement_ok ss se mid target :
  0 < target -> target <= se - ss + (1 # 1000000) ->
  ss <= qmax ss (qmin (mid - target / 2) (se - target))
  /\ qmax ss (qmin (mid - target / 2) (se - target)) + target <= se + (1 # 1000000)
  /\ (target <= se - ss ->
      qmax ss (qmin (mid - target / 2) (se - target)) + target <= se).
Proof.
  intros H0 H1. unfold qmax, qmin.
  destruct (Qlt_le_dec (se - target) (mid - target / 2));
    destruct (Qlt_le_dec ss _); repeat split; intros; lra.
Qed.

Lemma make_segment_placed ui text k c in_t ss se stt ent target :
  0 < target -> ss <= in_t -> in_t + target <= se + (1 # 1000000) ->
  (target <= se - ss -> in_t + target <= se) ->
  well_placed target (make_segment ui text k c in_t (in_t + target) ss se stt ent).
Proof.
  intros H0 H1 H2 H3. unfold well_placed; simpl.
  repeat split; try lra.
Qed.

Lemma place_first_spec st ui text target stt ent cands : forall seg,
  0 < target ->
  place_first cands shot_map clips st min_same_source_gap_sec ui text target stt ent
  = Some seg ->
  placed_from cands ui text target stt ent seg.
Proof.
  intros seg H0.
  induction cands as [|k rest IH]; simpl; [discriminate|].
  assert (Hnext : place_first rest shot_map clips st min_same_source_gap_sec
                    ui text target stt ent = Some seg ->
                  placed_from (k :: rest) ui text target stt ent seg).
  { intro H. destruct (IH H) as (k' & Hin & Hr). exists k'. split; [now right | exact Hr]. }
  destruct (dict_get shot_map (k_src k, k_sid k)) as [m|]; [|exact Hnext].
  destruct (Qlt_le_dec _ target) as [|Hfit]; [exact Hnext|].
  set (c := nth (k_ci k) clips dummy_clip).
  set (mid := (get_or (c_start c) (m_start m) + get_or (c_end c) (m_end m)) / 2).
  destruct (placement_ok (m_start m) (m_end m) mid target H0 Hfit) as (P1 & P2 & P3).
  set (in_t := qmax (m_start m) (qmin (mid - target / 2) (m_end m - target))) in *.
  assert (Hplain : placed_from (k :: rest) ui text target stt ent
                     (make_segment ui text k c in_t (in_t + target)
                        (m_start m) (m_end m) stt ent)).
  { exists k. split; [now left|]. do 6 (split; [reflexivity|]).
    apply make_segment_placed; auto. }
  destruct (st_prev_out_src_t st) as [prev_out|];
    [|intro H; injection H as <-; exact Hplain].
  destruct (is_nonempty_some (st_prev_src st) && _);
    [|intro H; injection H as <-; exact Hplain].
  destruct (Qlt_le_dec in_t _); [|intro H; injection H as <-; exact Hplain].
  set (shifted := qmin (qmax in_t _) (m_end m - target)).
  destruct (Qlt_le_dec (in_t + (1 # 1000)) shifted) as [Hs|]; [|exact Hnext].
  intro H; injection H as <-.
  exists k. split; [now left|]. do 6 (split; [reflexivity|]).
  pose proof (qmin_r (qmax in_t (prev_out + qmax 0 min_same_source_gap_sec))
                (m_end m - target)) as Hr.
  fold shifted in Hr.
  apply make_segment_placed; auto; try lra; intro; lra.
Qed.


Lemma In_rank_candidates cand k : In k (rank_candidates cand) -> In k cand.
Proof.
  unfold rank_candidates. rewrite In_sort_desc.
  destruct (existsb _ cand); [|auto].
  destruct (filter (fun k => (0 <? k_hit k)%Z) cand) as [|h hs] eqn:E; [auto|].
  rewrite <- E. intro H. apply filter_In in H. tauto.
Qed.

Lemma choose_segment_spec cand st ui text target stt ent seg :
  0 < target -> (forall k, In k cand -> fits shot_map target k) ->
  choose_segment cand shot_map clips st min_same_source_gap_sec
    ui text target stt ent = inr seg ->
  placed_from cand ui text target stt ent seg.
Proof.
  intros H0 Hfits. unfold choose_segment.
  destruct (place_first _ _ _ _ _ _ _ _ _ _) as [chosen|] eqn:E.
  - intro H. injection H as <-.
    destruct (place_first_spec _ _ _ _ _ _ _ _ H0 E) as (k & Hin & Hr).
    exists k. split; [exact (In_firstn _ _ _ Hin) | exact Hr].
  - destruct cand as [|k rest]; [discriminate|].
    destruct (Hfits k (or_introl eq_refl)) as (m & -> & Hlen).
    intro H. injection H as <-.
    exists k. split; [now left|]. do 6 (split; [reflexivity|]).
    destruct (placement_ok (m_start m) (m_end m)
                ((get_or (c_start (nth (k_ci k) clips dummy_clip)) (m_start m)
                  + get_or (c_end (nth (k_ci k) clips dummy_clip)) (m_end m)) / 2)
                target H0 Hlen) as (P1 & P2 & P3).
    apply make_segment_placed; auto.
Qed.

Lemma tier_candidates_spec shot_best used out_t target cand tr :
  5 # 100 <= target ->
  tier_candidates shot_map shot_best used out_t dedup_window_sec target
  = inr (cand, tr) ->
  forall k, In k cand ->
    fits shot_map target k
    /\ (tr = Tier1 -> cooled used out_t dedup_window_sec (k_src k) (k_sid k)).
Proof.
  intros Ht. unfold tier_candidates.
  destruct (candidates true _ _ _ _ _ _) as [|k1 c1] eqn:E1.
  - destruct (candidates false _ _ _ _ _ _) as [|k2 c2] eqn:E2.
    + destruct shot_best; discriminate.
    + intro H. injection H as <- <-. intros k Hin. rewrite <- E2 in Hin.
      destruct (candidates_spec _ _ _ _ _ _ Ht Hin) as [Hf _].
      split; [exact Hf | discriminate].
  - intro H. injection H as <- <-. intros k Hin. rewrite <- E1 in Hin.
    destruct (candidates_spec _ _ _ _ _ _ Ht Hin) as [Hf Hc].
    split; [exact Hf | intros _; now apply Hc].
Qed.

Lemma pick_unit_spec st ui text hints stt ent p :
  pick_unit clips shot_map sims dedup_window_sec keyword_boost
    subtitle_heavy_penalty min_same_source_gap_sec st ui text hints (stt, ent)
  = inr p ->
  p_target p = qmax (5 # 100) (ent - stt)
  /\ p_out_t p = st_out_t st
  /\ seg_unit_i (p_segment p) = ui
  /\ seg_start (p_segment p) = stt /\ seg_end (p_segment p) = ent
  /\ well_placed (p_target p) (p_segment p)
  /\ (p_tier p = Tier1 ->
      cooled (st_used st) (st_out_t st) dedup_window_sec
        (seg_source (p_segment p)) (seg_shot_id (p_segment p))).
Proof.
  unfold pick_unit. cbv zeta.
  set (target := qmax (5 # 100) (ent - stt)).
  assert (Ht : 5 # 100 <= target) by apply qmax_l.
  assert (H0 : 0 < target) by lra.
  destruct (tier_candidates _ _ _ _ _ _) as [err|[cand tr]] eqn:Et; [discriminate|].
  pose proof (tier_candidates_spec _ _ _ _ _ _ Ht Et) as Hc.
  destruct (choose_segment _ _ _ _ _ _ _ _ _ _) as [err|chosen] eqn:Ec;
    [discriminate|].
  intro H. injection H as <-. simpl.
  destruct (choose_segment_spec _ _ _ _ _ _ _ _ H0
              (fun k Hin => proj1 (Hc k (In_rank_candidates _ _ Hin))) Ec)
    as (k & Hin & Hs & Hi & Hu & _ & Hst & Hen & Hw).
  repeat (split; [assumption || reflexivity|]).
  intro Htr. rewrite Hs, Hi.
  exact (proj2 (Hc k (In_rank_candidates _ _ Hin)) Htr).
Qed.


Variable unit_hints : list (list pystr).
Variable unit_times : list (Q * Q).

Local Abbreviation run_loop :=
  (unit_loop clips shot_map sims dedup_window_sec keyword_boost
     subtitle_heavy_penalty min_same_source_gap_sec unit_hints unit_times).

Local Abbreviation pick_at ps j := (nth j ps dummy_pick).

Lemma unit_loop_cons st ui text rest ps :
  run_loop st ui (text :: rest) = inr ps ->
  exists p ps',
    ps = p :: ps'
    /\ pick_unit clips shot_map sims dedup_window_sec keyword_boost
         subtitle_heavy_penalty min_same_source_gap_sec st ui text
         (nth ui unit_hints []) (nth ui unit_times (0, 0)) = inr p
    /\ run_loop (commit st p) (S ui) rest = inr ps'.
Proof.
  cbn [unit_loop].
  destruct (pick_unit _ _ _ _ _ _ _ _ _ _ _ _) as [e|p] eqn:Ep; [discriminate|].
  destruct (unit_loop _ _ _ _ _ _ _ _ _ _ _ _) as [e|ps'] eqn:El; [discriminate|].
  intro H. injection H as <-. exists p, ps'. repeat split; assumption.
Qed.

(** Every pick of a run: its unit, its times and its window. *)
Lemma unit_loop_picks texts : forall st ui ps,
  run_loop st ui texts = inr ps ->
  length ps = length texts
  /\ forall j, (j < length ps)%nat ->
       seg_unit_i (p_segment (pick_at ps j)) = (ui + j)%nat
       /\ (seg_start (p_segment (pick_at ps j)), seg_end (p_segment (pick_at ps j)))
          = nth (ui + j) unit_times (0, 0)
       /\ p_target (pick_at ps j) = unit_target (p_segment (pick_at ps j))
       /\ well_placed (p_target (pick_at ps j)) (p_segment (pick_at ps j)).
Proof.
  induction texts as [|text rest IH]; intros st ui ps H.
  - injection H as <-. split; [reflexivity | simpl; intros; lia].
  - destruct (unit_loop_cons _ _ _ _ _ H) as (p & ps' & -> & Hp & Hrest).
    destruct (IH _ _ _ Hrest) as [L Hj].
    split; [simpl; now rewrite L|].
    intros [|j] Hlt.
    + cbn [nth]. rewrite Nat.add_0_r.
      destruct (nth ui unit_times (0, 0)) as [stt ent] eqn:Et.
      destruct (pick_unit_spec _ _ _ _ _ _ _ Hp) as (T & _ & U & S1 & S2 & W & _).
      split; [exact U|]. split; [now rewrite S1, S2|].
      split; [unfold unit_target; now rewrite S1, S2, T | exact W].
    + cbn [nth]. replace (ui + S j)%nat with (S ui + j)%nat by lia.
      apply Hj. simpl in Hlt. lia.
Qed.

(** The output time of a pick is the state's; each later one adds the
    target emitted in between. *)
Lemma unit_loop_out_t texts : forall st ui ps,
  run_loop st ui texts = inr ps ->
  (forall j, (j < length ps)%nat -> st_out_t st <= p_out_t (pick_at ps j))
  /\ (forall j, (S j < length ps)%nat ->
        p_out_t (pick_at ps (S j)) = p_out_t (pick_at ps j) + p_target (pick_at ps j)).
Proof.
  induction texts as [|text rest IH]; intros st ui ps H.
  - injection H as <-. split; simpl; intros; lia.
  - destruct (unit_loop_cons _ _ _ _ _ H) as (p & ps' & -> & Hp & Hrest).
    destruct (IH _ _ _ Hrest) as [Hge Hchain].
    destruct (nth ui unit_times (0, 0)) as [stt ent] eqn:Et.
    destruct (pick_unit_spec _ _ _ _ _ _ _ Hp) as (T & O & _).
    assert (Htp : 0 <= p_target p) by (rewrite T; pose proof (qmax_l (5 # 100) (ent - stt)); lra).
    split.
    + intros [|j] Hlt; cbn [nth]; [rewrite O; lra|].
      specialize (Hge j ltac:(simpl in Hlt; lia)). simpl in Hge. lra.
    + intros [|j] Hlt; cbn [nth].
      * destruct ps' as [|p' ps'']; [simpl in Hlt; lia|].
        destruct rest as [|text' rest']; [discriminate|].
        destruct (unit_loop_cons _ _ _ _ _ Hrest) as (q & qs & Eq & Hq & _).
        injection Eq as -> ->.
        destruct (nth (S ui) unit_times (0, 0)) as [stt' ent'].
        destruct (pick_unit_spec _ _ _ _ _ _ _ Hq) as (_ & O' & _).
        cbn [nth]. rewrite O', O. reflexivity.
      * apply Hchain. simpl in Hlt. lia.
Qed.


Lemma used_get_set_same u : forall k v, used_get (used_set u k v) k = Some v.
Proof.
  induction u as [|[k0 v0] u IH]; intros k v; simpl.
  - now rewrite str_eqb_refl.
  - destruct (str_eqb k0 k) eqn:E; simpl; rewrite E; [reflexivity | apply IH].
Qed.

Lemma used_get_set_other u : forall k k' v,
  k <> k' -> used_get (used_set u k v) k' = used_get u k'.
Proof.
  induction u as [|[k0 v0] u IH]; intros k k' v Hne; simpl.
  - destruct (str_eqb k k') eqn:E; [|reflexivity].
    apply str_eqb_eq in E. contradiction.
  - destruct (str_eqb k0 k) eqn:E; simpl.
    + apply str_eqb_eq in E. subst k0.
      destruct (str_eqb k k') eqn:E'; [|reflexivity].
      apply str_eqb_eq in E'. contradiction.
    + destruct (str_eqb k0 k'); [reflexivity | now apply IH].
Qed.

Lemma str_eq_dec (a b : pystr) : {a = b} + {a <> b}.
Proof.
  destruct (str_eqb a b) eqn:E; [left; now apply str_eqb_eq|].
  right. intro H. apply str_eqb_eq in H. congruence.
Qed.

Local Abbreviation key_of p :=
  (_shot_key (seg_source (p_segment p)) (seg_shot_id (p_segment p))).

Lemma commit_bounded st p :
  used_bounded st -> p_out_t p = st_out_t st -> 0 <= p_target p ->
  used_bounded (commit st p).
Proof.
  intros Hb Ho Ht k t. unfold commit; simpl.
  destruct (str_eq_dec (key_of p) k) as [<-|Hne].
  - rewrite used_get_set_same. intro H; injection H as <-. lra.
  - rewrite used_get_set_other by exact Hne. intro H.
    specialize (Hb _ _ H). lra.
Qed.

Lemma unit_loop_cooldown texts : forall st ui ps,
  used_bounded st -> run_loop st ui texts = inr ps ->
  Forall (fun p => p_tier p = Tier1) ps ->
  forall j t, (j < length ps)%nat ->
    used_get (st_used st) (key_of (pick_at ps j)) = Some t ->
    inject_Z dedup_window_sec <= p_out_t (pick_at ps j) - t.
Proof.
  induction texts as [|text rest IH]; intros st ui ps Hb H Ht1 j t Hlt Hu.
  - injection H as <-. simpl in Hlt. lia.
  - destruct (unit_loop_cons _ _ _ _ _ H) as (p & ps' & -> & Hp & Hrest).
    inversion Ht1 as [|? ? Hp1 Hps1]; subst.
    destruct (nth ui unit_times (0, 0)) as [stt ent].
    destruct (pick_unit_spec _ _ _ _ _ _ _ Hp) as (T & O & _ & _ & _ & _ & Hc).
    assert (Htp : 0 <= p_target p)
      by (rewrite T; pose proof (qmax_l (5 # 100) (ent - stt)); lra).
    destruct j as [|j]; cbn [nth] in *.
    + rewrite O. exact (Hc Hp1 t Hu).
    + pose proof (commit_bounded st p Hb O Htp) as Hb'.
      assert (Hlt' : (j < length ps')%nat) by (simpl in Hlt; lia).
      destruct (str_eq_dec (key_of p) (key_of (pick_at ps' j))) as [E|Hne].
      * assert (Hu' : used_get (st_used (commit st p)) (key_of (pick_at ps' j))
                      = Some (st_out_t st)).
        { unfold commit; simpl. rewrite <- E. apply used_get_set_same. }
        pose proof (IH _ _ _ Hb' Hrest Hps1 j _ Hlt' Hu') as Hw.
        pose proof (Hb _ _ Hu). lra.
      * apply (IH _ _ _ Hb' Hrest Hps1 j t Hlt').
        unfold commit; simpl. rewrite used_get_set_other by exact Hne. exact Hu.
Qed.

Lemma unit_loop_novel texts : forall st ui ps,
  used_bounded st -> run_loop st ui texts = inr ps ->
  Forall (fun p => p_tier p = Tier1) ps ->
  forall i j, (i < j < length ps)%nat ->
    same_shot (p_segment (pick_at ps i)) (p_segment (pick_at ps j)) ->
    inject_Z dedup_window_sec <= p_out_t (pick_at ps j) - p_out_t (pick_at ps i).
Proof.
  induction texts as [|text rest IH]; intros st ui ps Hb H Ht1 i j Hij Hsame.
  - injection H as <-. simpl in Hij. lia.
  - destruct (unit_loop_cons _ _ _ _ _ H) as (p & ps' & -> & Hp & Hrest).
    inversion Ht1 as [|? ? Hp1 Hps1]; subst.
    destruct (nth ui unit_times (0, 0)) as [stt ent].
    destruct (pick_unit_spec _ _ _ _ _ _ _ Hp) as (T & O & _).
    assert (Htp : 0 <= p_target p)
      by (rewrite T; pose proof (qmax_l (5 # 100) (ent - stt)); lra).
    pose proof (commit_bounded st p Hb O Htp) as Hb'.
    destruct j as [|j]; [lia|]. simpl in Hij.
    destruct i as [|i]; cbn [nth] in *.
    + rewrite O.
      apply (unit_loop_cooldown rest _ _ _ Hb' Hrest Hps1 j); [lia|].
      destruct Hsame as [<- <-]. unfold commit; simpl.
      apply used_get_set_same.
    + apply (IH _ _ _ Hb' Hrest Hps1 i j); [lia | exact Hsame].
Qed.

End Scheduler.

Lemma emitted_between_out_t ps :
  (forall j, (S j < length ps)%nat ->
     p_out_t (nth (S j) ps dummy_pick)
     = p_out_t (nth j ps dummy_pick) + p_target (nth j ps dummy_pick)) ->
  forall i j, (i <= j < length ps)%nat ->
    p_out_t (nth j ps dummy_pick)
    == p_out_t (nth i ps dummy_pick) + emitted_between ps i j.
Proof.
  induction ps as [|p ps IH]; intros Hchain i j Hij; [simpl in Hij; lia|].
  assert (Hchain' : forall j, (S j < length ps)%nat ->
            p_out_t (nth (S j) ps dummy_pick)
            = p_out_t (nth j ps dummy_pick) + p_target (nth j ps dummy_pick)).
  { intros k Hk. apply (Hchain (S k)). simpl. lia. }
  destruct i as [|i]; destruct j as [|j]; try lia.
  - unfold emitted_between. simpl. lra.
  - assert (Hj : (0 <= j < length ps)%nat) by (simpl in Hij; lia).
    pose proof (IH Hchain' 0%nat j Hj) as E.
    unfold emitted_between in *. rewrite Nat.sub_0_r in *.
    cbn [skipn firstn fold_right nth] in *.
    rewrite E.
    destruct ps as [|q ps]; [simpl in Hj; lia|].
    pose proof (Hchain 0%nat ltac:(simpl; lia)) as H0. cbn [nth] in H0.
    cbn [nth]. rewrite H0. lra.
  - assert (Hj : (i <= j < length ps)%nat) by (simpl in Hij; lia).
    pose proof (IH Hchain' i j Hj) as E.
    unfold emitted_between in *. cbn [skipn nth Nat.sub] in *. exact E.
Qed.

Lemma schedule_trace_run unit_texts unit_hints unit_times clips sims
  dedup_window_sec keyword_boost subtitle_heavy_penalty min_same_source_gap_sec picks :
  schedule_trace unit_texts unit_hints unit_times clips sims dedup_window_sec
    keyword_boost subtitle_heavy_penalty min_same_source_gap_sec = inr picks ->
  exists hints shot_map,
    unit_loop clips shot_map sims dedup_window_sec keyword_boost
      subtitle_heavy_penalty min_same_source_gap_sec hints unit_times
      (mk_state [] 0 None None) 0 unit_texts = inr picks.
Proof.
  unfold schedule_trace.
  destruct unit_texts as [|text rest] eqn:Et.
  { intro H. injection H as <-. exists [], []. reflexivity. }
  rewrite <- Et. clear Et.
  destruct unit_times as [|ut uts] eqn:Eu; [discriminate|]. rewrite <- Eu.
  destruct (negb _); [discriminate|].
  destruct (_build_shot_index clips) as [|sm0 sms] eqn:Es; [discriminate|].
  intro H. eexists. eexists. exact H.
Qed.

Lemma used_bounded_init : used_bounded (mk_state [] 0 None None).
Proof. intros k t H. discriminate. Qed.




(** C5: in a scheduling run in which every unit finds its candidates in
    the first candidate loop (neither fallback is triggered), two units
    that are given the same shot (source path and shot id) are separated
    by at least [dedup_window_sec] seconds of output: the targets emitted
    from the earlier selection up to the later one, which is also the
    difference of the output times at which the two are recorded. *)
Theorem scheduler_novelty unit_texts unit_hints unit_times clips sims
  dedup_window_sec keyword_boost subtitle_heavy_penalty min_same_source_gap_sec picks :
  schedule_trace unit_texts unit_hints unit_times clips sims dedup_window_sec
    keyword_boost subtitle_heavy_penalty min_same_source_gap_sec = inr picks ->
  Forall (fun p => p_tier p = Tier1) picks ->
  _pick_visual_segments_edgetts unit_texts unit_hints unit_times clips sims
    dedup_window_sec keyword_boost subtitle_heavy_penalty
    min_same_source_gap_sec = inr (map p_segment picks)
  /\ forall i j, (i < j < length picks)%nat ->
       same_shot (p_segment (nth i picks dummy_pick))
                 (p_segment (nth j picks dummy_pick)) ->
       inject_Z dedup_window_sec <= emitted_between picks i j
       /\ emitted_between picks i j
          == p_out_t (nth j picks dummy_pick) - p_out_t (nth i picks dummy_pick).
Proof.
  intros E Ht1. split.
  { unfold _pick_visual_segments_edgetts. now rewrite E. }
  destruct (schedule_trace_run _ _ _ _ _ _ _ _ _ _ E) as (hints & shot_map & Hrun).
  intros i j Hij Hsame.
  pose proof (unit_loop_novel _ _ _ _ _ _ _ _ _ _ _ _ _ used_bounded_init
                Hrun Ht1 i j Hij Hsame) as Hn.
  destruct (unit_loop_out_t _ _ _ _ _ _ _ _ _ _ _ _ _ Hrun) as [_ Hchain].
  pose proof (emitted_between_out_t picks Hchain i j ltac:(lia)) as He.
  split; lra.
Qed.

Lemma scheduler_novelty_witness :
  exists picks,
    schedule_trace [[65%Z]; [66%Z]] [] [(0, 1); (1, 2)]
      [clip_a; clip_b] (fun _ _ => 0) 60 (1 # 10) (6 # 100) (8 # 10) = inr picks
    /\ _pick_visual_segments_edgetts [[65%Z]; [66%Z]] [] [(0, 1); (1, 2)]
         [clip_a; clip_b] (fun _ _ => 0) 60 (1 # 10) (6 # 100) (8 # 10)
       = inr (map p_segment picks).
Proof.
  destruct (schedule_trace [[65%Z]; [66%Z]] [] [(0, 1); (1, 2)]
              [clip_a; clip_b] (fun _ _ => 0) 60 (1 # 10) (6 # 100) (8 # 10))
    as [e|picks] eqn:E; [vm_compute in E; discriminate|].
  exists picks. split; [reflexivity|].
  apply (scheduler_novelty _ _ _ _ _ _ _ _ _ _ E).
  vm_compute in E. injection E as <-. repeat constructor.
Defined.

Section SplitScript.

Lemma lstrip_head s c r : lstrip s = c :: r -> is_space c = false.
Proof.
  induction s as [|x s IH]; simpl; [discriminate|].
  destruct (is_space x) eqn:E; [exact IH|].
  intro H. injection H as <- _. exact E.
Qed.

Lemma remove_spaces_app a b :
  remove_spaces (a ++ b) = remove_spaces a ++ remove_spaces b.
Proof. apply filter_app. Qed.

Lemma strip_nonempty_iff s : strip s <> [] <-> remove_spaces s <> [].
Proof.
  split; intro H.
  - rewrite <- remove_spaces_strip.
    unfold strip, rstrip in *.
    destruct (lstrip (rev (lstrip s))) as [|c r] eqn:E; [now elim H|].
    pose proof (lstrip_head _ _ _ E) as Hc.
    simpl. rewrite remove_spaces_app. simpl. rewrite Hc. simpl.
    intro F. apply app_eq_nil in F as [_ F]. discriminate.
  - intro F. apply H. rewrite <- remove_spaces_strip, F. reflexivity.
Qed.







End SplitScript.

Section SplitKeeps.

Variable w : pystr.
Hypothesis w_nonempty : w <> [].
Hypothesis w_head : is_space (hd 0%Z w) = false.
Hypothesis w_last : is_space (last w 0%Z) = false.








End SplitKeeps.



Lemma quote_chars_not_space :
  is_space quote_open = false /\ is_space quote_close = false
  /\ is_space quote_ascii = false.
Proof. repeat split; reflexivity. Qed.





Lemma strip_id s :
  s <> [] -> is_space (hd 0%Z s) = false -> is_space (last s 0%Z) = false ->
  strip s = s.
Proof.
  intros Hne Hh Hl.
  assert (L : forall t : pystr, t <> [] -> is_space (hd 0%Z t) = false -> lstrip t = t).
  { intros [|c t] Ht Hc; [congruence|]. simpl in *. now rewrite Hc. }
  unfold strip, rstrip. rewrite (L s Hne Hh).
  rewrite L; [apply rev_involutive | |].
  - intro F. apply (f_equal (@rev _)) in F. rewrite rev_involutive in F. now apply Hne.
  - destruct (exists_last Hne) as (l & c & ->).
    rewrite last_last in Hl. rewrite rev_app_distr. exact Hl.
Qed.














Section SimilarityUse.

Variable clips : list Clip.
Variables sims1 sims2 : nat -> nat -> Q.





End SimilarityUse.



(** ** Further properties of [split_one_line] *)

Section SplitOneLine.

Local Open Scope Z_scope.

Lemma visible_fold l : forall n,
  fold_left (fun n ch => if is_punct ch then n else n + 1) l n = n + nvis l.
Proof.
  unfold nvis. induction l as [|c l IH]; intro n; cbn [fold_left filter].
  - simpl. lia.
  - rewrite IH. destruct (is_punct c); cbn [negb length]; lia.
Qed.

Lemma remove_spaces_spaceless s : spaceless s -> remove_spaces s = s.
Proof.
  unfold remove_spaces. induction 1 as [|c l Hc _ IH]; [reflexivity|].
  cbn [filter]. rewrite Hc. cbn [negb]. now rewrite IH.
Qed.

Lemma spaceless_remove_spaces s : spaceless (remove_spaces s).
Proof.
  unfold spaceless, remove_spaces. apply Forall_forall. intros c H.
  apply filter_In in H as [_ H]. now destruct (is_space c).
Qed.

Lemma visible_len_spaceless s : spaceless s -> _visible_len_zh s = nvis s.
Proof.
  intro H. unfold _visible_len_zh. rewrite (remove_spaces_spaceless s H).
  rewrite visible_fold. lia.
Qed.

Lemma nvis_app a b : nvis (a ++ b) = nvis a + nvis b.
Proof. unfold nvis. rewrite filter_app, length_app. lia. Qed.

Lemma nvis_nonneg a : 0 <= nvis a.
Proof. unfold nvis. lia. Qed.

Lemma nvis_split k a : nvis a = nvis (firstn k a) + nvis (skipn k a).
Proof. now rewrite <- nvis_app, firstn_skipn. Qed.

Lemma rescan_fold cur : forall i pos n tmp pre,
  i = Z.of_nat (length pre) -> tmp = nvis pre ->
  (pos = -1 \/ (0 < pos <= i /\ n = nvis (firstn (Z.to_nat pos) (pre ++ cur)))) ->
  let '(_, pos', n', _) :=
    fold_left
      (fun (acc : Z * Z * Z * Z) ch =>
         let '(i, pos, n, tmp_n) := acc in
         if is_punct ch then (i + 1, i + 1, tmp_n, tmp_n)
         else (i + 1, pos, n, tmp_n + 1))
      cur (i, pos, n, tmp) in
  pos' = -1 \/ (0 < pos' <= Z.of_nat (length (pre ++ cur))
                /\ n' = nvis (firstn (Z.to_nat pos') (pre ++ cur))).
Proof.
  induction cur as [|c cur IH]; intros i pos n tmp pre Hi Ht Hp; cbn [fold_left].
  - rewrite app_nil_r in *. destruct Hp as [Hp|[Hp Hn]]; [now left|right].
    split; [lia|exact Hn].
  - replace (pre ++ c :: cur) with ((pre ++ [c]) ++ cur) in *
      by (now rewrite <- app_assoc).
    destruct (is_punct c) eqn:Ec.
    + apply IH.
      * rewrite length_app. simpl. lia.
      * rewrite nvis_app. unfold nvis at 2. cbn [filter]. rewrite Ec. simpl. lia.
      * right. split; [lia|].
        replace (Z.to_nat (i + 1)) with (length (pre ++ [c]))
          by (rewrite length_app; simpl; lia).
        rewrite firstn_app, Nat.sub_diag, firstn_O, app_nil_r, firstn_all.
        rewrite nvis_app. unfold nvis at 2. cbn [filter]. rewrite Ec. simpl. lia.
    + apply IH.
      * rewrite length_app. simpl. lia.
      * rewrite nvis_app. unfold nvis at 2. cbn [filter]. rewrite Ec. simpl. lia.
      * destruct Hp as [Hp|[Hp Hn]]; [now left|right]. split; [lia|exact Hn].
Qed.

Lemma rescan_punct_spec cur :
  let '(pos, n) := rescan_punct cur in
  pos = -1 \/ (0 < pos <= Z.of_nat (length cur)
               /\ n = nvis (firstn (Z.to_nat pos) cur)).
Proof.
  unfold rescan_punct.
  pose proof (rescan_fold cur 0 (-1) 0 0 [] eq_refl eq_refl (or_introl eq_refl)) as H.
  cbn [app] in H.
  destruct (fold_left _ cur (0, -1, 0, 0)) as [[[i pos] n] tmp]. exact H.
Qed.

Lemma hard_cut_spec pre : forall c i tmp m,
  is_punct c = false ->
  tmp + nvis pre <= m -> m < tmp + nvis pre + 1 ->
  hard_cut_from (pre ++ [c]) i tmp m = i + Z.of_nat (length pre).
Proof.
  induction pre as [|x pre IH]; intros c i tmp m Hc Hm Hm'; cbn [app hard_cut_from].
  - rewrite Hc. unfold nvis in Hm, Hm'. simpl in Hm, Hm'.
    destruct (Z.gtb_spec (tmp + 1) m); simpl; lia.
  - assert (Hx : nvis (x :: pre) = (if is_punct x then 0 else 1) + nvis pre).
    { unfold nvis. cbn [filter]. destruct (is_punct x); cbn [negb length]; lia. }
    pose proof (nvis_nonneg pre).
    destruct (is_punct x) eqn:Ex.
    + destruct (Z.gtb_spec tmp m); [lia|].
      rewrite IH by (auto; lia). cbn [length]. lia.
    + destruct (Z.gtb_spec (tmp + 1) m); [lia|].
      rewrite IH by (auto; lia). cbn [length]. lia.
Qed.

Variable m : Z.
Hypothesis m_pos : 1 <= m.

Lemma flush_at_inv done st pos :
  spaceless done ->
  concat (sp_out st) ++ sp_cur st = done ->
  Forall (fun c => c <> [] /\ nvis c <= m) (sp_out st) ->
  0 < pos <= Z.of_nat (length (sp_cur st)) ->
  nvis (firstn (Z.to_nat pos) (sp_cur st)) <= m ->
  nvis (skipn (Z.to_nat pos) (sp_cur st)) <= m ->
  split_inv m done (flush_at st pos).
Proof.
  intros Hsp Hcat Hout Hpos Hchunk Hrest. unfold flush_at.
  destruct (Z.leb_spec pos 0); [lia|].
  pose proof (rescan_punct_spec (skipn (Z.to_nat pos) (sp_cur st))) as Hr.
  destruct (rescan_punct _) as [lp ln].
  assert (Hsl : spaceless (skipn (Z.to_nat pos) (sp_cur st))).
  { unfold spaceless in *. apply Forall_forall. intros c Hc.
    rewrite Forall_forall in Hsp. apply Hsp. rewrite <- Hcat.
    apply in_or_app. right. rewrite <- (firstn_skipn (Z.to_nat pos)).
    apply in_or_app. now right. }
  unfold split_inv. cbn [sp_out sp_cur sp_cur_n sp_last_punct_pos sp_last_punct_n].
  repeat split.
  - rewrite concat_app. cbn [concat]. rewrite app_nil_r, <- app_assoc.
    now rewrite firstn_skipn.
  - now apply visible_len_spaceless.
  - rewrite visible_len_spaceless by exact Hsl. exact Hrest.
  - destruct Hr as [->|[Hr _]]; lia.
  - intro Hlp. destruct Hr as [->|[_ Hr]]; [lia|exact Hr].
  - apply Forall_app. split; [exact Hout|]. constructor; [|constructor].
    split; [|exact Hchunk].
    intro E. apply (f_equal (@length Z)) in E. rewrite length_firstn in E.
    simpl in E. lia.
Qed.

Lemma split_step_inv done st ch :
  spaceless (done ++ [ch]) ->
  split_inv m done st ->
  split_inv m (done ++ [ch]) (split_step m st ch).
Proof.
  intros Hsp (Hcat & Hn & Hle & Hpos & Hlp & Hout).
  unfold split_step.
  pose proof (nvis_nonneg (sp_cur st)) as Hnn.
  assert (Hcat' : concat (sp_out st) ++ sp_cur st ++ [ch] = done ++ [ch])
    by (now rewrite app_assoc, Hcat).
  destruct (is_punct ch) eqn:Ec; cbn [sp_cur_n sp_last_punct_pos sp_last_punct_n].
  - assert (Hv : nvis (sp_cur st ++ [ch]) = nvis (sp_cur st)).
    { rewrite nvis_app. unfold nvis at 2. cbn [filter]. rewrite Ec. simpl. lia. }
    destruct (Z.leb_spec (sp_cur_n st) m); [|lia].
    unfold split_inv. cbn [sp_out sp_cur sp_cur_n sp_last_punct_pos sp_last_punct_n].
    split; [exact Hcat'|]. split; [now rewrite Hv|]. split; [lia|].
    split; [lia|]. split; [|exact Hout].
    intros _. rewrite Nat2Z.id, firstn_all. now rewrite Hv.
  - assert (Hv : nvis (sp_cur st ++ [ch]) = nvis (sp_cur st) + 1).
    { rewrite nvis_app. unfold nvis at 2. cbn [filter]. rewrite Ec. simpl. lia. }
    destruct (Z.leb_spec (sp_cur_n st + 1) m).
    + unfold split_inv. cbn [sp_out sp_cur sp_cur_n sp_last_punct_pos sp_last_punct_n].
      split; [exact Hcat'|]. split; [rewrite Hv; lia|]. split; [lia|].
      split; [rewrite length_app; simpl; lia|]. split; [|exact Hout].
      intro H0. rewrite firstn_app.
      replace (Z.to_nat (sp_last_punct_pos st) - length (sp_cur st))%nat with 0%nat by lia.
      rewrite firstn_O, app_nil_r. now apply Hlp.
    + assert (Hfull : nvis (sp_cur st) = m) by lia.
      destruct ((sp_last_punct_pos st >? 0)
                && (sp_last_punct_n st >=? Z.max 4 (m / 2))) eqn:Eb.
      * apply andb_true_iff in Eb as [Eb1 Eb2].
        apply Z.gtb_lt in Eb1. apply Z.geb_le in Eb2.
        specialize (Hlp Eb1).
        set (k := Z.to_nat (sp_last_punct_pos st)) in *.
        assert (Hfk : firstn k (sp_cur st ++ [ch]) = firstn k (sp_cur st)).
        { rewrite firstn_app. replace (k - length (sp_cur st))%nat with 0%nat by lia.
          now rewrite firstn_O, app_nil_r. }
        pose proof (nvis_split k (sp_cur st)) as Hs1.
        pose proof (nvis_split k (sp_cur st ++ [ch])) as Hs2.
        pose proof (nvis_nonneg (skipn k (sp_cur st))).
        apply flush_at_inv; cbn [sp_out sp_cur]; auto.
        -- rewrite length_app. simpl. lia.
        -- fold k. rewrite Hfk. lia.
        -- fold k. rewrite Hfk in Hs2. lia.
      * assert (Hcut : hard_cut_from (sp_cur st ++ [ch]) 0 0 m
                       = Z.of_nat (length (sp_cur st))).
        { rewrite hard_cut_spec by (auto; lia). lia. }
        rewrite Hcut.
        assert (Hlen : (0 < length (sp_cur st))%nat).
        { destruct (sp_cur st); [unfold nvis in Hfull; simpl in Hfull; lia|simpl; lia]. }
        destruct (Z.leb_spec (Z.of_nat (length (sp_cur st))) 0); [lia|].
        apply flush_at_inv; cbn [sp_out sp_cur]; auto.
        -- rewrite length_app. simpl. lia.
        -- rewrite Nat2Z.id, firstn_app, Nat.sub_diag, firstn_O, app_nil_r, firstn_all. lia.
        -- rewrite Nat2Z.id, skipn_app, Nat.sub_diag, skipn_all. cbn [skipn app].
           unfold nvis. cbn [filter]. rewrite Ec. simpl. lia.
Qed.

Lemma split_fold_inv s : forall done st,
  spaceless (done ++ s) ->
  split_inv m done st ->
  split_inv m (done ++ s) (fold_left (split_step m) s st).
Proof.
  induction s as [|ch s IH]; intros done st Hsp Hinv; cbn [fold_left].
  - now rewrite app_nil_r.
  - replace (done ++ ch :: s) with ((done ++ [ch]) ++ s) in *
      by (now rewrite <- app_assoc).
    apply IH; [exact Hsp|]. apply split_step_inv; [|exact Hinv].
    unfold spaceless in *. apply Forall_app in Hsp. tauto.
Qed.

End SplitOneLine.

Section SplitOneLineResult.

Local Open Scope Z_scope.

Lemma nonblank_spaceless c : spaceless c -> c <> [] -> nonblank c = true.
Proof.
  intros Hs Hne. unfold nonblank.
  destruct (strip c) eqn:E; [|reflexivity].
  exfalso. assert (H : strip c <> []).
  { apply strip_nonempty_iff. now rewrite remove_spaces_spaceless. }
  now apply H.
Qed.

Lemma filter_nonblank_id (l : list pystr) :
  Forall (fun c => c <> [] /\ spaceless c) l -> filter nonblank l = l.
Proof.
  induction 1 as [|c l [Hne Hs] _ IH]; [reflexivity|].
  cbn [filter]. rewrite nonblank_spaceless by assumption. now rewrite IH.
Qed.

Lemma spaceless_concat (l : list pystr) c :
  spaceless (concat l) -> In c l -> spaceless c.
Proof.
  unfold spaceless. rewrite !Forall_forall. intros H Hc x Hx.
  apply H. apply in_concat. now exists c.
Qed.

Lemma split_one_line_core text max_chars :
  concat (split_one_line text max_chars) = remove_spaces text
  /\ Forall (fun c => c <> [] /\ spaceless c /\ nvis c <= Z.max 1 max_chars)
       (split_one_line text max_chars).
Proof.
  unfold split_one_line. rewrite remove_spaces_strip.
  pose proof (spaceless_remove_spaces text) as Hsp.
  destruct (remove_spaces text) as [|c0 s0] eqn:Es; [split; [reflexivity|constructor]|].
  rewrite <- Es in *. clear Es c0 s0.
  set (m := Z.max 1 max_chars).
  set (st0 := {| sp_out := []; sp_cur := []; sp_cur_n := 0;
                 sp_last_punct_pos := -1; sp_last_punct_n := 0 |}).
  assert (H0 : split_inv m [] st0).
  { unfold split_inv, st0, nvis. simpl. repeat split; try lia. constructor. }
  pose proof (split_fold_inv m ltac:(lia) (remove_spaces text) [] st0 Hsp H0) as Hinv.
  cbn [app] in Hinv.
  destruct Hinv as (Hcat & Hn & Hle & _ & _ & Hout).
  set (st := fold_left (split_step m) (remove_spaces text) st0) in *.
  assert (Hall : spaceless (concat (sp_out st)) /\ spaceless (sp_cur st)).
  { rewrite <- Hcat in Hsp. unfold spaceless in *. now apply Forall_app in Hsp. }
  destruct Hall as [Hso Hsc].
  assert (Hout' : Forall (fun c => c <> [] /\ spaceless c /\ nvis c <= m) (sp_out st)).
  { rewrite Forall_forall in *. intros c Hc. destruct (Hout c Hc) as [A B].
    repeat split; auto. now apply (spaceless_concat (sp_out st)). }
  assert (Hres : Forall (fun c => c <> [] /\ spaceless c /\ nvis c <= m)
                   (if nonblank (sp_cur st) then sp_out st ++ [sp_cur st] else sp_out st)
                 /\ concat (if nonblank (sp_cur st) then sp_out st ++ [sp_cur st]
                            else sp_out st) = remove_spaces text).
  { destruct (sp_cur st) as [|c r] eqn:Ec.
    - change (nonblank []) with false. cbv iota. split; [exact Hout'|].
      now rewrite app_nil_r in Hcat.
    - rewrite <- Ec in *. rewrite nonblank_spaceless by (auto; rewrite Ec; discriminate).
      split.
      + apply Forall_app. split; [exact Hout'|]. constructor; [|constructor].
        repeat split; auto; [rewrite Ec; discriminate | lia].
      + rewrite concat_app. cbn [concat]. now rewrite app_nil_r. }
  destruct Hres as [HF Hc].
  rewrite filter_nonblank_id.
  - split; assumption.
  - eapply Forall_impl; [|exact HF]. cbv beta. tauto.
Qed.

(** X1.  [split_one_line] loses nothing but whitespace: joining the
    chunks it returns gives back the text with its whitespace removed. *)
Theorem split_one_line_rejoin text max_chars :
  concat (split_one_line text max_chars) = remove_spaces text.
Proof. apply split_one_line_core. Qed.

(** X2.  Every chunk returned by [split_one_line] is non-empty and shows
    at most [max(1, max_chars)] visible characters. *)
Theorem split_one_line_bound text max_chars :
  Forall (fun c => c <> [] /\ visible_len_zh c <= Z.max 1 max_chars)
    (split_one_line text max_chars).
Proof.
  eapply Forall_impl; [|apply (split_one_line_core text max_chars)].
  intros c (Hne & Hs & Hv). split; [exact Hne|].
  unfold visible_len_zh. now rewrite visible_len_spaceless.
Qed.

End SplitOneLineResult.

(** ** [_fixed_slices] *)

Section FixedSlices.



Lemma qmin_cases a b : (qmin a b = a /\ a <= b) \/ (qmin a b = b /\ b < a).
Proof. unfold qmin. destruct (Qlt_le_dec b a); [right|left]; now split. Qed.

Lemma qmax_cases a b : (qmax a b = a /\ b <= a) \/ (qmax a b = b /\ a < b).
Proof. unfold qmax. destruct (Qlt_le_dec a b); [right|left]; now split. Qed.

Variables duration clip_sec : Q.


Lemma fixed_fuel_enough :
  0 < clip_sec ->
  duration < inject_Z (Z.of_nat (fixed_fuel duration clip_sec)) * clip_sec.
Proof.
  intro Hc. unfold fixed_fuel.
  rewrite Nat2Z.inj_succ. unfold Z.succ. rewrite inject_Z_plus.
  change (inject_Z 1) with 1.
  pose proof (Qle_ceiling (duration / clip_sec)) as Hceil.
  assert (Hz : inject_Z (Qceiling (duration / clip_sec))
               <= inject_Z (Z.of_nat (Z.to_nat (Qceiling (duration / clip_sec))))).
  { rewrite <- Zle_Qle. lia. }
  assert (Hd : duration == duration / clip_sec * clip_sec) by (field; lra).
  set (k := inject_Z (Z.of_nat (Z.to_nat (Qceiling (duration / clip_sec))))) in *.
  assert (Hk : duration / clip_sec <= k) by lra.
  assert (duration / clip_sec * clip_sec <= k * clip_sec).
  { apply Qmult_le_compat_r; lra. }
  lra.
Qed.

Lemma fixed_loop_short fuel : forall t out,
  0 < clip_sec -> clip_sec < 1 # 2 ->
  duration - t < inject_Z (Z.of_nat fuel) * clip_sec ->
  fixed_loop fuel duration clip_sec t out = Some out.
Proof.
  induction fuel as [|fuel IH]; intros t out Hc Hc2 Hfuel; cbn [fixed_loop].
  - change (inject_Z (Z.of_nat 0)) with 0 in Hfuel.
    destruct (Qlt_le_dec t duration); [lra|reflexivity].
  - destruct (Qlt_le_dec t duration) as [Hlt|Hge]; [|reflexivity].
    cbv zeta.
    assert (Hf : inject_Z (Z.of_nat (S fuel)) == inject_Z (Z.of_nat fuel) + 1).
    { rewrite Nat2Z.inj_succ. unfold Z.succ. rewrite inject_Z_plus. reflexivity. }
    rewrite Hf in Hfuel.
    destruct (qmin_cases duration (t + clip_sec)) as [[E Hle]|[E Hlt2]]; rewrite E.
    + destruct (Qlt_le_dec (duration - t) (1 # 2)); [|lra].
      destruct fuel; cbn [fixed_loop];
        destruct (Qlt_le_dec duration duration); try lra; reflexivity.
    + destruct (Qlt_le_dec (t + clip_sec - t) (1 # 2)); [|lra].
      apply IH; auto. lra.
Qed.

Lemma fixed_loop_stuck fuel : forall t out,
  clip_sec <= 0 -> t < duration ->
  fixed_loop fuel duration clip_sec t out = None.
Proof.
  induction fuel as [|fuel IH]; intros t out Hc Ht; cbn [fixed_loop];
    destruct (Qlt_le_dec t duration) as [Hlt|Hge]; try lra; [reflexivity|].
  cbv zeta. apply IH; [exact Hc|].
  destruct (qmin_cases duration (t + clip_sec)) as [[E Hle]|[E Hlt2]]; rewrite E; lra.
Qed.

End FixedSlices.



(** X4.  With a positive window shorter than half a second every window
    is dropped: [_fixed_slices] returns the empty list whatever the
    duration. *)
Theorem fixed_slices_short_window duration clip_sec :
  0 < clip_sec -> clip_sec < 1 # 2 ->
  _fixed_slices duration clip_sec = Some [].
Proof.
  intros Hc Hc2. unfold _fixed_slices. apply fixed_loop_short; auto.
  pose proof (fixed_fuel_enough duration clip_sec Hc). lra.
Qed.

Lemma fixed_slices_short_window_witness :
  _fixed_slices 10 (1 # 4) = Some [].
Proof.
  apply (fixed_slices_short_window 10 (1 # 4)); unfold Qlt; simpl; lia.
Defined.

(** X5.  With a window of zero or negative length and a positive
    duration the loop of [_fixed_slices] never ends: no number of turns
    is enough for a result. *)
Theorem fixed_slices_diverges duration clip_sec fuel :
  0 < duration -> clip_sec <= 0 ->
  fixed_loop fuel duration clip_sec 0 [] = None.
Proof. intros Hd Hc. now apply fixed_loop_stuck. Qed.

Lemma fixed_slices_diverges_witness :
  fixed_loop 100 1 0 0 [] = None.
Proof.
  apply (fixed_slices_diverges 1 0 100); [unfold Qlt | unfold Qle]; simpl; lia.
Defined.

(** ** [_clamp_slices], [_pick_frame_times], [_scene_raw_slices] *)

Section RoundMonotone.

Lemma round_half_even_mono x y :
  x <= y -> (round_half_even x <= round_half_even y)%Z.
Proof.
  intro H.
  pose proof (Qfloor_resp_le x y H) as Hf.
  assert (Hx : (Qfloor x <= round_half_even x <= Qfloor x + 1)%Z).
  { unfold round_half_even.
    destruct (x - inject_Z (Qfloor x) ?= 1 # 2); [destruct (Z.even _)| |]; lia. }
  assert (Hy : (Qfloor y <= round_half_even y <= Qfloor y + 1)%Z).
  { unfold round_half_even.
    destruct (y - inject_Z (Qfloor y) ?= 1 # 2); [destruct (Z.even _)| |]; lia. }
  destruct (Z.eq_dec (Qfloor x) (Qfloor y)) as [E|E]; [|lia].
  unfold round_half_even. rewrite <- E.
  destruct (Qcompare_spec (x - inject_Z (Qfloor x)) (1 # 2)) as [Ex|Ex|Ex];
    destruct (Qcompare_spec (y - inject_Z (Qfloor x)) (1 # 2)) as [Ey|Ey|Ey];
    try destruct (Z.even (Qfloor x)); try lia; lra.
Qed.

Lemma round3_mono x y : x <= y -> round3 x <= round3 y.
Proof.
  intro H. unfold round3.
  assert (Hm : x * 1000 <= y * 1000) by lra.
  pose proof (round_half_even_mono _ _ Hm) as Hz.
  unfold Qle. simpl. lia.
Qed.

End RoundMonotone.

(** X6.  Every slice [_clamp_slices] keeps lies between the rounded
    start and the rounded end of the window it clamps to, and is at most
    a millisecond shorter than [min_keep_sec]; the window starts at
    [max(0, start)] and never ends before it starts. *)
Theorem clamp_slices_inside slices start end_ min_keep_sec :
  Forall (fun se =>
            round3 (qmax 0 start) <= fst se
            /\ snd se <= round3 (qmax (qmax 0 start) end_)
            /\ min_keep_sec - (1 # 1000) <= dur se)
         (_clamp_slices slices start end_ min_keep_sec).
Proof.
  unfold _clamp_slices. cbv zeta.
  set (st := qmax 0 start). set (en := qmax st end_).
  apply Forall_forall. intros [a b] Hin.
  apply in_flat_map in Hin as ([s e] & _ & Hin). cbn [fst snd] in Hin.
  destruct (Qlt_le_dec (qmin e en - qmax s st) min_keep_sec) as [Hd|Hd];
    [contradiction|].
  destruct Hin as [Hin|[]]. injection Hin as <- <-. cbn [fst snd].
  assert (H1 : st <= qmax s st).
  { destruct (qmax_cases s st) as [[-> ?]|[-> ?]]; lra. }
  assert (H2 : qmin e en <= en).
  { destruct (qmin_cases e en) as [[-> ?]|[-> ?]]; lra. }
  split; [now apply round3_mono|]. split; [now apply round3_mono|].
  pose proof (rounded_dur (qmax s st, qmin e en)) as [Hr _].
  unfold dur in *. cbn [fst snd] in *. lra.
Qed.

Section FrameTimes.

Variables start span : Q.
Hypothesis span_pos : 0 < span.

Lemma frame_times_rising (n : Z) (len : nat) : forall k0 : nat,
  (0 < n + 1)%Z ->
  rising (start + span * (inject_Z (Z.of_nat k0) / inject_Z (n + 1)))
    (map (fun k : nat => start + span * (inject_Z (Z.of_nat k) / inject_Z (n + 1)))
         (seq (S k0) len)).
Proof.
  intros k0 Hn. revert k0.
  assert (Hd : 0 < inject_Z (n + 1)).
  { change 0 with (inject_Z 0). now rewrite <- Zlt_Qlt. }
  induction len as [|len IH]; intro k0; cbn [seq map rising]; [exact I|].
  split; [|apply IH].
  assert (Hk : inject_Z (Z.of_nat (S k0)) == inject_Z (Z.of_nat k0) + 1).
  { rewrite Nat2Z.inj_succ. unfold Z.succ. now rewrite inject_Z_plus. }
  rewrite Hk.
  assert (Hs : 0 < span * (1 / inject_Z (n + 1))).
  { apply Qmult_lt_0_compat; [lra|]. apply Qlt_shift_div_l; [exact Hd|lra]. }
  assert (E : span * ((inject_Z (Z.of_nat k0) + 1) / inject_Z (n + 1))
              == span * (inject_Z (Z.of_nat k0) / inject_Z (n + 1))
                 + span * (1 / inject_Z (n + 1))).
  { field. lra. }
  lra.
Qed.

Lemma frame_times_below (n : Z) (k : nat) :
  (Z.of_nat k < n + 1)%Z ->
  start + span * (inject_Z (Z.of_nat k) / inject_Z (n + 1)) < start + span.
Proof.
  intro Hk.
  assert (Hd : 0 < inject_Z (n + 1)).
  { change 0 with (inject_Z 0). rewrite <- Zlt_Qlt. lia. }
  assert (Hq : inject_Z (Z.of_nat k) / inject_Z (n + 1) < 1).
  { apply Qlt_shift_div_r; [exact Hd|]. rewrite Qmult_1_l. now rewrite <- Zlt_Qlt. }
  assert (H : span * (inject_Z (Z.of_nat k) / inject_Z (n + 1)) < span * 1).
  { apply Qmult_lt_l; lra. }
  lra.
Qed.

End FrameTimes.

Lemma rising_ext lo lo' l : lo' == lo -> rising lo l -> rising lo' l.
Proof.
  destruct l as [|x l]; cbn [rising]; [auto|]. intros Hl [A B].
  split; [lra|exact B].
Qed.

(** X7.  For a clip at least a microsecond long [_pick_frame_times]
    returns [max(1, n)] times, strictly increasing and all strictly
    inside the clip. *)
Theorem pick_frame_times_inside start end_ n :
  1 # 1000000 <= end_ - start ->
  length (_pick_frame_times start end_ n) = Z.to_nat (Z.max 1 n)
  /\ rising start (_pick_frame_times start end_ n)
  /\ Forall (fun t => t < end_) (_pick_frame_times start end_ n).
Proof.
  intro Hw. unfold _pick_frame_times.
  destruct (Z.leb_spec n 1) as [Hn|Hn].
  - split; [simpl; lia|]. split.
    + cbn [rising]. split; [|exact I]. apply Qlt_shift_div_l; lra.
    + constructor; [|constructor]. apply Qlt_shift_div_r; lra.
  - cbv zeta.
    assert (Hs : 0 < qmax (1 # 1000000) (end_ - start)
                 /\ start + qmax (1 # 1000000) (end_ - start) == end_).
    { destruct (qmax_cases (1 # 1000000) (end_ - start)) as [[-> ?]|[-> ?]];
        split; lra. }
    destruct Hs as [Hpos Hend].
    set (span := qmax (1 # 1000000) (end_ - start)) in *.
    assert (Hd : 0 < inject_Z (n + 1)).
    { change 0 with (inject_Z 0). rewrite <- Zlt_Qlt. lia. }
    split; [rewrite length_map, length_seq; lia|]. split.
    + apply (rising_ext (start + span * (inject_Z (Z.of_nat 0) / inject_Z (n + 1)))).
      * simpl. field. lra.
      * apply frame_times_rising; [exact Hpos|lia].
    + apply Forall_forall. intros t Ht. apply in_map_iff in Ht as (k & <- & Hk).
      apply in_seq in Hk.
      pose proof (frame_times_below start span Hpos n k ltac:(lia)). lra.
Qed.

Lemma pick_frame_times_inside_witness :
  length (_pick_frame_times 0 4 3) = Z.to_nat (Z.max 1 3)
  /\ rising 0 (_pick_frame_times 0 4 3)
  /\ Forall (fun t => t < 4) (_pick_frame_times 0 4 3).
Proof. apply (pick_frame_times_inside 0 4 3). unfold Qle. simpl. lia. Defined.

Section SceneSlices.

Lemma insert_uniq_In x l y : In y (insert_uniq x l) -> y = x \/ In y l.
Proof.
  induction l as [|z l IH]; cbn [insert_uniq].
  - intros [<-|[]]. now left.
  - destruct (Qlt_le_dec x z).
    + intros [<-|H]; [now left | now right].
    + destruct (Qeq_bool x z); [now right|].
      intros [<-|H]; [right; now left|].
      destruct (IH H) as [->|H']; [now left | right; now right].
Qed.

Lemma insert_uniq_rising x l : forall lo,
  lo < x -> rising lo l -> rising lo (insert_uniq x l).
Proof.
  induction l as [|z l IH]; intros lo Hlo Hr; cbn [insert_uniq].
  - cbn [rising]. now split.
  - destruct Hr as [Hz Hr].
    destruct (Qlt_le_dec x z) as [Hxz|Hzx].
    + cbn [rising]. repeat split; auto.
    + destruct (Qeq_bool x z) eqn:E.
      * cbn [rising]. now split.
      * cbn [rising]. split; [exact Hz|]. apply IH; [|exact Hr].
        apply Qeq_bool_neq in E. lra.
Qed.

Lemma insert_uniq_ascending x l :
  strictly_ascending l -> strictly_ascending (insert_uniq x l).
Proof.
  destruct l as [|z l]; cbn [insert_uniq strictly_ascending]; [auto|].
  intro Hr.
  destruct (Qlt_le_dec x z) as [Hxz|Hzx].
  - cbn [strictly_ascending rising]. now split.
  - destruct (Qeq_bool x z) eqn:E; cbn [strictly_ascending]; [exact Hr|].
    apply insert_uniq_rising; [|exact Hr].
    apply Qeq_bool_neq in E. lra.
Qed.

Lemma sorted_set_ascending l : strictly_ascending (sorted_set l).
Proof.
  induction l as [|x l IH]; cbn [sorted_set fold_right]; [exact I|].
  now apply insert_uniq_ascending.
Qed.

Lemma sorted_set_In l y : In y (sorted_set l) -> In y l.
Proof.
  induction l as [|x l IH]; cbn [sorted_set fold_right]; [auto|].
  intro H. apply insert_uniq_In in H as [->|H]; [now left | right; now apply IH].
Qed.

Lemma adjacent_ordered r : forall x,
  rising x r -> ordered_from x (adjacent (x :: r)).
Proof.
  induction r as [|y r IH]; intros x Hr; [exact I|].
  destruct Hr as [Hxy Hr].
  change (adjacent (x :: y :: r)) with ((x, y) :: adjacent (y :: r)).
  cbn [ordered_from]. repeat split; [lra | lra | now apply IH].
Qed.

Lemma ordered_from_filter (f : Q * Q -> bool) l : forall lo,
  ordered_from lo l -> ordered_from lo (filter f l).
Proof.
  induction l as [|[s e] l IH]; intros lo H; [exact I|].
  destruct H as (H1 & H2 & H3). cbn [filter].
  destruct (f (s, e)).
  - cbn [ordered_from]. repeat split; auto.
  - apply (ordered_from_weaken _ e); [lra | now apply IH].
Qed.

Lemma ordered_from_sorted lo l : ordered_from lo l -> sorted_slices l.
Proof.
  unfold sorted_slices. destruct l as [|[s e] l]; [auto|].
  cbn [ordered_from hd fst]. intros (_ & H2 & H3). repeat split; auto. lra.
Qed.

Lemma adjacent_In (l : list Q) a b : In (a, b) (adjacent l) -> In a l /\ In b l.
Proof.
  unfold adjacent. intro H. split.
  - now apply in_combine_l in H.
  - apply in_combine_r in H. destruct l; [contradiction | now right].
Qed.

End SceneSlices.

(** X8.  The shots [_scene_raw_slices] builds from the detected cuts of a
    video of non-negative duration are in order and do not overlap, each
    lasts at least half a second, and all lie between 0 and the duration
    rounded to milliseconds; they meet the ordering [_normalize_slices]
    relies on. *)
Theorem scene_slices_ordered cuts duration :
  0 <= duration ->
  ordered_from 0 (scene_slices_of_cuts cuts duration)
  /\ sorted_slices (scene_slices_of_cuts cuts duration)
  /\ Forall (fun se => 1 # 2 <= dur se /\ snd se <= round3 duration)
       (scene_slices_of_cuts cuts duration).
Proof.
  intro Hd. unfold scene_slices_of_cuts. cbv zeta.
  set (inner := filter _ cuts).
  set (pts := sorted_set (map round3 (0 :: inner ++ [duration]))).
  assert (Hrange : forall p, In p pts -> 0 <= p /\ p <= round3 duration).
  { intros p Hp. apply sorted_set_In in Hp. apply in_map_iff in Hp as (x & <- & Hx).
    assert (Hx' : 0 <= x /\ x <= duration).
    { destruct Hx as [<-|Hx]; [lra|].
      apply in_app_or in Hx as [Hx|[<-|[]]]; [|lra].
      apply filter_In in Hx as [_ Hx].
      destruct (Qlt_le_dec (5 # 100) x); [|discriminate].
      destruct (Qlt_le_dec x (duration - (5 # 100))); [|discriminate]. lra. }
    split.
    - assert (H0 : round3 0 == 0) by reflexivity.
      rewrite <- H0. now apply round3_mono.
    - now apply round3_mono. }
  assert (Hord : ordered_from 0 (filter
            (fun ab : Q * Q => if Qlt_le_dec (snd ab - fst ab) (1 # 2) then false else true)
            (adjacent pts))).
  { apply ordered_from_filter.
    pose proof (sorted_set_ascending (map round3 (0 :: inner ++ [duration]))) as Ha.
    fold pts in Ha.
    destruct pts as [|x r] eqn:E; [exact I|].
    apply (ordered_from_weaken _ x).
    - apply Hrange. now left.
    - now apply adjacent_ordered. }
  split; [exact Hord|]. split; [now apply (ordered_from_sorted 0)|].
  apply Forall_forall. intros [a b] Hin.
  apply filter_In in Hin as [Hin Hk]. cbn [fst snd] in Hk.
  unfold dur. cbn [fst snd].
  destruct (Qlt_le_dec (b - a) (1 # 2)); [discriminate|].
  split; [assumption|]. apply adjacent_In in Hin as [_ Hb]. now apply Hrange.
Qed.

Lemma scene_slices_ordered_witness :
  ordered_from 0 (scene_slices_of_cuts [1; 2] 3)
  /\ sorted_slices (scene_slices_of_cuts [1; 2] 3)
  /\ Forall (fun se => 1 # 2 <= dur se /\ snd se <= round3 3)
       (scene_slices_of_cuts [1; 2] 3).
Proof. apply (scene_slices_ordered [1; 2] 3). unfold Qle. simpl. lia. Defined.

(** ** [_window_clips_from_shots] *)

Section WindowClips.

Variables m t M : Q.
Hypothesis m_half : 1 # 2 <= m.
Hypothesis t_min : m <= t.

Lemma window_loop_tiles fuel : forall sid ss se t0,
  t0 + m <= se + (1 # 1000000) ->
  2 * (se - t0) < inject_Z (Z.of_nat fuel) ->
  exists ws,
    window_loop fuel m t sid ss se t0 = Some ws
    /\ ws <> []
    /\ Forall (fun w => wc_shot_id w = sid /\ wc_shot_start w = ss /\ wc_shot_end w = se
                        /\ wc_start w < wc_end w /\ t0 <= wc_start w) ws
    /\ chain_from t0 (window_times ws)
    /\ end_from t0 (window_times ws) = se.
Proof.
  induction fuel as [|fuel IH]; intros sid ss se t0 Hin Hfuel.
  - change (inject_Z (Z.of_nat 0)) with 0 in Hfuel. lra.
  - cbn [window_loop].
    destruct (Qlt_le_dec (se + (1 # 1000000)) (t0 + m)) as [Hout|_]; [lra|].
    assert (Hf : inject_Z (Z.of_nat (S fuel)) == inject_Z (Z.of_nat fuel) + 1).
    { rewrite Nat2Z.inj_succ. unfold Z.succ. now rewrite inject_Z_plus. }
    rewrite Hf in Hfuel. cbv zeta.
    assert (Hlast : forall e, e = se ->
      exists ws,
        (if Qlt_le_dec (se - e) (1 # 1000) then Some [mk_window t0 e sid ss se]
         else match window_loop fuel m t sid ss se e with
              | Some ws => Some (mk_window t0 e sid ss se :: ws)
              | None => None
              end) = Some ws
        /\ ws <> []
        /\ Forall (fun w => wc_shot_id w = sid /\ wc_shot_start w = ss
                            /\ wc_shot_end w = se
                            /\ wc_start w < wc_end w /\ t0 <= wc_start w) ws
        /\ chain_from t0 (window_times ws)
        /\ end_from t0 (window_times ws) = se).
    { intros e ->. destruct (Qlt_le_dec (se - se) (1 # 1000)); [|lra].
      eexists. split; [reflexivity|]. split; [discriminate|]. split.
      - constructor; [|constructor]. cbn [wc_shot_id wc_shot_start wc_shot_end
                                          wc_start wc_end].
        repeat split; lra.
      - split; [cbn; now split | reflexivity]. }
    destruct (qmin_cases se (t0 + t)) as [[E Hle]|[E Hlt]]; rewrite E.
    + destruct (Qlt_le_dec (se - se) m); [|lra]. now apply Hlast.
    + destruct (Qlt_le_dec (se - (t0 + t)) m) as [Hs|Hl]; [now apply Hlast|].
      destruct (Qlt_le_dec (se - (t0 + t)) (1 # 1000)); [lra|].
      destruct (IH sid ss se (t0 + t)) as (ws & -> & Hne & Hall & Hch & Hend);
        [lra | lra |].
      eexists. split; [reflexivity|]. split; [discriminate|]. split.
      * constructor.
        -- cbn [wc_shot_id wc_shot_start wc_shot_end wc_start wc_end].
           repeat split; lra.
        -- eapply Forall_impl; [|exact Hall]. cbv beta.
           intros w (A & B & C & D & E'). repeat split; auto. lra.
      * split; [cbn; now split|].
        unfold end_from in *. cbn [window_times map rev wc_start wc_end] in *.
        fold (window_times ws).
        destruct (rev (window_times ws)) as [|[a b] r] eqn:Er.
        -- exfalso. apply Hne. apply (f_equal (@rev _)) in Er.
           rewrite rev_involutive in Er. simpl in Er.
           destruct ws; [reflexivity|discriminate].
        -- exact Hend.
Qed.

Lemma window_fuel_enough ss se : 2 * (se - ss) < inject_Z (Z.of_nat (window_fuel ss se)).
Proof.
  unfold window_fuel. rewrite Nat2Z.inj_succ. unfold Z.succ. rewrite inject_Z_plus.
  change (inject_Z 1) with 1.
  pose proof (Qle_ceiling (2 * (se - ss))) as Hc.
  assert (Hz : inject_Z (Qceiling (2 * (se - ss)))
               <= inject_Z (Z.of_nat (Z.to_nat (Qceiling (2 * (se - ss)))))).
  { rewrite <- Zle_Qle. lia. }
  lra.
Qed.

Hypothesis M_min : m <= M.

Lemma window_step_tiles out sid ss se :
  ss + (2 # 10) < se ->
  exists g,
    window_step m t M (Some (out, sid)) (ss, se) = Some (out ++ g, S sid)
    /\ tiles_shot ss se sid g.
Proof.
  intro Hk. unfold window_step.
  destruct (Qlt_le_dec (ss + (2 # 10)) se) as [_|?]; [|lra].
  destruct (Qlt_le_dec (M + (1 # 1000000)) (se - ss)) as [Hlong|Hshort].
  - destruct (window_loop_tiles (window_fuel ss se) sid ss se ss)
      as (ws & -> & Hne & Hall & Hch & Hend).
    + lra.
    + apply window_fuel_enough.
    + exists ws. split; [reflexivity|]. unfold tiles_shot.
      repeat split; auto.
      eapply Forall_impl; [|exact Hall]. cbv beta. tauto.
  - eexists. split; [reflexivity|]. unfold tiles_shot.
    split; [discriminate|]. split.
    + constructor; [|constructor].
      cbn [wc_shot_id wc_shot_start wc_shot_end wc_start wc_end]. repeat split; lra.
    + split; [cbn; now split | reflexivity].
Qed.

Lemma window_fold_tiles shots : forall out sid,
  exists groups,
    fold_left (window_step m t M) shots (Some (out, sid))
    = Some (out ++ concat groups, (sid + length groups)%nat)
    /\ tiled_from sid (kept_shots shots) groups.
Proof.
  induction shots as [|[ss se] shots IH]; intros out sid; cbn [fold_left].
  - exists []. cbn. rewrite app_nil_r, Nat.add_0_r. now split.
  - unfold kept_shots. cbn [filter fst snd]. fold (kept_shots shots).
    destruct (Qlt_le_dec (ss + (2 # 10)) se) as [Hk|Hk].
    + destruct (window_step_tiles out sid ss se Hk) as (g & -> & Hg).
      destruct (IH (out ++ g) (S sid)) as (groups & -> & Hgs).
      exists (g :: groups). split.
      * cbn [concat length]. rewrite <- app_assoc. f_equal. f_equal. lia.
      * cbn [tiled_from]. now split.
    + assert (E : window_step m t M (Some (out, sid)) (ss, se) = Some (out, sid)).
      { unfold window_step. destruct (Qlt_le_dec (ss + (2 # 10)) se); [lra|reflexivity]. }
      rewrite E. apply IH.
Qed.

End WindowClips.

Lemma end_from_cons lo x l : end_from lo (x :: l) = end_from (snd x) l.
Proof.
  unfold end_from. cbn [rev]. destruct x as [a b].
  destruct (rev l) as [|[c d] r]; reflexivity.
Qed.

Lemma chain_bounds ws : forall lo w,
  chain_from lo (window_times ws) ->
  Forall (fun w => wc_start w < wc_end w) ws ->
  In w ws ->
  lo <= wc_start w /\ wc_end w <= end_from lo (window_times ws).
Proof.
  induction ws as [|x ws IH]; intros lo w Hc Hf Hw; [contradiction|].
  cbn [window_times map chain_from] in Hc. fold (window_times ws) in Hc.
  destruct Hc as [Hx Hc]. apply Forall_cons_iff in Hf as [Hx1 Hf].
  cbn [window_times map]. fold (window_times ws). rewrite end_from_cons. cbn [snd].
  assert (Hmono : wc_end x <= end_from (wc_end x) (window_times ws)).
  { destruct ws as [|y ws']; [unfold end_from; simpl; lra|].
    destruct (IH (wc_end x) y Hc Hf (or_introl eq_refl)) as [A B].
    apply Forall_cons_iff in Hf as [Hy _]. lra. }
  destruct Hw as [<-|Hw].
  - rewrite Hx. split; lra.
  - destruct (IH (wc_end x) w Hc Hf Hw) as [A B]. rewrite <- Hx. split; lra.
Qed.

Lemma tiled_from_inside shots : forall sid groups w,
  tiled_from sid shots groups -> In w (concat groups) ->
  In (wc_shot_start w, wc_shot_end w) shots
  /\ wc_shot_start w <= wc_start w /\ wc_start w < wc_end w
  /\ wc_end w <= wc_shot_end w.
Proof.
  induction shots as [|[ss se] shots IH]; intros sid [|g groups] w Ht Hin;
    cbn [tiled_from] in Ht; try contradiction.
  destruct Ht as [Hg Ht]. cbn [concat] in Hin. apply in_app_or in Hin as [Hin|Hin].
  - destruct Hg as (_ & Hall & Hch & Hend).
    assert (Hpos : Forall (fun w => wc_start w < wc_end w) g).
    { eapply Forall_impl; [|exact Hall]. cbv beta. tauto. }
    destruct (chain_bounds g ss w Hch Hpos Hin) as [E F].
    rewrite Forall_forall in Hall. destruct (Hall w Hin) as (A & B & C & D).
    rewrite Hend in F. rewrite B, C. repeat split; auto. now left.
  - destruct (IH _ _ w Ht Hin) as (A & B). split; [now right | exact B].
Qed.

Lemma window_clips_core shots min_sec target_sec max_sec :
  exists groups,
    _window_clips_from_shots shots min_sec target_sec max_sec = Some (concat groups)
    /\ tiled_from 0 (kept_shots shots) groups.
Proof.
  unfold _window_clips_from_shots. cbv zeta.
  set (m := qmax (1 # 2) min_sec). set (M := qmax m max_sec).
  set (t := qmax m (qmin target_sec M)).
  assert (Hm : 1 # 2 <= m).
  { unfold m. destruct (qmax_cases (1 # 2) min_sec) as [[-> ?]|[-> ?]]; lra. }
  assert (Ht : m <= t).
  { unfold t. destruct (qmax_cases m (qmin target_sec M)) as [[-> ?]|[-> ?]]; lra. }
  assert (HM : m <= M).
  { unfold M. destruct (qmax_cases m max_sec) as [[-> ?]|[-> ?]]; lra. }
  destruct (window_fold_tiles m t M Hm Ht HM shots [] 0%nat) as (groups & -> & Hg).
  exists groups. now split.
Qed.

(** X9.  [_window_clips_from_shots] always returns, and its clips are the
    shots longer than a fifth of a second cut from end to end, in order
    and numbered from 0: the windows of a shot carry its number and its
    bounds, the first starts where the shot starts, each of the others
    where the one before ends, and the last ends where the shot ends. *)
Theorem window_clips_tile shots min_sec target_sec max_sec :
  exists groups,
    _window_clips_from_shots shots min_sec target_sec max_sec = Some (concat groups)
    /\ tiled_from 0 (kept_shots shots) groups.
Proof. apply window_clips_core. Qed.

(** X10.  No clip of [_window_clips_from_shots] crosses a shot boundary:
    each one lies inside the shot it is marked with, and that shot is one
    of the input shots. *)
Theorem window_clips_inside shots min_sec target_sec max_sec :
  exists clips,
    _window_clips_from_shots shots min_sec target_sec max_sec = Some clips
    /\ Forall (fun w => In (wc_shot_start w, wc_shot_end w) shots
                        /\ wc_shot_start w <= wc_start w
                        /\ wc_start w < wc_end w
                        /\ wc_end w <= wc_shot_end w) clips.
Proof.
  destruct (window_clips_core shots min_sec target_sec max_sec) as (groups & E & Hg).
  exists (concat groups). split; [exact E|].
  apply Forall_forall. intros w Hw.
  destruct (tiled_from_inside _ _ _ w Hg Hw) as (A & B).
  split; [|exact B]. unfold kept_shots in A. now apply filter_In in A.
Qed.

Section WindowLengths.

Variables m t M : Q.
Hypothesis m_half : 1 # 2 <= m.
Hypothesis t_min : m <= t.

Lemma window_loop_lengths fuel : forall sid ss se t0 ws,
  t0 + m <= se + (1 # 1000000) ->
  window_loop fuel m t sid ss se t0 = Some ws ->
  Forall (fun w => m - (1 # 1000000) <= wc_end w - wc_start w
                   /\ wc_end w - wc_start w < t + m) ws.
Proof.
  induction fuel as [|fuel IH]; intros sid ss se t0 ws Hin; cbn [window_loop];
    destruct (Qlt_le_dec (se + (1 # 1000000)) (t0 + m)) as [Hout|_]; try lra;
    [discriminate|].
  cbv zeta.
  destruct (qmin_cases se (t0 + t)) as [[E Hle]|[E Hlt]]; rewrite E.
  - destruct (Qlt_le_dec (se - se) m); [|lra].
    destruct (Qlt_le_dec (se - se) (1 # 1000)); [|lra].
    intro H. injection H as <-. constructor; [|constructor].
    cbn [wc_start wc_end]. split; lra.
  - destruct (Qlt_le_dec (se - (t0 + t)) m) as [Hs|Hl].
    + destruct (Qlt_le_dec (se - se) (1 # 1000)); [|lra].
      intro H. injection H as <-. constructor; [|constructor].
      cbn [wc_start wc_end]. split; lra.
    + destruct (Qlt_le_dec (se - (t0 + t)) (1 # 1000)); [lra|].
      destruct (window_loop fuel m t sid ss se (t0 + t)) as [ws'|] eqn:Ew;
        [|discriminate].
      intro H. injection H as <-. constructor.
      * cbn [wc_start wc_end]. split; lra.
      * apply (IH sid ss se (t0 + t)); [lra | exact Ew].
Qed.

Lemma window_step_lengths out sid shot out' sid' :
  m <= M ->
  Forall (whole_or_window m t M) out ->
  window_step m t M (Some (out, sid)) shot = Some (out', sid') ->
  Forall (whole_or_window m t M) out'.
Proof.
  intros HM Hout. unfold window_step. destruct shot as [ss se].
  destruct (Qlt_le_dec (ss + (2 # 10)) se) as [Hk|Hk].
  - destruct (Qlt_le_dec (M + (1 # 1000000)) (se - ss)) as [Hlong|Hshort].
    + destruct (window_loop (window_fuel ss se) m t sid ss se ss) as [ws|] eqn:Ew;
        [|discriminate].
      intro H. injection H as <- _. apply Forall_app. split; [exact Hout|].
      assert (Hin : ss + m <= se + (1 # 1000000)) by lra.
      eapply Forall_impl; [|apply (window_loop_lengths _ sid ss se ss ws Hin Ew)].
      intros w Hw. now right.
    + intro H. injection H as <- _. apply Forall_app. split; [exact Hout|].
      constructor; [|constructor]. left.
      cbn [wc_start wc_end wc_shot_start wc_shot_end]. repeat split. lra.
  - intro H. now injection H as <- _.
Qed.

Lemma window_fold_lengths shots : forall out sid out' sid',
  m <= M ->
  Forall (whole_or_window m t M) out ->
  fold_left (window_step m t M) shots (Some (out, sid)) = Some (out', sid') ->
  Forall (whole_or_window m t M) out'.
Proof.
  induction shots as [|s shots IH]; intros out sid out' sid' HM Hout; cbn [fold_left].
  - intro H. now injection H as <- _.
  - destruct (window_step m t M (Some (out, sid)) s) as [[o1 s1]|] eqn:Es.
    + apply IH; [exact HM|]. eapply window_step_lengths; eauto.
    + assert (N : forall l, fold_left (window_step m t M) l None = None)
        by (induction l; auto).
      rewrite N. discriminate.
Qed.

End WindowLengths.

(** X11.  Every clip of [_window_clips_from_shots] is either a whole shot
    no longer than the effective maximum (up to a microsecond), or a
    window of a longer shot that lasts at least the effective minimum
    (up to a microsecond) and less than target plus minimum; such a
    window can thus be longer than the maximum. *)
Theorem window_clips_lengths shots min_sec target_sec max_sec :
  let m := qmax (1 # 2) min_sec in
  let M := qmax m max_sec in
  let t := qmax m (qmin target_sec M) in
  exists clips,
    _window_clips_from_shots shots min_sec target_sec max_sec = Some clips
    /\ Forall (whole_or_window m t M) clips.
Proof.
  intros m M t.
  destruct (window_clips_core shots min_sec target_sec max_sec) as (groups & E & _).
  exists (concat groups). split; [exact E|].
  unfold _window_clips_from_shots in E. cbv zeta in E. fold m M t in E.
  assert (Hm : 1 # 2 <= m).
  { unfold m. destruct (qmax_cases (1 # 2) min_sec) as [[-> ?]|[-> ?]]; lra. }
  assert (Ht : m <= t).
  { unfold t. destruct (qmax_cases m (qmin target_sec M)) as [[-> ?]|[-> ?]]; lra. }
  assert (HM : m <= M).
  { unfold M. destruct (qmax_cases m max_sec) as [[-> ?]|[-> ?]]; lra. }
  destruct (fold_left (window_step m t M) shots (Some ([], 0%nat))) as [[o s]|] eqn:Ef;
    [|discriminate].
  injection E as ->.
  apply (window_fold_lengths m t M Hm Ht shots [] 0%nat (concat groups) s HM);
    [constructor | exact Ef].
Qed.

(** ** Further properties of [_split_script] *)

Section SplitScriptText.

Lemma remove_spaces_rstrip s : remove_spaces (rstrip s) = remove_spaces s.
Proof.
  unfold rstrip.
  now rewrite remove_spaces_rev, remove_spaces_lstrip, remove_spaces_rev, rev_involutive.
Qed.

Lemma remove_spaces_concat (l : list pystr) :
  remove_spaces (concat l) = concat (map remove_spaces l).
Proof.
  induction l as [|x l IH]; [reflexivity|].
  cbn [concat map]. now rewrite remove_spaces_app, IH.
Qed.

Lemma flush_text out buf :
  remove_spaces (concat (flush out buf)) = remove_spaces (concat out ++ buf).
Proof.
  unfold flush. rewrite remove_spaces_app.
  destruct (strip buf) as [|c r] eqn:E.
  - rewrite <- (remove_spaces_strip buf), E. cbn. now rewrite app_nil_r.
  - rewrite concat_app. cbn [concat]. rewrite app_nil_r, remove_spaces_app.
    now rewrite <- E, remove_spaces_strip.
Qed.

Lemma split_loop_text rest : forall out buf q,
  remove_spaces (concat (split_loop rest out buf q))
  = remove_spaces (concat out ++ buf ++ rest).
Proof.
  induction rest as [|ch rest IH]; intros out buf q; cbn [split_loop].
  - now rewrite app_nil_r, flush_text.
  - assert (Hcons : forall pre : pystr,
              remove_spaces (pre ++ (buf ++ [ch]) ++ rest)
              = remove_spaces (pre ++ buf ++ ch :: rest)).
    { intro pre. now rewrite <- app_assoc. }
    assert (Hflush : remove_spaces (concat (flush out (buf ++ [ch])) ++ [] ++ rest)
                     = remove_spaces (concat out ++ buf ++ ch :: rest)).
    { cbn [app]. rewrite remove_spaces_app, flush_text, <- remove_spaces_app.
      now rewrite <- !app_assoc. }
    destruct (Z.eqb_spec ch 13) as [->|_].
    { rewrite IH, !remove_spaces_app. reflexivity. }
    destruct (Z.eqb_spec ch 10) as [->|_].
    { rewrite IH. cbn [app]. rewrite remove_spaces_app, flush_text.
      rewrite <- remove_spaces_app, <- app_assoc, !remove_spaces_app. reflexivity. }
    destruct (quote_update q ch); [now rewrite IH, Hcons|].
    destruct (mem ch split_chars); [|now rewrite IH, Hcons].
    destruct (mem ch dash_chars && _); [now rewrite IH, Hcons|].
    now rewrite IH, Hflush.
Qed.

Lemma merge_step_text acc s :
  remove_spaces (concat (merge_step acc s)) = remove_spaces (concat acc ++ s).
Proof.
  unfold merge_step. destruct acc as [|a acc'] eqn:Ea; [cbn; now rewrite app_nil_r|].
  rewrite <- Ea. assert (Hne : acc <> []) by (rewrite Ea; discriminate).
  destruct (_is_quoted_only s).
  - assert (Hc : concat acc = concat (removelast acc) ++ last acc []).
    { rewrite (app_removelast_last [] Hne) at 1.
      rewrite concat_app. cbn [concat]. now rewrite app_nil_r. }
    rewrite Hc, concat_app. cbn [concat]. rewrite app_nil_r.
    rewrite !remove_spaces_app, remove_spaces_rstrip. now rewrite app_assoc.
  - rewrite concat_app. cbn [concat]. now rewrite app_nil_r.
Qed.

Lemma merge_fold_text l : forall acc,
  remove_spaces (concat (fold_left merge_step l acc))
  = remove_spaces (concat acc ++ concat l).
Proof.
  induction l as [|s l IH]; intro acc; cbn [fold_left concat].
  - now rewrite app_nil_r.
  - rewrite IH, remove_spaces_app, merge_step_text, <- remove_spaces_app.
    now rewrite <- app_assoc.
Qed.

Lemma lstrip_suffix s : exists pre, s = pre ++ lstrip s.
Proof.
  induction s as [|c s [pre IH]]; [now exists []|]. cbn [lstrip].
  destruct (is_space c); [|now exists []].
  exists (c :: pre). cbn. now rewrite <- IH.
Qed.

Lemma Forall_lstrip (P : Z -> Prop) s : Forall P s -> Forall P (lstrip s).
Proof.
  intro H. destruct (lstrip_suffix s) as [pre E]. rewrite E in H.
  now apply Forall_app in H.
Qed.

Lemma Forall_strip (P : Z -> Prop) s : Forall P s -> Forall P (strip s).
Proof.
  intro H. unfold strip, rstrip.
  apply Forall_rev, Forall_lstrip, Forall_rev. now apply Forall_lstrip.
Qed.

Lemma strip_ends s :
  strip s <> [] ->
  is_space (hd 0%Z (strip s)) = false /\ is_space (last (strip s) 0%Z) = false.
Proof.
  intro Hne. unfold strip, rstrip in *.
  destruct (lstrip (rev (lstrip s))) as [|c r] eqn:E; [now elim Hne|].
  pose proof (lstrip_head _ _ _ E) as Hc. split.
  - (* the first character is the head of [lstrip s] *)
    destruct (lstrip s) as [|c0 r0] eqn:E0; [discriminate|].
    pose proof (lstrip_head _ _ _ E0) as Hc0.
    destruct (lstrip_suffix (rev (c0 :: r0))) as [pre Hp].
    rewrite E in Hp. apply (f_equal (@rev _)) in Hp.
    rewrite rev_involutive, rev_app_distr in Hp.
    destruct (rev (c :: r)) as [|x xs] eqn:Er.
    + apply (f_equal (@length _)) in Er. rewrite length_rev in Er. discriminate.
    + cbn [app] in Hp. injection Hp as <- _. exact Hc0.
  - cbn [rev]. now rewrite last_last.
Qed.

Lemma strip_trimmed buf :
  Forall (fun c => c <> 10%Z /\ c <> 13%Z) buf -> strip buf <> [] ->
  trimmed_unit (strip buf).
Proof.
  intros Hb Hne. destruct (strip_ends buf Hne) as [Hh Hl].
  unfold trimmed_unit. repeat split; auto. now apply Forall_strip.
Qed.

Lemma flush_trimmed out buf :
  Forall trimmed_unit out ->
  Forall (fun c => c <> 10%Z /\ c <> 13%Z) buf ->
  Forall trimmed_unit (flush out buf).
Proof.
  intros Ho Hb. unfold flush. destruct (strip buf) as [|c r] eqn:E; [exact Ho|].
  apply Forall_app. split; [exact Ho|]. constructor; [|constructor].
  rewrite <- E. apply strip_trimmed; [exact Hb|]. rewrite E. discriminate.
Qed.

Lemma split_loop_trimmed rest : forall out buf q,
  Forall trimmed_unit out ->
  Forall (fun c => c <> 10%Z /\ c <> 13%Z) buf ->
  Forall trimmed_unit (split_loop rest out buf q).
Proof.
  induction rest as [|ch rest IH]; intros out buf q Ho Hb; cbn [split_loop].
  - now apply flush_trimmed.
  - destruct (Z.eqb_spec ch 13) as [->|H13]; [now apply IH|].
    destruct (Z.eqb_spec ch 10) as [->|H10].
    { apply IH; [now apply flush_trimmed | constructor]. }
    assert (Hb' : Forall (fun c => c <> 10%Z /\ c <> 13%Z) (buf ++ [ch])).
    { apply Forall_app. split; [exact Hb|]. constructor; [now split | constructor]. }
    destruct (quote_update q ch); [now apply IH|].
    destruct (mem ch split_chars); [|now apply IH].
    destruct (mem ch dash_chars && _); [now apply IH|].
    apply IH; [now apply flush_trimmed | constructor].
Qed.

Lemma rstrip_trimmed a : trimmed_unit a -> rstrip a = a.
Proof.
  intros (Hne & _ & Hl & _). unfold rstrip.
  destruct (exists_last Hne) as (l & c & ->).
  rewrite last_last in Hl. rewrite rev_app_distr. cbn [rev app lstrip].
  rewrite Hl. cbn [rev]. now rewrite rev_involutive.
Qed.

Lemma trimmed_app a b : trimmed_unit a -> trimmed_unit b -> trimmed_unit (a ++ b).
Proof.
  intros (Ha & Hh & _ & Hfa) (Hb & _ & Hl & Hfb). unfold trimmed_unit.
  split; [destruct a; [congruence | discriminate]|].
  split; [destruct a; [congruence | exact Hh]|].
  split; [|apply Forall_app; now split].
  destruct (exists_last Hb) as (l & c & ->).
  rewrite last_last in Hl. now rewrite app_assoc, last_last.
Qed.

Lemma rstrip_app_trimmed a b :
  trimmed_unit a -> trimmed_unit b -> trimmed_unit (rstrip a ++ b).
Proof. intros Ha Hb. rewrite (rstrip_trimmed a Ha). now apply trimmed_app. Qed.

Lemma merge_fold_trimmed l : forall acc,
  Forall trimmed_unit acc -> Forall trimmed_unit l ->
  Forall trimmed_unit (fold_left merge_step l acc).
Proof.
  induction l as [|s l IH]; intros acc Ha Hl; cbn [fold_left]; [exact Ha|].
  apply Forall_cons_iff in Hl as [Hs Hl]. apply IH; [|exact Hl].
  unfold merge_step. destruct acc as [|a acc'] eqn:Ea.
  - constructor; [exact Hs | constructor].
  - rewrite <- Ea in *. assert (Hne : acc <> []) by (rewrite Ea; discriminate).
    destruct (_is_quoted_only s).
    + rewrite (app_removelast_last [] Hne) in Ha.
      apply Forall_app in Ha as [Hfront Hlast].
      apply Forall_cons_iff in Hlast as [Hlast _].
      apply Forall_app. split; [exact Hfront|]. constructor; [|constructor].
      now apply rstrip_app_trimmed.
    + apply Forall_app. split; [exact Ha|]. constructor; [exact Hs | constructor].
Qed.

End SplitScriptText.

(** X12.  [_split_script] loses nothing but whitespace: the units it
    returns, joined, hold the characters of the script that are not
    whitespace, all of them and in their order. *)
Theorem split_script_keeps_text text :
  remove_spaces (concat (_split_script text)) = remove_spaces text.
Proof.
  unfold _split_script. destruct (strip text) as [|c r] eqn:E.
  - rewrite <- (remove_spaces_strip text), E. reflexivity.
  - unfold merge_quoted. rewrite merge_fold_text. cbn [concat app].
    now rewrite split_loop_text.
Qed.

(** X13.  No unit returned by [_split_script] is empty, starts or ends
    with whitespace, or holds a line feed or a carriage return. *)
Theorem split_script_units_trimmed text :
  Forall trimmed_unit (_split_script text).
Proof.
  unfold _split_script. destruct (strip text); [constructor|].
  unfold merge_quoted. apply merge_fold_trimmed; [constructor|].
  apply split_loop_trimmed; constructor.
Qed.

(** ** Further properties of [_snap_line_times_to_fps] *)

Section SnapTotal.

Lemma zsum_from l : forall a : Z, fold_left Z.add l a = (a + zsum l)%Z.
Proof.
  unfold zsum. induction l as [|x l IH]; intro a; cbn [fold_left]; [lia|].
  rewrite (IH (a + x)%Z), (IH (0 + x)%Z). lia.
Qed.

Lemma zsum_cons x l : zsum (x :: l) = (x + zsum l)%Z.
Proof. unfold zsum at 1. cbn [fold_left]. rewrite zsum_from. lia. Qed.

Lemma frame_pairs_cons (s x y : Z) r :
  combine (s :: removelast (x :: y :: r)) (x :: y :: r)
  = (s, x) :: combine (x :: removelast (y :: r)) (y :: r).
Proof. reflexivity. Qed.

(** The frame counts add up to the last boundary. *)
Lemma frames_telescope ef : forall s : Z,
  increasing_from (s + 1) ef -> ef <> [] ->
  zsum (map (fun se : Z * Z => Z.max 1 (snd se - fst se)) (combine (s :: removelast ef) ef))
  = (last ef 0%Z - s)%Z.
Proof.
  induction ef as [|x r IH]; intros s H Hne; [congruence|].
  destruct H as [Hx H]. destruct r as [|y r].
  - cbn. unfold zsum. simpl. lia.
  - rewrite frame_pairs_cons. cbn [map].
    rewrite zsum_cons, (IH x H ltac:(discriminate)).
    cbn [fst snd]. change (last (x :: y :: r) 0%Z) with (last (y :: r) 0%Z). lia.
Qed.

Lemma snapped_contiguous (fps : Q) ef : forall s : Z,
  contiguous (map (fun se : Z * Z => (inject_Z (fst se) / fps, inject_Z (snd se) / fps))
                  (combine (s :: removelast ef) ef)).
Proof.
  induction ef as [|x r IH]; intros s i Hi; [simpl in Hi; lia|].
  destruct r as [|y r]; [simpl in Hi; lia|].
  rewrite frame_pairs_cons in *. cbn [map] in *. destruct i as [|i].
  - unfold end_at, start_at. cbn [nth fst snd]. reflexivity.
  - specialize (IH x i). unfold end_at, start_at in *. cbn [nth].
    apply IH. cbn [length] in Hi. lia.
Qed.

Lemma length_frame_pairs (ef : list Z) s :
  length (combine (s :: removelast ef) ef) = length ef.
Proof.
  rewrite length_combine. cbn [length].
  destruct ef as [|x r]; [reflexivity|].
  rewrite removelast_firstn_len, length_firstn. cbn [length]. lia.
Qed.

Lemma last_nth_Z (l : list Z) : last l 0%Z = nth (length l - 1) l 0%Z.
Proof.
  induction l as [|x l IH]; [reflexivity|].
  destruct l as [|y l]; [reflexivity|].
  change (last (x :: y :: l) 0%Z) with (last (y :: l) 0%Z). rewrite IH.
  cbn [length]. replace (S (S (length l)) - 1)%nat with (S (length l - 0)) by lia.
  cbn [nth]. now replace (length l - 0)%nat with (S (length l) - 1)%nat by lia.
Qed.

End SnapTotal.

(** X14.  When there are no more units than frames, the frame counts
    returned by [_snap_line_times_to_fps] add up to the total frame
    count, and the snapped times lie end to end on the frame grid: the
    first unit starts at 0, each of the others where the one before ends,
    and the last ends at the total frame count divided by the frame
    rate. *)
Theorem snap_frames_total line_times fps total_dur :
  line_times <> [] ->
  (Z.of_nat (length line_times)
   <= total_frames_of (clamp_fps fps) (qmax 0 total_dur))%Z ->
  let fps' := clamp_fps fps in
  let total_frames := total_frames_of fps' (qmax 0 total_dur) in
  let snapped := fst (_snap_line_times_to_fps line_times fps total_dur) in
  let frames := snd (_snap_line_times_to_fps line_times fps total_dur) in
  length snapped = length line_times
  /\ length frames = length line_times
  /\ zsum frames = total_frames
  /\ start_at snapped 0 == 0
  /\ contiguous snapped
  /\ end_at snapped (length snapped - 1) == inject_Z total_frames / inject_Z fps'.
Proof.
  intros Hne Hn. cbv zeta.
  destruct (end_frames_spec line_times _ _ Hne Hn) as (L & Hinc & Hlast).
  unfold _snap_line_times_to_fps.
  destruct line_times as [|lt0 lts] eqn:El; [congruence|]. rewrite <- El in *.
  cbv zeta. cbn [fst snd].
  set (ef := end_frames_of line_times (clamp_fps fps) (qmax 0 total_dur)) in *.
  assert (Hef : ef <> []) by (destruct ef; [rewrite El in L; discriminate | discriminate]).
  rewrite !length_map, length_frame_pairs.
  split; [exact L|]. split; [exact L|]. split.
  { rewrite (frames_telescope ef 0 Hinc Hef), last_nth_Z, Hlast. lia. }
  split.
  { destruct ef as [|x r]; [congruence|]. unfold start_at. cbn. reflexivity. }
  split; [apply snapped_contiguous|].
  unfold end_at.
  set (f := fun se : Z * Z => (inject_Z (fst se) / inject_Z (clamp_fps fps),
                               inject_Z (snd se) / inject_Z (clamp_fps fps))).
  assert (Hlen : length (0%Z :: removelast ef) = length ef).
  { cbn [length]. destruct ef as [|x r]; [congruence|].
    rewrite removelast_firstn_len, length_firstn. cbn [length]. lia. }
  assert (Hpos : (0 < length ef)%nat) by (destruct ef; [congruence | simpl; lia]).
  rewrite (nth_indep _ (0, 0) (f (0%Z, 0%Z)))
    by (rewrite length_map, length_frame_pairs; lia).
  rewrite map_nth, (combine_nth _ _ _ _ _ Hlen).
  unfold f. cbn [fst snd]. now rewrite Hlast.
Qed.

Lemma snap_frames_total_witness :
  let snapped := fst (_snap_line_times_to_fps [(0, 1 # 2); (1 # 2, 12 # 10)] 30 (12 # 10)) in
  let frames := snd (_snap_line_times_to_fps [(0, 1 # 2); (1 # 2, 12 # 10)] 30 (12 # 10)) in
  length snapped = 2%nat
  /\ length frames = 2%nat
  /\ zsum frames = total_frames_of (clamp_fps 30) (qmax 0 (12 # 10))
  /\ start_at snapped 0 == 0
  /\ contiguous snapped
  /\ end_at snapped (length snapped - 1)
     == inject_Z (total_frames_of (clamp_fps 30) (qmax 0 (12 # 10)))
        / inject_Z (clamp_fps 30).
Proof.
  apply (snap_frames_total [(0, 1 # 2); (1 # 2, 12 # 10)] 30 (12 # 10)).
  - discriminate.
  - vm_compute. discriminate.
Defined.

(** ** [_build_shot_index] *)

Section ShotIndex.

Lemma ident_eqb_eq (a b : shot_ident) : ident_eqb a b = true <-> a = b.
Proof.
  unfold ident_eqb. destruct a as [s1 i1], b as [s2 i2]. cbn [fst snd].
  rewrite andb_true_iff, str_eqb_eq, Z.eqb_eq. split.
  - intros [-> ->]. reflexivity.
  - intro H. injection H as -> ->. now split.
Qed.

Lemma ident_eq_dec (a b : shot_ident) : {a = b} + {a <> b}.
Proof.
  destruct (ident_eqb a b) eqn:E; [left; now apply ident_eqb_eq|].
  right. intro H. apply ident_eqb_eq in H. congruence.
Qed.

Lemma dict_get_set_same {V} (d : list (shot_ident * V)) k v :
  dict_get (dict_set d k v) k = Some v.
Proof.
  induction d as [|[k0 v0] d IH]; cbn [dict_set dict_get].
  - now rewrite (proj2 (ident_eqb_eq k k) eq_refl).
  - destruct (ident_eqb k0 k) eqn:E; cbn [dict_get]; rewrite E; [reflexivity | exact IH].
Qed.

Lemma dict_get_set_other {V} (d : list (shot_ident * V)) k k' v :
  k <> k' -> dict_get (dict_set d k v) k' = dict_get d k'.
Proof.
  intro Hne. induction d as [|[k0 v0] d IH]; cbn [dict_set dict_get].
  - destruct (ident_eqb k k') eqn:E; [|reflexivity].
    apply ident_eqb_eq in E. contradiction.
  - destruct (ident_eqb k0 k) eqn:E; cbn [dict_get].
    + apply ident_eqb_eq in E. subst k0.
      destruct (ident_eqb k k') eqn:E'; [|reflexivity].
      apply ident_eqb_eq in E'. contradiction.
    + destruct (ident_eqb k0 k'); [reflexivity | exact IH].
Qed.

Lemma nth_error_snoc {A} (pre : list A) (c : A) i x :
  nth_error (pre ++ [c]) i = Some x ->
  nth_error pre i = Some x \/ (i = length pre /\ x = c).
Proof.
  intro H. destruct (Nat.lt_ge_cases i (length pre)) as [Hlt|Hge].
  - left. now rewrite nth_error_app1 in H.
  - right. rewrite nth_error_app2 in H by exact Hge.
    destruct (i - length pre)%nat as [|k] eqn:E.
    + cbn in H. injection H as <-. split; [lia | reflexivity].
    + cbn in H. destruct k; discriminate.
Qed.

Lemma nth_error_snoc_old {A} (pre : list A) (c : A) i x :
  nth_error pre i = Some x -> nth_error (pre ++ [c]) i = Some x.
Proof.
  intro H. rewrite nth_error_app1; [exact H|].
  apply nth_error_Some. congruence.
Qed.

Lemma nth_error_snoc_new {A} (pre : list A) (c : A) :
  nth_error (pre ++ [c]) (length pre) = Some c.
Proof. rewrite nth_error_app2, Nat.sub_diag by lia. reflexivity. Qed.

Lemma shot_entry_of_snoc pre c key m :
  shot_entry_of pre key m -> shot_entry_of (pre ++ [c]) key m.
Proof.
  intros (A & B & C & (i1 & c1 & D1 & D2 & D3) & (i2 & c2 & E1 & E2 & E3)).
  unfold shot_entry_of. split; [exact A|]. split; [exact B|]. split; [|split].
  - intros i Hi. destruct (C i Hi) as (x & Hx & Hu & Hk).
    exists x. split; [now apply nth_error_snoc_old | now split].
  - exists i1, c1. split; [exact D1|]. split; [now apply nth_error_snoc_old | exact D3].
  - exists i2, c2. split; [exact E1|]. split; [now apply nth_error_snoc_old | exact E3].
Qed.

Lemma shot_index_step_inv pre d c :
  shot_index_inv pre d ->
  shot_index_inv (pre ++ [c]) (fst (shot_index_step (d, length pre) c))
  /\ snd (shot_index_step (d, length pre) c) = length (pre ++ [c]).
Proof.
  intros [HA HB]. unfold shot_index_step.
  assert (Hlen : S (length pre) = length (pre ++ [c]))
    by (rewrite length_app; simpl; lia).
  destruct ((c_shot_id c <? 0)%Z || match c_source_path c with [] => true | _ => false end)
    eqn:Eu.
  - (* the clip is skipped *)
    cbn [fst snd]. split; [|exact Hlen]. split.
    + intros i x Hx Hux. apply nth_error_snoc in Hx as [Hx|[-> ->]].
      * exact (HA i x Hx Hux).
      * unfold usable_clip in Hux. rewrite Eu in Hux. discriminate.
    + intros key m Hm. apply shot_entry_of_snoc. now apply HB.
  - assert (Hu : usable_clip c = true) by (unfold usable_clip; now rewrite Eu).
    fold (clip_key c).
    assert (Hb : (let ss := get_or (c_shot_start c) (get_or (c_start c) 0) in
                  let se := get_or (c_shot_end c) (get_or (c_end c) 0) in
                  if Qlt_le_dec (ss + (1 # 1000000)) se then (ss, se)
                  else (get_or (c_start c) 0, get_or (c_end c) 0))
                 = clip_shot_bounds c) by reflexivity.
    cbv zeta in Hb. rewrite Hb. clear Hb.
    destruct (clip_shot_bounds c) as [ss se] eqn:Ebounds.
    destruct (dict_get d (clip_key c)) as [m0|] eqn:Eget; cbn [fst snd];
      (split; [|exact Hlen]).
    + (* the shot is known: its entry is widened *)
      destruct (HB _ _ Eget) as (A & B & C & (i1 & c1 & D1 & D2 & D3)
                                 & (i2 & c2 & E1 & E2 & E3)).
      set (m1 := mk_shot (m_source m0) (m_shot_id m0) (qmin (m_start m0) ss)
                         (qmax (m_end m0) se) (m_clip_idxs m0 ++ [length pre])).
      split.
      * intros i x Hx Hux.
        destruct (ident_eq_dec (clip_key c) (clip_key x)) as [Ek|Ek].
        -- rewrite <- Ek, dict_get_set_same. exists m1.
           split; [reflexivity|]. unfold shot_entry_covers, m1.
           cbn [m_clip_idxs m_start m_end].
           apply nth_error_snoc in Hx as [Hx|[-> ->]].
           ++ destruct (HA i x Hx Hux) as (m & Hm & Hi & Hs & He).
              rewrite <- Ek, Eget in Hm. injection Hm as <-.
              split; [apply in_or_app; now left|].
              destruct (qmin_cases (m_start m0) ss) as [[-> ?]|[-> ?]];
                destruct (qmax_cases (m_end m0) se) as [[-> ?]|[-> ?]]; split; lra.
           ++ rewrite Ebounds. cbn [fst snd].
              split; [apply in_or_app; right; now left|].
              destruct (qmin_cases (m_start m0) ss) as [[-> ?]|[-> ?]];
                destruct (qmax_cases (m_end m0) se) as [[-> ?]|[-> ?]]; split; lra.
        -- rewrite dict_get_set_other by exact Ek.
           apply nth_error_snoc in Hx as [Hx|[-> ->]]; [|congruence].
           exact (HA i x Hx Hux).
      * intros key m Hm.
        destruct (ident_eq_dec (clip_key c) key) as [Ek|Ek].
        -- rewrite <- Ek, dict_get_set_same in Hm. injection Hm as <-.
           rewrite <- Ek. unfold shot_entry_of, m1.
           cbn [m_source m_shot_id m_clip_idxs m_start m_end].
           split; [exact A|]. split; [exact B|]. split; [|split].
           ++ intros i Hi. apply in_app_or in Hi as [Hi|[<-|[]]].
              ** destruct (C i Hi) as (x & Hx & Hux & Hkx).
                 exists x. split; [now apply nth_error_snoc_old | now split].
              ** exists c. split; [apply nth_error_snoc_new | now split].
           ++ destruct (qmin_cases (m_start m0) ss) as [[-> ?]|[-> ?]].
              ** exists i1, c1. split; [apply in_or_app; now left|].
                 split; [now apply nth_error_snoc_old | exact D3].
              ** exists (length pre), c. split; [apply in_or_app; right; now left|].
                 split; [apply nth_error_snoc_new | now rewrite Ebounds].
           ++ destruct (qmax_cases (m_end m0) se) as [[-> ?]|[-> ?]].
              ** exists i2, c2. split; [apply in_or_app; now left|].
                 split; [now apply nth_error_snoc_old | exact E3].
              ** exists (length pre), c. split; [apply in_or_app; right; now left|].
                 split; [apply nth_error_snoc_new | now rewrite Ebounds].
        -- rewrite dict_get_set_other in Hm by exact Ek.
           apply shot_entry_of_snoc. now apply HB.
    + (* the shot is new *)
      set (m1 := mk_shot (c_source_path c) (c_shot_id c) ss se [length pre]).
      split.
      * intros i x Hx Hux.
        destruct (ident_eq_dec (clip_key c) (clip_key x)) as [Ek|Ek].
        -- rewrite <- Ek, dict_get_set_same. exists m1. split; [reflexivity|].
           apply nth_error_snoc in Hx as [Hx|[-> ->]].
           ++ destruct (HA i x Hx Hux) as (m & Hm & _).
              rewrite <- Ek, Eget in Hm. discriminate.
           ++ unfold shot_entry_covers, m1. cbn [m_clip_idxs m_start m_end].
              rewrite Ebounds. cbn [fst snd]. split; [now left | split; lra].
        -- rewrite dict_get_set_other by exact Ek.
           apply nth_error_snoc in Hx as [Hx|[-> ->]]; [|congruence].
           exact (HA i x Hx Hux).
      * intros key m Hm.
        destruct (ident_eq_dec (clip_key c) key) as [Ek|Ek].
        -- rewrite <- Ek, dict_get_set_same in Hm. injection Hm as <-.
           rewrite <- Ek. unfold shot_entry_of, m1.
           cbn [m_source m_shot_id m_clip_idxs m_start m_end].
           split; [reflexivity|]. split; [reflexivity|]. split; [|split].
           ++ intros i [<-|[]]. exists c. split; [apply nth_error_snoc_new | now split].
           ++ exists (length pre), c. split; [now left|].
              split; [apply nth_error_snoc_new | now rewrite Ebounds].
           ++ exists (length pre), c. split; [now left|].
              split; [apply nth_error_snoc_new | now rewrite Ebounds].
        -- rewrite dict_get_set_other in Hm by exact Ek.
           apply shot_entry_of_snoc. now apply HB.
Qed.

Lemma shot_index_fold_inv clips : forall pre d,
  shot_index_inv pre d ->
  shot_index_inv (pre ++ clips) (fst (fold_left shot_index_step clips (d, length pre))).
Proof.
  induction clips as [|c clips IH]; intros pre d H; cbn [fold_left].
  - now rewrite app_nil_r.
  - destruct (shot_index_step_inv pre d c H) as [H1 H2].
    destruct (shot_index_step (d, length pre) c) as [d1 n1]. cbn [fst snd] in *.
    rewrite H2. replace (pre ++ c :: clips) with ((pre ++ [c]) ++ clips)
      by (now rewrite <- app_assoc).
    now apply IH.
Qed.

Lemma build_shot_index_inv clips : shot_index_inv clips (_build_shot_index clips).
Proof.
  unfold _build_shot_index.
  apply (shot_index_fold_inv clips [] []).
  split; [intros [|i] c H; discriminate | intros key m H; discriminate].
Qed.

End ShotIndex.

(** X15.  [_build_shot_index] registers every clip that has a source
    path and a shot number that is not negative: the shot map has an
    entry under the clip's (source, shot number) that lists the clip's
    position and whose bounds contain the bounds read off the clip. *)
Theorem build_shot_index_registers clips i c :
  nth_error clips i = Some c -> usable_clip c = true ->
  exists m,
    dict_get (_build_shot_index clips) (clip_key c) = Some m
    /\ shot_entry_covers i c m.
Proof. intros Hc Hu. exact (proj1 (build_shot_index_inv clips) i c Hc Hu). Qed.

Lemma build_shot_index_registers_witness :
  exists m,
    dict_get (_build_shot_index [clip_a; clip_b]) (clip_key clip_b) = Some m
    /\ shot_entry_covers 1 clip_b m.
Proof.
  apply (build_shot_index_registers [clip_a; clip_b] 1 clip_b); reflexivity.
Defined.

(** X16.  Every entry of the shot map built by [_build_shot_index]
    carries its own key, lists only positions of usable clips with that
    key, and its start and end are the start and the end read off two of
    the clips it lists. *)
Theorem build_shot_index_entries clips key m :
  dict_get (_build_shot_index clips) key = Some m ->
  shot_entry_of clips key m.
Proof. intro H. exact (proj2 (build_shot_index_inv clips) key m H). Qed.

Lemma build_shot_index_entries_witness :
  shot_entry_of [clip_a; clip_b] (clip_key clip_a)
    (mk_shot [97%Z] 0 0 1 [0%nat]).
Proof.
  apply (build_shot_index_entries [clip_a; clip_b] (clip_key clip_a)). reflexivity.
Defined.

(** ** When the scheduler succeeds *)

Section SchedulerRuns.

Variable clips : list Clip.
Variable sims : nat -> nat -> Q.
Variable dedup_window_sec : Z.
Variables keyword_boost subtitle_heavy_penalty min_same_source_gap_sec : Q.

Lemma dict_get_In {V} (d : list (shot_ident * V)) k v :
  dict_get d k = Some v -> In (k, v) d.
Proof.
  induction d as [|[k0 v0] d IH]; cbn [dict_get]; [discriminate|].
  destruct (ident_eqb k0 k) eqn:E.
  - intro H. injection H as <-. apply ident_eqb_eq in E. subst. now left.
  - intro H. right. now apply IH.
Qed.

Lemma shot_best_step_keeps hints scores d ci c key :
  dict_get d key <> None ->
  dict_get (fst (shot_best_step keyword_boost subtitle_heavy_penalty hints scores
                   (d, ci) c)) key <> None.
Proof.
  intro H. unfold shot_best_step.
  destruct (match c_source_path c with [] => true | _ => false end
            || (c_shot_id c <? 0)%Z); [exact H|].
  set (v := (_, ci, _)).
  assert (Hset : dict_get (dict_set d (c_source_path c, c_shot_id c) v) key <> None).
  { destruct (ident_eq_dec (c_source_path c, c_shot_id c) key) as [<-|Hne].
    - rewrite dict_get_set_same. discriminate.
    - now rewrite dict_get_set_other. }
  destruct (dict_get d (c_source_path c, c_shot_id c)) as [prev|]; [|exact Hset].
  destruct (Qlt_le_dec (fst (fst prev)) _); [exact Hset | exact H].
Qed.

Lemma shot_best_step_adds hints scores d ci c :
  usable_clip c = true ->
  dict_get (fst (shot_best_step keyword_boost subtitle_heavy_penalty hints scores
                   (d, ci) c)) (clip_key c) <> None.
Proof.
  intro Hu. unfold shot_best_step, usable_clip in *.
  rewrite orb_comm in Hu. apply negb_true_iff in Hu. rewrite Hu.
  fold (clip_key c).
  destruct (dict_get d (clip_key c)) as [prev|] eqn:E.
  - destruct (Qlt_le_dec (fst (fst prev)) _); cbn [fst].
    + rewrite dict_get_set_same. discriminate.
    + rewrite E. discriminate.
  - cbn [fst]. rewrite dict_get_set_same. discriminate.
Qed.

Lemma shot_best_fold_has hints scores cs : forall d ci key,
  dict_get d key <> None
  \/ (exists c, In c cs /\ usable_clip c = true /\ clip_key c = key) ->
  dict_get (fst (fold_left
                   (shot_best_step keyword_boost subtitle_heavy_penalty hints scores)
                   cs (d, ci))) key <> None.
Proof.
  induction cs as [|c cs IH]; intros d ci key H; cbn [fold_left].
  - destruct H as [H|(c & Hin & _)]; [exact H | contradiction].
  - pose proof (shot_best_step_keeps hints scores d ci c key) as Hk.
    pose proof (shot_best_step_adds hints scores d ci c) as Ha.
    destruct (shot_best_step keyword_boost subtitle_heavy_penalty hints scores (d, ci) c)
      as [d1 ci1]. cbn [fst] in *.
    apply IH. destruct H as [H|(x & [<-|Hin] & Hu & Hkey)].
    + left. now apply Hk.
    + left. rewrite <- Hkey. now apply Ha.
    + right. now exists x.
Qed.

Lemma shot_map_key_usable key m :
  dict_get (_build_shot_index clips) key = Some m ->
  exists c, In c clips /\ usable_clip c = true /\ clip_key c = key.
Proof.
  intro H. destruct (proj2 (build_shot_index_inv clips) key m H)
    as (_ & _ & C & (i & c & Hi & Hc & _) & _).
  destruct (C i Hi) as (c' & Hc' & Hu & Hk).
  exists c'. split; [now apply (nth_error_In _ i) | now split].
Qed.

Lemma candidates_nonempty hints scores used out_t times :
  long_enough (_build_shot_index clips) times ->
  candidates false (_build_shot_index clips)
    (fst (fold_left (shot_best_step keyword_boost subtitle_heavy_penalty hints scores)
            clips ([], 0%nat)))
    used out_t dedup_window_sec (qmax (5 # 100) (snd times - fst times)) <> [].
Proof.
  intros (key & m & Hm & Hlen).
  destruct (shot_map_key_usable key m Hm) as (c & Hin & Hu & Hk).
  pose proof (shot_best_fold_has hints scores clips [] 0%nat key
                (or_intror (ex_intro _ c (conj Hin (conj Hu Hk))))) as Hb.
  match type of Hb with
  | dict_get ?d _ <> None =>
      destruct (dict_get d key) as [[[sc ci] hit]|] eqn:Eb; [|congruence]
  end.
  apply dict_get_In in Eb. destruct key as [src sid].
  intro Hnil.
  assert (Hc : In (mk_cand hit sc (qmax 0 (m_end m - m_start m)) src sid ci)
                  (candidates false (_build_shot_index clips)
                     (fst (fold_left
                        (shot_best_step keyword_boost subtitle_heavy_penalty hints scores)
                        clips ([], 0%nat)))
                     used out_t dedup_window_sec
                     (qmax (5 # 100) (snd times - fst times)))).
  { unfold candidates. apply in_flat_map.
    exists ((src, sid), (sc, ci, hit)). split; [exact Eb|].
    rewrite Hm.
    destruct (Qlt_le_dec (qmax 0 (m_end m - m_start m) + (1 # 1000000))
                (qmax (5 # 100) (snd times - fst times))) as [Hs|_]; [|now left].
    pose proof (qmax_r 0 (m_end m - m_start m)). lra. }
  rewrite Hnil in Hc. contradiction.
Qed.

Lemma rank_candidates_nonempty cand : cand <> [] -> rank_candidates cand <> [].
Proof.
  intros Hne Hr. unfold rank_candidates in Hr.
  assert (Hs : forall l, sort_desc l = [] -> l = []).
  { intros [|x l] H; [reflexivity|].
    assert (Hin : In x (sort_desc (x :: l))) by (apply In_sort_desc; now left).
    rewrite H in Hin. contradiction. }
  apply Hs in Hr. destruct (existsb _ cand); [|contradiction].
  destruct (filter _ cand); [contradiction | discriminate].
Qed.

Lemma choose_segment_ok cand shot_map st ui text target stt ent :
  cand <> [] -> (forall k, In k cand -> fits shot_map target k) ->
  exists seg,
    choose_segment cand shot_map clips st min_same_source_gap_sec
      ui text target stt ent = inr seg.
Proof.
  intros Hne Hfits. unfold choose_segment.
  destruct (place_first _ _ _ _ _ _ _ _ _ _) as [chosen|]; [now exists chosen|].
  destruct cand as [|k rest]; [congruence|].
  destruct (Hfits k (or_introl eq_refl)) as (m & -> & _).
  eexists. reflexivity.
Qed.

Lemma pick_unit_ok st ui text hints times :
  long_enough (_build_shot_index clips) times ->
  exists p,
    pick_unit clips (_build_shot_index clips) sims dedup_window_sec keyword_boost
      subtitle_heavy_penalty min_same_source_gap_sec st ui text hints times = inr p.
Proof.
  intro Hlong. unfold pick_unit. destruct times as [stt ent]. cbv zeta.
  pose proof (candidates_nonempty hints (sims ui) (st_used st) (st_out_t st)
                (stt, ent) Hlong) as Hc2.
  cbn [fst snd] in Hc2.
  set (target := qmax (5 # 100) (ent - stt)) in *.
  assert (Ht : 5 # 100 <= target) by apply qmax_l.
  destruct (tier_candidates _ _ _ _ _ _) as [err|[cand tr]] eqn:Et.
  - exfalso. unfold tier_candidates in Et.
    destruct (candidates true _ _ _ _ _ _); [|discriminate].
    destruct (candidates false _ _ _ _ _ _); [congruence | discriminate].
  - pose proof (tier_candidates_spec _ _ _ _ _ _ _ _ Ht Et) as Hspec.
    assert (Hne : cand <> []).
    { unfold tier_candidates in Et.
      destruct (candidates true _ _ _ _ _ _) as [|k1 c1].
      - destruct (candidates false _ _ _ _ _ _) as [|k2 c2]; [congruence|].
        injection Et as <- _. discriminate.
      - injection Et as <- _. discriminate. }
    destruct (choose_segment_ok (rank_candidates cand) (_build_shot_index clips)
                st ui text target stt ent (rank_candidates_nonempty _ Hne)
                (fun k Hin => proj1 (Hspec k (In_rank_candidates _ _ Hin))))
      as (seg & ->).
    eexists. reflexivity.
Qed.

Lemma pick_unit_needs shot_map st ui text hints times p :
  pick_unit clips shot_map sims dedup_window_sec keyword_boost
    subtitle_heavy_penalty min_same_source_gap_sec st ui text hints times = inr p ->
  long_enough shot_map times.
Proof.
  unfold pick_unit. destruct times as [stt ent]. cbv zeta.
  set (target := qmax (5 # 100) (ent - stt)).
  assert (Ht : 5 # 100 <= target) by apply qmax_l.
  assert (H0 : 0 < target) by lra.
  destruct (tier_candidates _ _ _ _ _ _) as [err|[cand tr]] eqn:Et; [discriminate|].
  pose proof (tier_candidates_spec _ _ _ _ _ _ _ _ Ht Et) as Hspec.
  destruct (choose_segment _ _ _ _ _ _ _ _ _ _) as [err|chosen] eqn:Ec;
    [discriminate|].
  intros _.
  destruct (choose_segment_spec _ _ _ _ _ _ _ _ _ _ _ H0
              (fun k Hin => proj1 (Hspec k (In_rank_candidates _ _ Hin))) Ec)
    as (k & Hin & _).
  destruct (proj1 (Hspec k (In_rank_candidates _ _ Hin))) as (m & Hm & Hlen).
  exists (k_src k, k_sid k), m. split; [exact Hm | exact Hlen].
Qed.

Variable unit_hints : list (list pystr).
Variable unit_times : list (Q * Q).

Lemma unit_loop_ok texts : forall st ui,
  (forall j, (j < length texts)%nat ->
     long_enough (_build_shot_index clips) (nth (ui + j) unit_times (0, 0))) ->
  exists ps,
    unit_loop clips (_build_shot_index clips) sims dedup_window_sec keyword_boost
      subtitle_heavy_penalty min_same_source_gap_sec unit_hints unit_times
      st ui texts = inr ps.
Proof.
  induction texts as [|text rest IH]; intros st ui H; cbn [unit_loop].
  - now exists [].
  - destruct (pick_unit_ok st ui text (nth ui unit_hints []) (nth ui unit_times (0, 0)))
      as (p & ->).
    { specialize (H 0%nat ltac:(simpl; lia)). now rewrite Nat.add_0_r in H. }
    destruct (IH (commit st p) (S ui)) as (ps & ->).
    { intros j Hj. specialize (H (S j) ltac:(simpl; lia)).
      now replace (S ui + j)%nat with (ui + S j)%nat by lia. }
    now exists (p :: ps).
Qed.

Lemma unit_loop_needs shot_map texts : forall st ui ps,
  unit_loop clips shot_map sims dedup_window_sec keyword_boost
    subtitle_heavy_penalty min_same_source_gap_sec unit_hints unit_times
    st ui texts = inr ps ->
  forall j, (j < length texts)%nat ->
    long_enough shot_map (nth (ui + j) unit_times (0, 0)).
Proof.
  induction texts as [|text rest IH]; intros st ui ps H j Hj; [simpl in Hj; lia|].
  cbn [unit_loop] in H.
  destruct (pick_unit _ _ _ _ _ _ _ _ _ _ _ _) as [e|p] eqn:Ep; [discriminate|].
  destruct (unit_loop _ _ _ _ _ _ _ _ _ _ _ _) as [e|ps'] eqn:El; [discriminate|].
  destruct j as [|j].
  - rewrite Nat.add_0_r. exact (pick_unit_needs _ _ _ _ _ _ _ Ep).
  - replace (ui + S j)%nat with (S ui + j)%nat by lia.
    apply (IH _ _ _ El). simpl in Hj. lia.
Qed.

End SchedulerRuns.

(** X17.  For a script that is not empty, [_pick_visual_segments_edgetts]
    returns segments exactly when there are as many unit times as units
    and the index holds, for every unit, a shot at least as long as the
    unit's target [max(0.05, end - start)], up to a microsecond;
    otherwise it raises. *)
Theorem scheduler_succeeds_iff unit_texts unit_hints unit_times clips sims
  dedup_window_sec keyword_boost subtitle_heavy_penalty min_same_source_gap_sec :
  unit_texts <> [] ->
  (exists segs,
     _pick_visual_segments_edgetts unit_texts unit_hints unit_times clips sims
       dedup_window_sec keyword_boost subtitle_heavy_penalty
       min_same_source_gap_sec = inr segs)
  <-> (length unit_times = length unit_texts
       /\ Forall (long_enough (_build_shot_index clips)) unit_times).
Proof.
  intro Hne. unfold _pick_visual_segments_edgetts, schedule_trace.
  destruct unit_texts as [|text rest] eqn:Et; [congruence|]. rewrite <- Et in *.
  set (hints := match unit_hints with
                | [] => map (fun _ => []) unit_texts
                | _ => if (length unit_hints =? length unit_texts)%nat then unit_hints
                       else map (fun _ => []) unit_texts
                end).
  destruct unit_times as [|ut uts] eqn:Eu.
  { split; [intros (segs & H); discriminate|].
    intros [H _]. rewrite Et in H. discriminate. }
  rewrite <- Eu in *.
  destruct (Nat.eqb_spec (length unit_times) (length unit_texts)) as [Hlen|Hlen];
    cbn [negb].
  2:{ split; [intros (segs & H); discriminate | intros [H _]; contradiction]. }
  split.
  - intros (segs & H). split; [exact Hlen|].
    destruct (_build_shot_index clips) as [|sm0 sms] eqn:Es; [discriminate|].
    rewrite <- Es in *.
    destruct (unit_loop _ _ _ _ _ _ _ _ _ _ _ _) as [e|ps] eqn:El; [discriminate|].
    pose proof (unit_loop_needs _ _ _ _ _ _ _ _ _ _ _ _ _ El) as Hall.
    apply Forall_forall. intros x Hx.
    destruct (In_nth _ _ (0, 0) Hx) as (j & Hj & <-).
    apply (Hall j). lia.
  - intros [_ Hall].
    assert (Hsm : _build_shot_index clips <> []).
    { rewrite Eu in Hall. apply Forall_cons_iff in Hall as [(key & m & Hm & _) _].
      intro E. rewrite E in Hm. discriminate. }
    destruct (_build_shot_index clips) as [|sm0 sms] eqn:Es; [congruence|].
    rewrite <- Es in *.
    destruct (unit_loop_ok clips sims dedup_window_sec keyword_boost
                subtitle_heavy_penalty min_same_source_gap_sec hints unit_times
                unit_texts (mk_state [] 0 None None) 0%nat) as (ps & ->).
    + intros j Hj. rewrite Forall_forall in Hall. apply Hall.
      apply nth_In. cbn [Nat.add]. lia.
    + now eexists.
Qed.

Lemma scheduler_succeeds_iff_witness :
  (exists segs,
     _pick_visual_segments_edgetts [[65%Z]; [66%Z]] [] [(0, 1); (1, 2)]
       [clip_a; clip_b] (fun _ _ => 0) 60 (1 # 10) (6 # 100) (8 # 10) = inr segs)
  <-> (length [(0, 1); (1, 2)] = length [[65%Z]; [66%Z]]
       /\ Forall (long_enough (_build_shot_index [clip_a; clip_b])) [(0, 1); (1, 2)]).
Proof.
  apply (scheduler_succeeds_iff [[65%Z]; [66%Z]] [] [(0, 1); (1, 2)]
           [clip_a; clip_b] (fun _ _ => 0) 60 (1 # 10) (6 # 100) (8 # 10)).
  discriminate.
Defined.

(** ** [_shot_key] *)

From Stdlib Require DecimalZ.

Section ShotKey.

Local Open Scope Z_scope.

Lemma uint_codes_digits d : Forall (fun c => 48 <= c <= 57) (uint_codes d).
Proof. induction d; cbn [uint_codes]; constructor; auto; lia. Qed.

Lemma uint_codes_inj d : forall d', uint_codes d = uint_codes d' -> d = d'.
Proof.
  induction d; intros d' H; destruct d'; cbn [uint_codes] in H;
    try discriminate; try reflexivity;
    injection H as H; f_equal; now apply IHd.
Qed.

Lemma int_str_chars z : Forall (fun c => c = 45 \/ 48 <= c <= 57) (int_str z).
Proof.
  unfold int_str. destruct (Z.to_int z) as [d|d].
  - eapply Forall_impl; [|apply uint_codes_digits]. intros c Hc. now right.
  - constructor; [now left|].
    eapply Forall_impl; [|apply uint_codes_digits]. intros c Hc. now right.
Qed.

Lemma int_str_inj a b : int_str a = int_str b -> a = b.
Proof.
  unfold int_str. intro H. apply DecimalZ.to_int_inj.
  destruct (Z.to_int a) as [d|d], (Z.to_int b) as [d'|d'].
  - f_equal. now apply uint_codes_inj.
  - pose proof (uint_codes_digits d) as Hd. rewrite H in Hd.
    apply Forall_cons_iff in Hd as [Hd _]. lia.
  - pose proof (uint_codes_digits d') as Hd. rewrite <- H in Hd.
    apply Forall_cons_iff in Hd as [Hd _]. lia.
  - injection H as H. f_equal. now apply uint_codes_inj.
Qed.

Lemma split_at_last (h : Z) (a : list Z) : forall b x y,
  a ++ h :: x = b ++ h :: y -> ~ In h x -> ~ In h y -> a = b /\ x = y.
Proof.
  induction a as [|c a IH]; intros [|c' b] x y H Hx Hy; cbn [app] in H.
  - injection H as <-. now split.
  - injection H as <- ->. elim Hx. apply in_or_app. right. now left.
  - injection H as -> <-. elim Hy. apply in_or_app. right. now left.
  - injection H as <- H. destruct (IH b x y H Hx Hy) as [-> ->]. now split.
Qed.

End ShotKey.

(** X18.  [_shot_key] tells shots apart: two shots get the same key only
    if they have the same source path and the same shot number, so the
    cooldown recorded under a key concerns that shot alone. *)
Theorem shot_key_injective src1 sid1 src2 sid2 :
  _shot_key src1 sid1 = _shot_key src2 sid2 -> src1 = src2 /\ sid1 = sid2.
Proof.
  unfold _shot_key. cbn [app]. intro H.
  assert (Hno : forall z, ~ In 35%Z (115 :: 104 :: 111 :: 116 :: int_str z)%Z).
  { intros z Hin. repeat (destruct Hin as [Hin|Hin]; [discriminate|]).
    pose proof (int_str_chars z) as Hc. rewrite Forall_forall in Hc.
    destruct (Hc _ Hin) as [Hc'|Hc']; [discriminate | lia]. }
  destruct (split_at_last 35%Z src1 src2 _ _ H (Hno sid1) (Hno sid2)) as [-> E].
  split; [reflexivity|]. injection E as E. now apply int_str_inj.
Qed.

Lemma shot_key_injective_witness :
  [97%Z] = [97%Z] /\ 3%Z = 3%Z.
Proof. apply (shot_key_injective [97%Z] 3 [97%Z] 3). reflexivity. Defined.

(** ** [_subtitle_display_text] *)

Section SubtitleDisplay.

Lemma take_while_all (f : Z -> bool) l r :
  Forall (fun c => f c = true) l -> take_while f (l ++ r) = l ++ take_while f r.
Proof.
  induction 1 as [|c l Hc _ IH]; [reflexivity|].
  cbn [app take_while]. now rewrite Hc, IH.
Qed.

Lemma drop_while_all_app (f : Z -> bool) l r :
  Forall (fun c => f c = true) l -> drop_while f (l ++ r) = drop_while f r.
Proof.
  induction 1 as [|c l Hc _ IH]; [reflexivity|].
  cbn [app drop_while]. now rewrite Hc, IH.
Qed.

Lemma take_while_Forall (f : Z -> bool) l : Forall (fun c => f c = true) (take_while f l).
Proof.
  induction l as [|c l IH]; cbn [take_while]; [constructor|].
  destruct (f c) eqn:E; constructor; auto.
Qed.

Lemma take_while_none (f : Z -> bool) l :
  Forall (fun c => f c = false) l -> take_while f l = [] /\ drop_while f l = l.
Proof.
  destruct 1 as [|c l Hc _]; [now split|]. cbn [take_while drop_while]. now rewrite Hc.
Qed.

Lemma end_chars_not_space c : mem c sub_end_chars = true -> is_space c = false.
Proof.
  unfold mem, sub_end_chars. simpl. rewrite !orb_true_iff, !Z.eqb_eq.
  intro H. repeat (destruct H as [->|H]; [reflexivity|]). discriminate H.
Qed.

Lemma filter_id {A} (f : A -> bool) l : Forall (fun c => f c = true) l -> filter f l = l.
Proof.
  induction 1 as [|c l Hc _ IH]; [reflexivity|]. cbn [filter]. now rewrite Hc, IH.
Qed.

Lemma strip_nil_or_ends body :
  body = [] \/ (is_space (hd 0%Z body) = false /\ is_space (last body 0%Z) = false) ->
  strip body = body.
Proof.
  intros [->|[Hh Hl]]; [reflexivity|].
  destruct body as [|c r]; [reflexivity|]. apply strip_id; [discriminate | exact Hh | exact Hl].
Qed.

(** A text of the displayed shape is displayed as it is. *)
Lemma display_fixed body marks :
  display_shape body marks ->
  _subtitle_display_text (body ++ marks) = body ++ marks.
Proof.
  intros (Hb & Hends & Hm & Hlen).
  assert (Hbm : Forall (fun c => mem c sub_end_chars = false) (rev body)).
  { apply Forall_rev. eapply Forall_impl; [|exact Hb]. cbv beta. tauto. }
  assert (Hmr : Forall (fun c => mem c sub_end_chars = true) (rev marks))
    by now apply Forall_rev.
  assert (Hlast : body ++ marks <> [] -> is_space (last (body ++ marks) 0%Z) = false).
  { intro Hne. destruct marks as [|m ms _] using rev_ind.
    - rewrite app_nil_r in *. destruct Hends as [->|[_ Hl]]; [congruence | exact Hl].
    - rewrite app_assoc, last_last. apply Forall_app in Hm as [_ Hm].
      apply Forall_cons_iff in Hm as [Hm _]. now apply end_chars_not_space. }
  assert (Hhead : body ++ marks <> [] -> is_space (hd 0%Z (body ++ marks)) = false).
  { intro Hne. destruct body as [|b bs].
    - cbn [app] in *. destruct marks as [|m ms]; [congruence|].
      apply Forall_cons_iff in Hm as [Hm _]. now apply end_chars_not_space.
    - destruct Hends as [Hnil|[Hh _]]; [discriminate | exact Hh]. }
  assert (Hstrip : strip (body ++ marks) = body ++ marks).
  { destruct (body ++ marks) as [|c r] eqn:E; [reflexivity|]. rewrite <- E in *.
    assert (Hne : body ++ marks <> []) by (rewrite E; discriminate).
    apply strip_id; auto. }
  clear Hlast Hhead.
  unfold _subtitle_display_text. rewrite Hstrip.
  destruct (body ++ marks) as [|c0 r0] eqn:E; [reflexivity|].
  rewrite <- E in *. clear c0 r0 E Hstrip.
  assert (Hend : end_marks (body ++ marks) = marks).
  { unfold end_marks. rewrite rev_app_distr, (take_while_all _ _ _ Hmr).
    rewrite (proj1 (take_while_none _ _ Hbm)), app_nil_r. apply rev_involutive. }
  assert (Hbefore : before_end_marks (body ++ marks) = body).
  { unfold before_end_marks. rewrite rev_app_distr, (drop_while_all_app _ _ _ Hmr).
    rewrite (proj2 (take_while_none _ _ Hbm)). apply rev_involutive. }
  rewrite Hend, Hbefore.
  assert (Hf1 : filter (fun c => negb (mem c sub_drop_chars)) body = body).
  { apply filter_id. eapply Forall_impl; [|exact Hb]. intros c [-> _]. reflexivity. }
  assert (Hf2 : filter (fun c => negb (mem c sub_end_chars)) body = body).
  { apply filter_id. eapply Forall_impl; [|exact Hb]. intros c [_ ->]. reflexivity. }
  destruct marks as [|m ms] eqn:Em.
  - rewrite app_nil_r. cbv zeta. rewrite Hf1, Hf2, (strip_nil_or_ends _ Hends).
    destruct body; [reflexivity | now rewrite app_nil_r].
  - rewrite <- Em in *. cbv zeta.
    replace (skipn (length marks - 2) marks) with marks
      by (replace (length marks - 2)%nat with 0%nat by lia; reflexivity).
    rewrite (strip_nil_or_ends _ Hends), Hf1, Hf2, (strip_nil_or_ends _ Hends).
    destruct body; reflexivity.
Qed.

Lemma display_assemble t0 e0 :
  Forall (fun c => mem c sub_end_chars = true) e0 -> (length e0 <= 2)%nat ->
  exists body marks,
    match strip (filter (fun c => negb (mem c sub_end_chars))
                   (filter (fun c => negb (mem c sub_drop_chars)) t0)) with
    | [] => e0
    | _ :: _ =>
        strip (filter (fun c => negb (mem c sub_end_chars))
                 (filter (fun c => negb (mem c sub_drop_chars)) t0)) ++ e0
    end = body ++ marks
    /\ display_shape body marks.
Proof.
  intros He1 He2.
  set (body := strip (filter (fun c => negb (mem c sub_end_chars))
                        (filter (fun c => negb (mem c sub_drop_chars)) t0))).
  assert (Hbody : display_shape body e0).
  { unfold display_shape. split; [|split; [|split; assumption]].
    - unfold body. apply Forall_strip. apply Forall_forall. intros c Hc.
      apply filter_In in Hc as [Hc H2]. apply filter_In in Hc as [_ H1].
      apply negb_true_iff in H1, H2. now split.
    - destruct body as [|b bs] eqn:Eb; [now left | right].
      rewrite <- Eb. unfold body. apply strip_ends. fold body. rewrite Eb. discriminate. }
  exists body, e0. split; [|exact Hbody]. fold body. now destruct body.
Qed.

Lemma display_result s :
  exists body marks,
    _subtitle_display_text s = body ++ marks /\ display_shape body marks.
Proof.
  unfold _subtitle_display_text.
  destruct (strip s) as [|c0 r0] eqn:E.
  { exists [], []. split; [reflexivity|]. repeat split; auto. }
  rewrite <- E. clear c0 r0 E.
  destruct (end_marks (strip s)) as [|m ms] eqn:Em.
  - apply display_assemble; [constructor | simpl; lia].
  - rewrite <- Em. apply display_assemble.
    + assert (Hall : Forall (fun c => mem c sub_end_chars = true) (end_marks (strip s))).
      { unfold end_marks. apply Forall_rev. apply take_while_Forall. }
      rewrite <- (firstn_skipn (length (end_marks (strip s)) - 2)) in Hall.
      now apply Forall_app in Hall.
    + rewrite length_skipn. lia.
Qed.

End SubtitleDisplay.

(** X19.  The text [_subtitle_display_text] returns shows none of the
    punctuation marks it is meant to hide (commas, full stops, colons,
    dashes, quotes, brackets and the like), and question and exclamation
    marks only at its end, two at most; the part before them neither
    starts nor ends with whitespace. *)
Theorem subtitle_display_clean s :
  exists body marks,
    _subtitle_display_text s = body ++ marks
    /\ display_shape body marks
    /\ Forall (fun c => mem c sub_drop_chars = false) (_subtitle_display_text s).
Proof.
  destruct (display_result s) as (body & marks & E & Hs).
  exists body, marks. split; [exact E|]. split; [exact Hs|].
  rewrite E. destruct Hs as (Hb & _ & Hm & _). apply Forall_app. split.
  - eapply Forall_impl; [|exact Hb]. cbv beta. tauto.
  - eapply Forall_impl; [|exact Hm]. intros c Hc.
    unfold mem, sub_end_chars in Hc. simpl in Hc.
    rewrite !orb_true_iff, !Z.eqb_eq in Hc.
    repeat (destruct Hc as [->|Hc]; [reflexivity|]). discriminate Hc.
Qed.

(** X20.  [_subtitle_display_text] is idempotent: a text it has returned
    is displayed as it is. *)
Theorem subtitle_display_idempotent s :
  _subtitle_display_text (_subtitle_display_text s) = _subtitle_display_text s.
Proof.
  destruct (display_result s) as (body & marks & -> & Hs).
  now apply display_fixed.
Qed.

(** ** [_allocate_durations] *)

Section AllocateDurations.

Lemma clamp_dur_bounds d : 8 # 10 <= clamp_dur d /\ clamp_dur d <= 30.
Proof.
  unfold clamp_dur.
  destruct (qmin_cases 30 d) as [[-> ?]|[-> ?]];
    destruct (qmax_cases (8 # 10) 30) as [[E1 ?]|[E1 ?]];
    destruct (qmax_cases (8 # 10) d) as [[E2 ?]|[E2 ?]];
    try rewrite E1; try rewrite E2; split; lra.
Qed.


Lemma Forall_set_nth {A} (P : A -> Prop) (x : A) l : forall i,
  P x -> Forall P l -> Forall P (set_nth i x l).
Proof.
  induction l as [|y l IH]; intros i Hx Hl; [destruct i; constructor|].
  apply Forall_cons_iff in Hl as [Hy Hl].
  destruct i; cbn [set_nth]; constructor; auto.
Qed.

Lemma redistribute_step_bounds target durs durs' :
  redistribute_step target durs = Some durs' ->
  Forall (fun d => 8 # 10 <= d /\ d <= 30) durs ->
  length durs' = length durs /\ Forall (fun d => 8 # 10 <= d /\ d <= 30) durs'.
Proof.
  unfold redistribute_step. cbv zeta.
  destruct (Qlt_le_dec _ (1 # 1000)); [discriminate|].
  destruct (length (filter _ durs)); [discriminate|].
  intros H Hall. injection H as <-. split; [apply length_map|].
  apply Forall_map. eapply Forall_impl; [|exact Hall]. cbv beta. intros d Hd.
  destruct (adjustable _ d); [apply clamp_dur_bounds | exact Hd].
Qed.

Lemma redistribute_loop_bounds n target : forall durs,
  Forall (fun d => 8 # 10 <= d /\ d <= 30) durs ->
  length (redistribute_loop n target durs) = length durs
  /\ Forall (fun d => 8 # 10 <= d /\ d <= 30) (redistribute_loop n target durs).
Proof.
  induction n as [|n IH]; intros durs Hall; cbn [redistribute_loop]; [now split|].
  destruct (redistribute_step target durs) as [durs'|] eqn:E; [|now split].
  destruct (redistribute_step_bounds _ _ _ E Hall) as [L Hall'].
  destruct (IH durs' Hall') as [L' H']. split; [congruence | exact H'].
Qed.

Lemma redistribute_bounds target durs :
  Forall (fun d => 8 # 10 <= d /\ d <= 30) durs ->
  length (_redistribute target durs) = length durs
  /\ Forall (fun d => 8 # 10 <= d /\ d <= 30) (_redistribute target durs).
Proof.
  intro Hall. unfold _redistribute. cbv zeta.
  destruct (redistribute_loop_bounds 10 target durs Hall) as [L H].
  destruct (redistribute_loop 10 target durs) as [|d ds] eqn:E; [now split|].
  rewrite <- E in *. split.
  - now rewrite length_set_nth.
  - apply Forall_set_nth; [apply clamp_dur_bounds | exact H].
Qed.

End AllocateDurations.

Lemma allocate_durations_bounds_helper lines total_sec :
  length (_allocate_durations lines total_sec) = length lines
  /\ Forall (fun d => 8 # 10 <= d /\ d <= 30) (_allocate_durations lines total_sec).
Proof.
  unfold _allocate_durations. destruct lines as [|l0 ls] eqn:E; [now split|].
  rewrite <- E. clear l0 ls E. cbv zeta.
  match goal with
  | |- length (_redistribute ?t ?d) = _ /\ _ =>
      destruct (redistribute_bounds t d) as [L H]
  end.
  - apply Forall_map. apply Forall_forall. intros x _. apply clamp_dur_bounds.
  - split; [|exact H]. now rewrite L, !length_map.
Qed.

(** X21.  [_allocate_durations] gives every line a duration, and each
    duration lies between 0.8 and 30 seconds, whatever the total. *)
Theorem allocate_durations_bounds lines total_sec :
  length (_allocate_durations lines total_sec) = length lines
  /\ Forall (fun d => 8 # 10 <= d /\ d <= 30) (_allocate_durations lines total_sec).
Proof. apply allocate_durations_bounds_helper. Qed.

Section AllocateExact.

Lemma qsum_from l : forall a, fold_left Qplus l a == a + qsum l.
Proof.
  unfold qsum. induction l as [|x l IH]; intro a; cbn [fold_left]; [lra|].
  rewrite (IH (a + x)), (IH (0 + x)). lra.
Qed.

Lemma qsum_cons x l : qsum (x :: l) == x + qsum l.
Proof. unfold qsum at 1. cbn [fold_left]. rewrite qsum_from. lra. Qed.










End AllocateExact.



(** ** From the plan to the render inputs *)

Section RenderItems.

Lemma snapped_pairs line_times fps total_dur :
  line_times <> [] ->
  (Z.of_nat (length line_times)
   <= total_frames_of (clamp_fps fps) (qmax 0 total_dur))%Z ->
  exists pairs : list (Z * Z),
    length pairs = length line_times
    /\ Forall (fun se => (fst se + 1 <= snd se)%Z) pairs
    /\ fst (_snap_line_times_to_fps line_times fps total_dur)
       = map (fun se : Z * Z => (inject_Z (fst se) / inject_Z (clamp_fps fps),
                                 inject_Z (snd se) / inject_Z (clamp_fps fps))) pairs
    /\ snd (_snap_line_times_to_fps line_times fps total_dur)
       = map (fun se : Z * Z => Z.max 1 (snd se - fst se)) pairs.
Proof.
  intros Hne Hn.
  destruct (end_frames_spec line_times _ _ Hne Hn) as (L & Hinc & _).
  exists (combine (0%Z :: removelast (end_frames_of line_times (clamp_fps fps)
                                        (qmax 0 total_dur)))
                  (end_frames_of line_times (clamp_fps fps) (qmax 0 total_dur))).
  split; [now rewrite length_frame_pairs|]. split; [now apply increasing_pairs|].
  unfold _snap_line_times_to_fps. destruct line_times; [congruence|]. now split.
Qed.

Lemma frames_fit (fps : Z) (pairs : list (Z * Z)) i :
  (0 < fps)%Z -> (i < length pairs)%nat ->
  Forall (fun se => (fst se + 1 <= snd se)%Z) pairs ->
  let times := map (fun se : Z * Z => (inject_Z (fst se) / inject_Z fps,
                                       inject_Z (snd se) / inject_Z fps)) pairs in
  let frames := map (fun se : Z * Z => Z.max 1 (snd se - fst se)) pairs in
  inject_Z (nth i frames 0%Z) / inject_Z fps
  == snd (nth i times (0, 0)) - fst (nth i times (0, 0)).
Proof.
  intros Hfps Hi Hall. cbv zeta.
  set (f := fun se : Z * Z => (inject_Z (fst se) / inject_Z fps,
                               inject_Z (snd se) / inject_Z fps)).
  set (g := fun se : Z * Z => Z.max 1 (snd se - fst se)).
  rewrite (nth_indep _ (0, 0) (f (0%Z, 0%Z))) by now rewrite length_map.
  rewrite (nth_indep _ 0%Z (g (0%Z, 0%Z))) by now rewrite length_map.
  rewrite !map_nth.
  assert (Hp : (fst (nth i pairs (0, 0)) + 1 <= snd (nth i pairs (0, 0)))%Z).
  { rewrite Forall_forall in Hall. apply Hall. now apply nth_In. }
  destruct (nth i pairs (0%Z, 0%Z)) as [s e]. unfold f, g. cbn [fst snd] in *.
  rewrite Z.max_r by lia. unfold Z.sub. rewrite inject_Z_plus, inject_Z_opp.
  field. intro E. unfold Qeq in E. cbn [Qnum Qden inject_Z] in E. lia.
Qed.

Lemma snap_frames_sum line_times fps total_dur :
  line_times <> [] ->
  (Z.of_nat (length line_times)
   <= total_frames_of (clamp_fps fps) (qmax 0 total_dur))%Z ->
  zsum (snd (_snap_line_times_to_fps line_times fps total_dur))
  = total_frames_of (clamp_fps fps) (qmax 0 total_dur).
Proof.
  intros Hne Hn.
  destruct (end_frames_spec line_times _ _ Hne Hn) as (L & Hinc & Hlast).
  unfold _snap_line_times_to_fps. destruct line_times as [|lt0 lts] eqn:El; [congruence|].
  rewrite <- El in *. cbv zeta. cbn [snd].
  set (ef := end_frames_of line_times (clamp_fps fps) (qmax 0 total_dur)) in *.
  assert (Hef : ef <> []) by (destruct ef; [rewrite El in L; discriminate | discriminate]).
  rewrite (frames_telescope ef 0 Hinc Hef), last_nth_Z, Hlast. lia.
Qed.

Lemma pick_segments_placed unit_texts unit_hints unit_times clips sims
  dedup_window_sec keyword_boost subtitle_heavy_penalty min_same_source_gap_sec segs :
  _pick_visual_segments_edgetts unit_texts unit_hints unit_times clips sims
    dedup_window_sec keyword_boost subtitle_heavy_penalty
    min_same_source_gap_sec = inr segs ->
  length segs = length unit_texts
  /\ forall i, (i < length segs)%nat ->
       (seg_start (nth i segs dummy_segment), seg_end (nth i segs dummy_segment))
       = nth i unit_times (0, 0)
       /\ well_placed (unit_target (nth i segs dummy_segment)) (nth i segs dummy_segment).
Proof.
  unfold _pick_visual_segments_edgetts.
  destruct (schedule_trace _ _ _ _ _ _ _ _ _) as [e|picks] eqn:E; [discriminate|].
  intro H. injection H as <-.
  destruct (schedule_trace_run _ _ _ _ _ _ _ _ _ _ E) as (hints & shot_map & Hrun).
  destruct (unit_loop_picks _ _ _ _ _ _ _ _ _ _ _ _ _ Hrun) as [L Hj].
  rewrite length_map. split; [exact L|].
  intros i Hi. change dummy_segment with (p_segment dummy_pick). rewrite map_nth.
  destruct (Hj i Hi) as (_ & S & T & W). split; [exact S|]. now rewrite <- T.
Qed.

Lemma render_item_nth segs frames fps i :
  (i < length segs)%nat ->
  nth i (render_items segs frames fps) (mk_render_item [] 0 0 0)
  = let item := nth i segs dummy_segment in
    let clip_len := qmax (1 # 1000) (seg_out item - seg_in item) in
    mk_render_item (seg_source item) (seg_in item) clip_len
      (Z.max 1 (if (i <? length frames)%nat then nth i frames 0%Z
                else round_half_even (clip_len * inject_Z fps))).
Proof.
  intro Hi. unfold render_items.
  set (F := fun iseg : nat * Segment => let '(i, item) := iseg in _).
  assert (Hlen : (i < length (combine (seq 0 (length segs)) segs))%nat)
    by (rewrite length_combine, length_seq; lia).
  rewrite (nth_indep _ _ (F (0%nat, dummy_segment))) by now rewrite length_map.
  rewrite map_nth, combine_nth by apply length_seq.
  rewrite seq_nth by exact Hi. reflexivity.
Qed.

Lemma length_render_items segs frames fps :
  length (render_items segs frames fps) = length segs.
Proof.
  unfold render_items. rewrite length_map, length_combine, length_seq. lia.
Qed.

End RenderItems.

(** X23.  When the timing and matching steps of [run_render_job] succeed
    for a script with no more lines than frames, there is one render
    input per line, the frames to render add up to the total frame count
    of the narration, and the frames of a line are read from inside the
    shot chosen for it: reading starts at the segment's in point, not
    before the shot starts, and the frames end at most a microsecond
    after the shot's end. *)
Theorem render_items_inside words script_lines voice_dur out_fps unit_hints
  clips sims dedup_window_sec keyword_boost subtitle_heavy_penalty
  line_times frames segs :
  script_lines <> [] ->
  (Z.of_nat (length script_lines)
   <= total_frames_of (clamp_fps out_fps) (qmax 0 voice_dur))%Z ->
  render_plan words script_lines voice_dur out_fps unit_hints clips sims
    dedup_window_sec keyword_boost subtitle_heavy_penalty
  = inr (line_times, frames, segs) ->
  let items := render_items segs frames out_fps in
  length items = length script_lines
  /\ zsum (map ri_nframes items) = total_frames_of (clamp_fps out_fps) (qmax 0 voice_dur)
  /\ forall i, (i < length items)%nat ->
       let it := nth i items (mk_render_item [] 0 0 0) in
       let seg := nth i segs dummy_segment in
       ri_source it = seg_source seg
       /\ ri_in it = seg_in seg
       /\ seg_shot_start seg <= ri_in it
       /\ ri_in it + inject_Z (ri_nframes it) / inject_Z (clamp_fps out_fps)
          <= seg_shot_end seg + (1 # 1000000).
Proof.
  intros Hne Hn. unfold render_plan.
  destruct (align_script_parts_to_words words script_lines (Some voice_dur))
    as [e|lt0] eqn:Ea; [discriminate|].
  destruct (Nat.eqb_spec (length lt0) (length script_lines)) as [L0|]; [|discriminate].
  cbn [negb].
  assert (Hlt0 : lt0 <> []).
  { intro E. rewrite E in L0. destruct script_lines; [congruence | discriminate]. }
  rewrite <- L0 in Hn.
  destruct (snapped_pairs lt0 out_fps voice_dur Hlt0 Hn) as (pairs & Lp & Hinc & Ht & Hf).
  pose proof (snap_frames_sum lt0 out_fps voice_dur Hlt0 Hn) as Hsum.
  destruct (_snap_line_times_to_fps lt0 out_fps voice_dur) as [lt1 fr1].
  cbn [fst snd] in Ht, Hf, Hsum. subst lt1 fr1.
  rewrite !length_map, Lp, L0, Nat.eqb_refl. cbn [negb orb].
  destruct (_pick_visual_segments_edgetts _ _ _ _ _ _ _ _ _) as [e|segments] eqn:Es;
    [discriminate|].
  intro H. injection H as <- <- <-. cbv zeta.
  destruct (pick_segments_placed _ _ _ _ _ _ _ _ _ _ Es) as [Ls Hseg].
  set (f := fun se : Z * Z => (inject_Z (fst se) / inject_Z (clamp_fps out_fps),
                               inject_Z (snd se) / inject_Z (clamp_fps out_fps))) in *.
  set (g := fun se : Z * Z => Z.max 1 (snd se - fst se)) in *.
  assert (Hfps : (0 < clamp_fps out_fps)%Z) by (unfold clamp_fps; lia).
  assert (Hframes : forall i, (i < length segments)%nat ->
            ri_nframes (nth i (render_items segments (map g pairs) out_fps)
                          (mk_render_item [] 0 0 0))
            = nth i (map g pairs) 0%Z).
  { intros i Hi. rewrite render_item_nth by exact Hi. cbv zeta. cbn [ri_nframes].
    rewrite length_map, Lp, L0, <- Ls.
    destruct (Nat.ltb_spec i (length segments)) as [_|]; [|lia].
    rewrite (nth_indep _ 0%Z (g (0%Z, 0%Z))) by (rewrite length_map; lia).
    rewrite map_nth. unfold g. lia. }
  rewrite length_render_items.
  split; [exact Ls|]. split.
  - rewrite <- Hsum. f_equal.
    apply (nth_ext _ _ (ri_nframes (mk_render_item [] 0 0 0)) 0%Z).
    + rewrite !length_map, length_render_items. lia.
    + intros i Hi. rewrite length_map, length_render_items in Hi.
      rewrite map_nth. now apply Hframes.
  - intros i Hi.
    destruct (Hseg i Hi) as [Htimes (Hlen & Hstart & _ & Hend & _)].
    pose proof (Hframes i Hi) as Hn'.
    rewrite render_item_nth in * by exact Hi. cbv zeta in *.
    cbn [ri_source ri_in ri_nframes] in *.
    split; [reflexivity|]. split; [reflexivity|]. split; [exact Hstart|].
    rewrite Hn'.
    pose proof (frames_fit (clamp_fps out_fps) pairs i Hfps ltac:(lia) Hinc) as Hfit.
    cbv zeta in Hfit. fold f g in Hfit. rewrite Hfit, <- Htimes. cbn [fst snd].
    pose proof (qmax_r (5 # 100)
                  (seg_end (nth i segments dummy_segment)
                   - seg_start (nth i segments dummy_segment))) as Hq.
    unfold unit_target in Hlen. lra.
Qed.

Lemma render_items_inside_witness :
  exists line_times frames segs,
    render_plan two_words [nihao; shijie] (12 # 10) 30 [] [clip_a; clip_b]
      (fun _ _ => 0) 60 (1 # 10) (6 # 100) = inr (line_times, frames, segs)
    /\ length (render_items segs frames 30) = 2%nat
    /\ zsum (map ri_nframes (render_items segs frames 30))
       = total_frames_of (clamp_fps 30) (qmax 0 (12 # 10)).
Proof.
  destruct (render_plan two_words [nihao; shijie] (12 # 10) 30 [] [clip_a; clip_b]
              (fun _ _ => 0) 60 (1 # 10) (6 # 100))
    as [e|[[lt fr] segs]] eqn:E; [vm_compute in E; discriminate|].
  exists lt, fr, segs. split; [reflexivity|].
  destruct (render_items_inside two_words [nihao; shijie] (12 # 10) 30 []
              [clip_a; clip_b] (fun _ _ => 0) 60 (1 # 10) (6 # 100) lt fr segs)
    as (H1 & H2 & _).
  - discriminate.
  - vm_compute. discriminate.
  - exact E.
  - split; [exact H1 | exact H2].
Defined.

(** ** From the index to the shot map *)

Section IndexedShots.

Lemma nth_error_enumerate {A} (l : list A) : forall k i si x,
  nth_error (combine (seq k (length l)) l) i = Some (si, x) ->
  si = (k + i)%nat /\ nth_error l i = Some x.
Proof.
  induction l as [|y l IH]; intros k i si x H; [destruct i; discriminate|].
  cbn [length seq combine] in H. destruct i as [|i]; cbn [nth_error] in *.
  - injection H as <- <-. split; [lia | reflexivity].
  - destruct (IH _ _ _ _ H) as [-> Hx]. split; [lia | exact Hx].
Qed.

Lemma nth_error_enumerate_inv {A} (l : list A) : forall k i x,
  nth_error l i = Some x ->
  nth_error (combine (seq k (length l)) l) i = Some ((k + i)%nat, x).
Proof.
  induction l as [|y l IH]; intros k i x H; [destruct i; discriminate|].
  cbn [length seq combine]. destruct i as [|i]; cbn [nth_error] in *.
  - injection H as <-. now rewrite Nat.add_0_r.
  - rewrite (IH (S k) i x H). f_equal. f_equal. lia.
Qed.

Variable video_path : pystr.
Hypothesis path_given : video_path <> [].
Variable info : nat -> pystr * pystr * list pystr.

Lemma index_clips_nth ws i c :
  nth_error (index_clips video_path info ws) i = Some c ->
  exists w, nth_error ws i = Some w
            /\ c = index_clip video_path (fst (fst (info i))) (snd (fst (info i)))
                     (snd (info i)) w.
Proof.
  unfold index_clips. rewrite nth_error_map.
  destruct (nth_error (combine (seq 0 (length ws)) ws) i) as [[si w]|] eqn:Hn;
    [|discriminate].
  cbn [option_map]. intro H. injection H as <-.
  destruct (nth_error_enumerate _ _ _ _ _ Hn) as [-> Hw]. cbn [Nat.add].
  exists w. split; [exact Hw|]. now destruct (info i) as [[a b] f].
Qed.

Lemma index_clips_nth_inv ws i w :
  nth_error ws i = Some w ->
  nth_error (index_clips video_path info ws) i
  = Some (index_clip video_path (fst (fst (info i))) (snd (fst (info i)))
            (snd (info i)) w).
Proof.
  intro H. unfold index_clips.
  rewrite nth_error_map, (nth_error_enumerate_inv ws 0 i w H).
  cbn [option_map Nat.add]. now destruct (info i) as [[a b] f].
Qed.

Lemma index_clip_usable a b f w : usable_clip (index_clip video_path a b f w) = true.
Proof.
  unfold usable_clip, index_clip. cbn [c_shot_id c_source_path].
  destruct video_path; [congruence|].
  destruct (Z.ltb_spec (Z.of_nat (wc_shot_id w)) 0); [lia | reflexivity].
Qed.

Lemma index_clip_bounds a b f w :
  wc_shot_start w + (1 # 1000000) < wc_shot_end w ->
  clip_shot_bounds (index_clip video_path a b f w) = (wc_shot_start w, wc_shot_end w).
Proof.
  intro H. unfold clip_shot_bounds, index_clip.
  cbn [c_shot_start c_shot_end c_start c_end get_or].
  destruct (Qlt_le_dec _ _); [reflexivity | lra].
Qed.

End IndexedShots.

(** Every window of a tiling belongs to one of the shots, whose number
    and bounds it carries. *)
Lemma tiled_from_member shots : forall sid groups w,
  tiled_from sid shots groups -> In w (concat groups) ->
  exists j, nth_error shots j = Some (wc_shot_start w, wc_shot_end w)
            /\ wc_shot_id w = (sid + j)%nat.
Proof.
  induction shots as [|[ss se] shots IH]; intros sid [|g groups] w Ht Hin;
    cbn [tiled_from] in Ht; try contradiction.
  destruct Ht as [Hg Ht]. cbn [concat] in Hin. apply in_app_or in Hin as [Hin|Hin].
  - destruct Hg as (_ & Hall & _). rewrite Forall_forall in Hall.
    destruct (Hall w Hin) as (A & B & C & _).
    exists 0%nat. rewrite B, C, A. split; [reflexivity | lia].
  - destruct (IH _ _ w Ht Hin) as (j & Hj & Hid).
    exists (S j). split; [exact Hj | lia].
Qed.

(** Every shot of a tiling has a window. *)
Lemma tiled_from_window shots : forall sid groups j ss se,
  tiled_from sid shots groups -> nth_error shots j = Some (ss, se) ->
  exists w, In w (concat groups) /\ wc_shot_id w = (sid + j)%nat.
Proof.
  induction shots as [|[ss0 se0] shots IH]; intros sid [|g groups] j ss se Ht Hj;
    cbn [tiled_from] in Ht; try contradiction; [destruct j; discriminate|].
  destruct Ht as [Hg Ht]. destruct j as [|j].
  - destruct Hg as (Hne & Hall & _). destruct g as [|w g]; [congruence|].
    exists w. split; [cbn; now left|].
    apply Forall_cons_iff in Hall as [(A & _) _]. lia.
  - cbn [nth_error] in Hj. destruct (IH _ _ _ _ _ Ht Hj) as (w & Hin & Hid).
    exists w. split; [cbn [concat]; apply in_or_app; now right | lia].
Qed.

(** X24.  The index feeds the scheduler the real shots: when the clip
    records [run_index_job] stores for the windows of
    [_window_clips_from_shots] of a video are read back by
    [_build_shot_index], among the records of other videos, the shot map
    holds, for the [k]-th shot longer than a fifth of a second, an entry
    under the video's path and the number [k] whose start and end are
    those of that shot. *)
Theorem indexed_shots_recovered shots min_sec target_sec max_sec video_path info
  before after :
  video_path <> [] ->
  Forall (fun c => c_source_path c <> video_path) (before ++ after) ->
  exists clips,
    _window_clips_from_shots shots min_sec target_sec max_sec = Some clips
    /\ forall k ss se,
         nth_error (kept_shots shots) k = Some (ss, se) ->
         exists m,
           dict_get (_build_shot_index
                       (before ++ index_clips video_path info clips ++ after))
                    (video_path, Z.of_nat k) = Some m
           /\ m_start m = ss /\ m_end m = se.
Proof.
  intros Hpath Hothers.
  destruct (window_clips_core shots min_sec target_sec max_sec) as (groups & E & Ht).
  exists (concat groups). split; [exact E|].
  intros k ss se Hk.
  set (idx := index_clips video_path info (concat groups)).
  (* the bounds of any stored clip with the number [k] are those of the shot *)
  assert (Hbounds : forall i c, nth_error (before ++ idx ++ after) i = Some c ->
            clip_key c = (video_path, Z.of_nat k) ->
            clip_shot_bounds c = (ss, se)).
  { intros i c Hc Hkey. apply nth_error_In in Hc.
    assert (Hin : In c idx).
    { apply Forall_app in Hothers as [Hb Ha]. rewrite Forall_forall in Hb, Ha.
      apply in_app_or in Hc as [Hc|Hc]; [|apply in_app_or in Hc as [Hc|Hc]]; auto.
      - elim (Hb c Hc). unfold clip_key in Hkey. congruence.
      - elim (Ha c Hc). unfold clip_key in Hkey. congruence. }
    destruct (In_nth_error _ _ Hin) as (i' & Hc').
    destruct (index_clips_nth video_path info _ _ _ Hc') as (w & Hw & ->).
    apply nth_error_In in Hw.
    destruct (tiled_from_member _ _ _ w Ht Hw) as (j & Hj & Hid).
    unfold clip_key, index_clip in Hkey. cbn [c_source_path c_shot_id] in Hkey.
    injection Hkey as Hkey. apply Nat2Z.inj in Hkey.
    assert (j = k) by lia. subst j. rewrite Hk in Hj. injection Hj as -> ->.
    apply index_clip_bounds.
    assert (Hk' : In (wc_shot_start w, wc_shot_end w) (kept_shots shots))
      by (now apply (nth_error_In _ k)).
    unfold kept_shots in Hk'. apply filter_In in Hk' as [_ Hk']. cbn [fst snd] in Hk'.
    destruct (Qlt_le_dec (wc_shot_start w + (2 # 10)) (wc_shot_end w));
      [lra | discriminate]. }
  (* the shot has a window, hence a stored clip *)
  destruct (tiled_from_window _ _ _ k ss se Ht Hk) as (w & Hw & Hid).
  destruct (In_nth_error _ _ Hw) as (i & Hi).
  pose proof (index_clips_nth_inv video_path info _ _ _ Hi) as Hc.
  fold idx in Hc.
  assert (Hc' : nth_error (before ++ idx ++ after) (length before + i)
                = Some (index_clip video_path (fst (fst (info i))) (snd (fst (info i)))
                          (snd (info i)) w)).
  { rewrite nth_error_app2 by lia.
    replace (length before + i - length before)%nat with i by lia.
    rewrite nth_error_app1; [exact Hc|]. apply nth_error_Some. congruence. }
  destruct (proj1 (build_shot_index_inv (before ++ idx ++ after)) _ _ Hc'
              (index_clip_usable video_path Hpath _ _ _ _))
    as (m & Hm & _).
  assert (Hkey : clip_key (index_clip video_path (fst (fst (info i))) (snd (fst (info i)))
                             (snd (info i)) w) = (video_path, Z.of_nat k)).
  { unfold clip_key, index_clip. cbn [c_source_path c_shot_id]. now rewrite Hid. }
  rewrite Hkey in Hm. exists m. split; [exact Hm|].
  destruct (proj2 (build_shot_index_inv (before ++ idx ++ after)) _ _ Hm)
    as (_ & _ & C & (i1 & c1 & D1 & D2 & D3) & (i2 & c2 & E1 & E2 & E3)).
  destruct (C i1 D1) as (x1 & Hx1 & _ & Hk1). rewrite D2 in Hx1. injection Hx1 as <-.
  destruct (C i2 E1) as (x2 & Hx2 & _ & Hk2). rewrite E2 in Hx2. injection Hx2 as <-.
  rewrite D3, E3, (Hbounds i1 c1 D2 Hk1), (Hbounds i2 c2 E2 Hk2). now split.
Qed.

Lemma indexed_shots_recovered_witness :
  exists clips,
    _window_clips_from_shots [(0, 7); (8, 10)] 3 5 6 = Some clips
    /\ forall k ss se,
         nth_error (kept_shots [(0, 7); (8, 10)]) k = Some (ss, se) ->
         exists m,
           dict_get (_build_shot_index
                       ([clip_a] ++ index_clips [118%Z] (fun _ => ([], [], [])) clips
                        ++ [clip_b]))
                    ([118%Z], Z.of_nat k) = Some m
           /\ m_start m = ss /\ m_end m = se.
Proof.
  apply (indexed_shots_recovered [(0, 7); (8, 10)] 3 5 6 [118%Z] (fun _ => ([], [], []))
           [clip_a] [clip_b]).
  - discriminate.
  - repeat constructor; discriminate.
Defined.

(** ** [_partition_words_by_part_weights] *)

Section Partition.

Local Open Scope Z_scope.

Lemma greedy_parts_valid (n k : Z) ws : forall i a,
  ws <> [] ->
  Z.of_nat (length ws) = k - i ->
  0 <= a <= n - (k - i) ->
  length (greedy_parts n k ws i a) = length ws
  /\ Forall (fun ab : Z * Z => 0 <= fst ab < n /\ 0 <= snd ab <= n)
       (greedy_parts n k ws i a).
Proof.
  induction ws as [|w ws IH]; intros i a Hne Hlen Ha; [congruence|].
  destruct ws as [|w' ws'].
  - cbn [greedy_parts length] in *. split; [reflexivity|].
    constructor; [|constructor]. cbn [fst snd]. lia.
  - change (greedy_parts n k (w :: w' :: ws') i a)
      with (let target := (inject_Z (n - a)
                           * (inject_Z w / inject_Z (zsum (w :: w' :: ws'))))%Q in
            let take := Z.max 1 (round_half_even target) in
            let b := Z.min (n - (k - i - 1)) (a + take) in
            (a, b) :: greedy_parts n k (w' :: ws') (i + 1) b).
    cbv zeta.
    set (take := Z.max 1 (round_half_even _)).
    set (b := Z.min (n - (k - i - 1)) (a + take)).
    assert (Hlen' : Z.of_nat (length (w' :: ws')) = k - (i + 1))
      by (cbn [length] in *; lia).
    assert (Hk : 2 <= k - i) by (cbn [length] in Hlen; lia).
    assert (Hb : 0 <= b <= n - (k - (i + 1))) by (unfold b, take; lia).
    destruct (IH (i + 1) b ltac:(discriminate) Hlen' Hb) as [L H].
    split; [cbn [length] in *; now rewrite L|].
    constructor; [cbn [fst snd]; lia | exact H].
Qed.

(** What a cell of the table may point back to: nothing, or a boundary
    before its own. *)
Lemma dp_cell_back dp st en ed i j :
  let a := snd (dp_cell dp st en ed i j) in
  a = -1 \/ (0 <= a < Z.of_nat j).
Proof.
  unfold dp_cell. cbv zeta.
  assert (G : forall l acc,
            Forall (fun a => (a < j)%nat) l ->
            snd acc = -1 \/ 0 <= snd acc < Z.of_nat j ->
            let r := fold_left
              (fun (acc : Q * Z) (a : nat) =>
                 let '(best, best_a) := acc in
                 if Qlt_le_dec (neg / 2) (nth a dp neg) then
                   let dur := (nth (j - 1)%nat en 0 - nth a st 0)%Q in
                   if Qlt_le_dec 0 dur then
                     let dur_pen := (Qabs (dur - ed) / ed)%Q in
                     let score := (- (75 # 100) * dur_pen)%Q in
                     let val := (nth a dp neg + score)%Q in
                     if Qlt_le_dec best val then (val, Z.of_nat a) else (best, best_a)
                   else (best, best_a)
                 else (best, best_a)) l acc in
            snd r = -1 \/ 0 <= snd r < Z.of_nat j).
  { induction l as [|a l IH]; intros [best best_a] Hl Hacc; cbn [fold_left]; [exact Hacc|].
    apply Forall_cons_iff in Hl as [Ha Hl]. apply IH; [exact Hl|].
    cbv zeta. destruct (Qlt_le_dec _ (nth a dp neg)); [|exact Hacc].
    destruct (Qlt_le_dec 0 _); [|exact Hacc].
    destruct (Qlt_le_dec best _); [|exact Hacc].
    right. cbn [snd]. lia. }
  apply G; [|now left].
  apply Forall_forall. intros a Ha. apply in_seq in Ha. lia.
Qed.

Lemma dp_row_back dp st en ed n i : back_row (snd (dp_row dp st en ed n i)).
Proof.
  unfold dp_row. cbv zeta. cbn [snd]. intro j.
  set (f := fun c : Q * Z => if 0 <=? snd c then snd c else -1).
  set (g := fun j : nat => if (i <=? j)%nat then dp_cell dp st en ed i j else (neg, -1)).
  destruct (Nat.lt_ge_cases j (S n)) as [Hj|Hj].
  - rewrite (nth_indep _ (-1) (f (g 0%nat))) by (now rewrite !length_map, length_seq).
    rewrite !map_nth, seq_nth by exact Hj. cbn [Nat.add].
    unfold f, g. destruct (i <=? j)%nat.
    + pose proof (dp_cell_back dp st en ed i j) as H. cbv zeta in H.
      destruct (Z.leb_spec 0 (snd (dp_cell dp st en ed i j))); [|now left].
      destruct H as [H|H]; [lia | now right].
    + cbn [snd]. now left.
  - left. apply nth_overflow. rewrite !length_map, length_seq. lia.
Qed.

Lemma dp_rows_back exp : forall dp st en n i,
  Forall back_row (dp_rows dp st en exp n i).
Proof.
  induction exp as [|e exp IH]; intros dp st en n i; cbn [dp_rows]; [constructor|].
  pose proof (dp_row_back dp st en (qmax (25 # 100) e) n i) as Hr.
  destruct (dp_row dp st en (qmax (25 # 100) e) n i) as [ndp row]. cbn [snd] in Hr.
  constructor; [exact Hr | apply IH].
Qed.

Lemma backtrack_valid (n : Z) (k : nat) row0 rows : forall i j bounds,
  Forall back_row rows ->
  (i <= k)%nat -> 0 <= j <= n ->
  length bounds = S k ->
  nth k bounds 0 = n ->
  (forall p, (p < k)%nat -> 0 <= nth p bounds 0 <= n - 1) ->
  let r := backtrack (row0 :: rows) i j bounds in
  length r = S k /\ nth k r 0 = n
  /\ forall p, (p < k)%nat -> 0 <= nth p r 0 <= n - 1.
Proof.
  induction i as [|i IH]; intros j bounds Hrows Hi Hj L Hk Hp; cbn [backtrack];
    [exact (conj L (conj Hk Hp))|].
  cbn [nth].
  destruct (Z.ltb_spec (nth (Z.to_nat j) (nth i rows []) (-1)) 0) as [|Ha];
    [exact (conj L (conj Hk Hp))|].
  set (a := nth (Z.to_nat j) (nth i rows []) (-1)) in *.
  assert (Hback : 0 <= a < j).
  { destruct (Nat.lt_ge_cases i (length rows)) as [Hlt|Hge].
    - rewrite Forall_forall in Hrows.
      destruct (Hrows (nth i rows []) (nth_In _ _ Hlt) (Z.to_nat j)) as [H|H];
        fold a in H; lia.
    - unfold a in Ha. rewrite (nth_overflow rows) in Ha by exact Hge.
      destruct (Z.to_nat j); cbn in Ha; lia. }
  apply IH; auto; try lia.
  - now rewrite length_set_nth.
  - rewrite nth_set_nth_neq by lia. exact Hk.
  - intros p Hpk. destruct (Nat.eq_dec p i) as [->|Hne].
    + rewrite nth_set_nth_eq by lia. lia.
    + rewrite nth_set_nth_neq by lia. now apply Hp.
Qed.

End Partition.

(** X25.  [_partition_words_by_part_weights] returns as many ranges as
    there are parts, or as there are words when they are fewer, and
    every range [(a, b)] designates words that exist: [0 <= a < n] and
    [0 <= b <= n] for [n] words, so that [local[a]] is never out of
    range in [build_units_from_meta]. *)
Theorem partition_ranges_valid words part_weights total_dur :
  length (_partition_words_by_part_weights words part_weights total_dur)
  = Nat.min (length part_weights) (length words)
  /\ Forall (fun ab : Z * Z =>
               (0 <= fst ab < Z.of_nat (length words))%Z
               /\ (0 <= snd ab <= Z.of_nat (length words))%Z)
       (_partition_words_by_part_weights words part_weights total_dur).
Proof.
  unfold _partition_words_by_part_weights. cbv zeta.
  set (n := length words). set (k := length part_weights).
  destruct k as [|k'] eqn:Ek; [split; [reflexivity | constructor]|].
  destruct n as [|n'] eqn:En; [split; [reflexivity | constructor]|].
  rewrite <- Ek, <- En.
  destruct (Nat.leb_spec n k) as [Hle|Hlt].
  - split; [rewrite length_map, length_seq; lia|].
    apply Forall_forall. intros ab Hab. apply in_map_iff in Hab as (i & <- & Hi).
    apply in_seq in Hi. cbn [fst snd]. lia.
  - set (ws := map (Z.max 1) part_weights).
    match goal with
    | |- context [if (?x <? 0)%Z then _ else _] => destruct (Z.ltb_spec x 0) as [_|_]
    end.
    + destruct (greedy_parts_valid (Z.of_nat n) (Z.of_nat k) ws 0 0) as [L H].
      * unfold ws. destruct part_weights; [subst k; discriminate | discriminate].
      * unfold ws. rewrite length_map. fold k. lia.
      * lia.
      * split; [|exact H]. rewrite L. unfold ws. rewrite length_map. fold k. lia.
    + assert (B1 : length (set_nth k (Z.of_nat n) (repeat 0%Z (S k))) = S k)
        by (now rewrite length_set_nth, repeat_length).
      assert (B2 : nth k (set_nth k (Z.of_nat n) (repeat 0%Z (S k))) 0%Z = Z.of_nat n)
        by (apply nth_set_nth_eq; rewrite repeat_length; lia).
      assert (B3 : forall p, (p < k)%nat ->
                (0 <= nth p (set_nth k (Z.of_nat n) (repeat 0%Z (S k))) 0
                 <= Z.of_nat n - 1)%Z).
      { intros p Hp. rewrite nth_set_nth_neq by lia.
        rewrite nth_repeat_lt by lia. lia. }
      assert (B0 : (0 <= Z.of_nat n <= Z.of_nat n)%Z) by lia.
      match goal with
      | |- context [backtrack (?r0 :: ?rows) k (Z.of_nat n) ?b] =>
          pose proof (backtrack_valid (Z.of_nat n) k r0 rows k (Z.of_nat n) b
                        (dp_rows_back _ _ _ _ _ _) (le_n k) B0 B1 B2 B3)
            as (L & Hk & Hp)
      end.
      split; [rewrite length_map, length_seq; lia|].
      apply Forall_forall. intros ab Hab. apply in_map_iff in Hab as (i & <- & Hi).
      apply in_seq in Hi. cbn [fst snd].
      split; [specialize (Hp i ltac:(lia)); lia|].
      destruct (Nat.eq_dec (S i) k) as [E|Hne]; [rewrite E, Hk; lia|].
      specialize (Hp (S i) ltac:(lia)). lia.
Qed.

(** ** The texts of [build_units_from_meta] *)

Section UnitTexts.

Local Open Scope Z_scope.

Variable m : Z.
Hypothesis m_pos : 1 <= m.

Lemma strip_spaceless c : spaceless c -> strip c = c.
Proof.
  intro Hs. destruct c as [|x r] eqn:E; [reflexivity|]. rewrite <- E in *.
  assert (Hne : c <> []) by (rewrite E; discriminate).
  unfold spaceless in Hs. rewrite Forall_forall in Hs.
  apply strip_id; [exact Hne | |].
  - apply Hs. rewrite E. now left.
  - apply Hs. destruct (exists_last Hne) as (l & y & ->).
    rewrite last_last. apply in_or_app. right. now left.
Qed.

Lemma split_one_line_fits text : Forall (fits_line m) (split_one_line text m).
Proof.
  pose proof (proj2 (split_one_line_core text m)) as H.
  rewrite Z.max_r in H by exact m_pos. exact H.
Qed.

Lemma strip_parts_fits parts :
  Forall (fits_line m) parts -> Forall (fits_line m) (map strip (filter nonblank parts)).
Proof.
  intro H. apply Forall_map. apply Forall_forall. intros c Hc.
  apply filter_In in Hc as [Hc _]. rewrite Forall_forall in H.
  destruct (H c Hc) as (A & B & C). rewrite (strip_spaceless c B). now repeat split.
Qed.

Lemma merge_parts_fits parts :
  Forall (fits_line m) parts -> Forall (fits_line m) (merge_parts m parts).
Proof.
  intro H. unfold merge_parts.
  match goal with
  | |- context [fold_left ?f0 parts ?a0] => set (f := f0); set (a := a0)
  end.
  assert (G : forall l acc,
            Forall (fits_line m) l ->
            Forall (fits_line m) (fst acc) ->
            (snd acc = [] \/ fits_line m (snd acc)) ->
            Forall (fits_line m) (fst (fold_left f l acc))
            /\ (snd (fold_left f l acc) = [] \/ fits_line m (snd (fold_left f l acc)))).
  { induction l as [|p l IH]; intros [merged cur] Hl Hm Hc; cbn [fold_left];
      [now split|].
    apply Forall_cons_iff in Hl as [Hp Hl]. cbn [fst snd] in *.
    apply IH; [exact Hl | |]; unfold f.
    - destruct cur as [|c0 cr] eqn:Ec; [exact Hm|].
      destruct (_visible_len_zh _ <=? m); [exact Hm|]. cbn [fst].
      apply Forall_app. split; [exact Hm|]. constructor; [|constructor].
      destruct Hc as [Hc|Hc]; [discriminate | exact Hc].
    - destruct cur as [|c0 cr] eqn:Ec; [right; exact Hp|]. rewrite <- Ec in *.
      destruct Hc as [Hc|Hc]; [rewrite Ec in Hc; discriminate|].
      destruct (Z.leb_spec (_visible_len_zh (cur ++ p)) m) as [Hv|Hv]; cbn [snd];
        [|right; exact Hp].
      right. destruct Hc as (A & B & C), Hp as (A' & B' & C').
      assert (Hs : spaceless (cur ++ p)) by (apply Forall_app; now split).
      split; [destruct cur; [congruence | discriminate]|]. split; [exact Hs|].
      now rewrite <- (visible_len_spaceless _ Hs). }
  destruct (G parts a H) as [G1 G2]; [constructor | now left |].
  destruct (fold_left f parts a) as [merged cur]. cbn [fst snd] in *.
  destruct cur as [|c0 cr] eqn:Ec; [exact G1|].
  apply Forall_app. split; [exact G1|]. constructor; [|constructor].
  destruct G2 as [G2|G2]; [discriminate | exact G2].
Qed.

Lemma even_units_texts parts : forall t per s_end,
  map u_text (even_units parts t per s_end) = parts.
Proof.
  induction parts as [|p parts IH]; intros t per s_end; cbn [even_units map];
    [reflexivity|]. now rewrite IH.
Qed.

Lemma set_last_end_texts units e : map u_text (set_last_end units e) = map u_text units.
Proof.
  unfold set_last_end. destruct units as [|u us] eqn:E; [reflexivity|].
  rewrite <- E. assert (Hne : units <> []) by (rewrite E; discriminate).
  assert (E2 : map u_text units
               = map u_text (removelast units)
                 ++ [u_text (last units (mk_unit [] 0 0))]).
  { rewrite (app_removelast_last (mk_unit [] 0 0) Hne) at 1.
    rewrite map_app. reflexivity. }
  rewrite map_app, E2. reflexivity.
Qed.

Lemma sentence_step_fits units rest s :
  Forall (fits_line m) (map u_text units) ->
  Forall (fits_line m) (map u_text (fst (sentence_step m (units, rest) s))).
Proof.
  intro H. unfold sentence_step.
  destruct (Qlt_le_dec _ (s_end s)); [|exact H].
  destruct (take_local (skip_ended rest (s_start s)) (s_end s)) as [local after].
  pose proof (strip_parts_fits _ (split_one_line_fits (s_text s))) as Hparts.
  destruct (map strip (filter nonblank (split_one_line (s_text s) m)))
    as [|p0 ps0] eqn:Ep; [exact H|].
  rewrite <- Ep in *. clear p0 ps0 Ep.
  set (parts := map strip (filter nonblank (split_one_line (s_text s) m))) in *.
  destruct local as [|w0 local'] eqn:El.
  - cbn [fst]. rewrite set_last_end_texts, map_app, even_units_texts.
    apply Forall_app. now split.
  - rewrite <- El. clear w0 local' El. cbv zeta. cbn [fst].
    set (parts' := if (length local <? length parts)%nat
                   then if (length (merge_parts m parts) <=? length local)%nat
                        then merge_parts m parts
                        else firstn (length local) parts
                   else parts).
    assert (Hp' : Forall (fits_line m) parts').
    { unfold parts'. destruct (length local <? length parts)%nat; [|exact Hparts].
      destruct (length (merge_parts m parts) <=? length local)%nat.
      - now apply merge_parts_fits.
      - rewrite <- (firstn_skipn (length local) parts) in Hparts.
        now apply Forall_app in Hparts. }
    rewrite map_app. apply Forall_app. split; [exact H|].
    rewrite map_map. apply Forall_map. apply Forall_forall. intros [p g] Hin.
    unfold group_unit. cbn [u_text fst].
    apply in_combine_l in Hin. rewrite Forall_forall in Hp'. now apply Hp'.
Qed.

Lemma raw_units_fits words sents :
  Forall (fits_line m) (map u_text (raw_units words sents m)).
Proof.
  unfold raw_units.
  assert (G : forall l acc,
            Forall (fits_line m) (map u_text (fst acc)) ->
            Forall (fits_line m) (map u_text (fst (fold_left (sentence_step m) l acc)))).
  { induction l as [|s l IH]; intros [units rest] H; cbn [fold_left]; [exact H|].
    apply IH. now apply sentence_step_fits. }
  apply G. constructor.
Qed.

End UnitTexts.

(** X26.  Every unit of [build_units_from_meta] carries a text that is
    not empty, holds no whitespace and shows at most [max(1,
    max_sub_chars)] visible characters. *)
Theorem build_units_fit_line words sents max_sub_chars :
  Forall (fun u => u_text u <> [] /\ spaceless (u_text u)
                   /\ (visible_len_zh (u_text u) <= Z.max 1 max_sub_chars)%Z)
    (build_units_from_meta words sents max_sub_chars).
Proof.
  unfold build_units_from_meta. cbv zeta.
  set (m := Z.max 1 max_sub_chars).
  set (ss := match sents, words with
             | [], [] => []
             | [], w0 :: _ => _
             | _, _ => sents
             end).
  pose proof (raw_units_fits m ltac:(unfold m; lia) words ss) as H.
  apply Forall_map. apply Forall_forall. intros [u t] Hin. cbn [u_text fst].
  apply in_combine_l in Hin. rewrite Forall_forall in H.
  destruct (H (u_text u) (in_map _ _ _ Hin)) as (A & B & C).
  split; [exact A|]. split; [exact B|].
  unfold visible_len_zh. now rewrite visible_len_spaceless.
Qed.

(** ** [_compute_line_times] *)

Section EstimatedTimes.

Lemma length_line_times durs : forall t, length (line_times_from t durs) = length durs.
Proof. induction durs as [|d r IH]; intro t; cbn; [reflexivity | now rewrite IH]. Qed.



Lemma line_times_start durs : forall t i,
  (i < length durs)%nat ->
  fst (nth i (line_times_from t durs) (0, 0)) == t + qsum (firstn i durs)
  /\ snd (nth i (line_times_from t durs) (0, 0))
     == fst (nth i (line_times_from t durs) (0, 0)) + nth i durs 0.
Proof.
  induction durs as [|d r IH]; intros t i Hi; [simpl in Hi; lia|].
  destruct i as [|i]; cbn [line_times_from nth firstn fst snd].
  - unfold qsum. simpl. split; lra.
  - destruct (IH (t + d) i ltac:(simpl in Hi; lia)) as [H1 H2].
    split; [|exact H2]. rewrite H1, qsum_cons. lra.
Qed.

Lemma qsum_lower (l : list Q) (b : Q) :
  Forall (fun d => b <= d) l -> inject_Z (Z.of_nat (length l)) * b <= qsum l.
Proof.
  induction 1 as [|d l Hd _ IH].
  - change (inject_Z (Z.of_nat (length (@nil Q)))) with 0. unfold qsum. cbn [fold_left]. lra.
  - rewrite qsum_cons. cbn [length]. rewrite Nat2Z.inj_succ. unfold Z.succ.
    rewrite inject_Z_plus. change (inject_Z 1) with 1. lra.
Qed.

End EstimatedTimes.



Lemma last_nth_pair (l : list (Q * Q)) : last l (0, 0) = nth (length l - 1) l (0, 0).
Proof.
  induction l as [|x l IH]; [reflexivity|].
  destruct l as [|y l]; [reflexivity|].
  change (last (x :: y :: l) (0, 0)) with (last (y :: l) (0, 0)). rewrite IH.
  cbn [length]. replace (S (S (length l)) - 1)%nat with (S (length l - 0)) by lia.
  cbn [nth]. now replace (length l - 0)%nat with (S (length l) - 1)%nat by lia.
Qed.

(** X28.  When the voice is shorter than 0.8 seconds for each line but
    the last, the estimated timing of [_compute_line_times] returns a
    last interval that ends before it starts: every earlier line keeps at
    least 0.8 seconds and the last end is set to the voice duration. *)
Theorem compute_line_times_inverted script_lines voice_dur :
  (2 <= length script_lines)%nat ->
  voice_dur < (8 # 10) * inject_Z (Z.of_nat (length script_lines - 1)) ->
  let times := _compute_line_times script_lines voice_dur in
  snd (nth (length times - 1) times (0, 0)) < fst (nth (length times - 1) times (0, 0)).
Proof.
  intros Hn Hshort. cbv zeta. unfold _compute_line_times. cbv zeta.
  destruct (allocate_durations_bounds_helper script_lines voice_dur) as [L Hall].
  set (durs := _allocate_durations script_lines voice_dur) in *.
  assert (Hlen : length (line_times_from 0 durs) = length durs)
    by apply length_line_times.
  destruct (line_times_from 0 durs) as [|o os] eqn:Eo; [simpl in Hlen; lia|].
  rewrite <- Eo in *. clear o os Eo.
  rewrite length_set_nth, Hlen, nth_set_nth_eq by lia. cbn [fst snd].
  rewrite last_nth_pair, Hlen.
  destruct (line_times_start durs 0 (length durs - 1) ltac:(lia)) as [H1 _].
  rewrite H1.
  assert (Hfirst : Forall (fun d => 8 # 10 <= d) (firstn (length durs - 1) durs)).
  { rewrite <- (firstn_skipn (length durs - 1) durs) in Hall.
    apply Forall_app in Hall as [Hall _].
    eapply Forall_impl; [|exact Hall]. cbv beta. tauto. }
  pose proof (qsum_lower _ _ Hfirst) as Hq.
  rewrite length_firstn in Hq.
  replace (Nat.min (length durs - 1) (length durs))
    with (length script_lines - 1)%nat in Hq by lia.
  lra.
Qed.

Lemma compute_line_times_inverted_witness :
  let times := _compute_line_times [[97%Z]; [98%Z]; [99%Z]] 1 in
  snd (nth (length times - 1) times (0, 0)) < fst (nth (length times - 1) times (0, 0)).
Proof.
  apply (compute_line_times_inverted [[97%Z]; [98%Z]; [99%Z]] 1).
  - simpl. lia.
  - vm_compute. reflexivity.
Defined.
